(** * Discord math images: segmentation of a reply into text and formula images

    A shallow embedding of [src/discord/math-images.ts]: the configuration
    resolver, the delimiter scanner, the tokenizer and the segment builder,
    with the properties of the specification proved about them.

    Conventions of the embedding.
    - A JavaScript string is the list of its code units ([jsstring]); an
      offset is a [nat]; [text.length] is [length text].
    - [String.prototype.indexOf] and [findClosingIndex] return [-1] for
      "not found" in the source; here they return [None].
    - A [while] loop is a [Fixpoint] on a fuel argument which its caller
      sets to a bound on the number of iterations; the theorems show that
      the bound is never reached.
    - An awaited call of the renderer is a transition of an explicit world
      (the state outside this file, the trace of render calls and the
      verbose log); a rejected promise is a thrown value, and so is what
      [String(error)] or [logVerbose] throws in the [catch] block. *)

From Stdlib Require Import Ascii String DecimalString.
From Stdlib Require Import ZArith QArith Qround Lia Bool Arith List.
From Stdlib Require DecimalPos DecimalZ.
Import ListNotations.

Local Open Scope nat_scope.
Local Open Scope list_scope.

(** ** Strings *)

Definition jsstring := list ascii.

(** A string literal of the source. *)
Definition lit (s : string) : jsstring := list_ascii_of_string s.

(** [text.slice(start)] *)
Definition sliceFrom (text : jsstring) (start : nat) : jsstring :=
  skipn start text.

(** [text.slice(start, end)] for offsets that are not negative. *)
Definition slice (text : jsstring) (start stop : nat) : jsstring :=
  firstn (stop - start) (skipn start text).

(** Does [pat] occur at the head of [text]? *)
Fixpoint startsWith (pat text : jsstring) : bool :=
  match pat, text with
  | [], _ => true
  | _ :: _, [] => false
  | p :: pat', c :: text' => Ascii.eqb p c && startsWith pat' text'
  end.

(** The smallest offset of [text] at which [pat] occurs. *)
Fixpoint firstOccurrence (pat text : jsstring) : option nat :=
  if startsWith pat text then Some 0
  else match text with
       | [] => None
       | _ :: text' => option_map S (firstOccurrence pat text')
       end.

(** [text.indexOf(pat, position)]: the position is clamped to the length of
    the text, and the result is the smallest offset at or after it at which
    [pat] occurs. *)
Definition indexOf (text pat : jsstring) (position : nat) : option nat :=
  let start := Nat.min position (length text) in
  option_map (Nat.add start) (firstOccurrence pat (skipn start text)).

(** [pat] occurs in [text] at offset [i]. *)
Definition occursAt (pat text : jsstring) (i : nat) : bool :=
  startsWith pat (skipn i text).

(** ** Configuration *)

(** A JavaScript number, as far as [normalizePositiveInt] looks at it: not a
    number, an infinity, or a finite value. The finite doubles are rationals,
    and [Math.floor] of a finite double is exactly the floor of its value. *)
Inductive jsnumber : Type :=
| NaN
| PosInfinity
| NegInfinity
| Finite (q : Q).

(** What a numeric field of the configuration input can hold at run time. *)
Inductive jsvalue : Type :=
| Undefined
| Num (n : jsnumber)
| NotANumber (s : jsstring).

Inductive DelimiterKind : Type :=
| DoubleDollar
| Bracket.

Definition DelimiterKind_eqb (a b : DelimiterKind) : bool :=
  match a, b with
  | DoubleDollar, DoubleDollar => true
  | Bracket, Bracket => true
  | _, _ => false
  end.

(** [DiscordMathImageConfig]: every field is optional; the entries of
    [delimiters] are strings until the resolver has filtered them. *)
Record DiscordMathImageConfig : Type := {
  in_enabled : option bool;
  in_delimiters : option (list string);
  in_excludeCode : option bool;
  in_maxExpressionsPerReply : jsvalue;
  in_maxCharsPerExpression : jsvalue;
  in_maxImageWidthPx : jsvalue
}.

Record ResolvedDiscordMathImageConfig : Type := {
  enabled : bool;
  delimiters : list DelimiterKind;
  excludeCode : bool;
  maxExpressionsPerReply : Z;
  maxCharsPerExpression : Z;
  maxImageWidthPx : Z
}.

Record DelimiterSpec : Type := {
  kind : DelimiterKind;
  open : jsstring;
  close : jsstring
}.

Definition DEFAULT_DELIMITERS : list DelimiterKind := [DoubleDollar; Bracket].
Definition DEFAULT_MAX_EXPRESSIONS : Z := 8.
Definition DEFAULT_MAX_CHARS : Z := 1200.
Definition DEFAULT_MAX_IMAGE_WIDTH_PX : Z := 2048.
Definition MATH_IMAGE_NAME_PREFIX : jsstring := lit "equation".

Definition backslash : ascii := ascii_of_nat 92.

Definition DELIMITER_SPECS : list DelimiterSpec :=
  [ {| kind := DoubleDollar; open := lit "$$"; close := lit "$$" |};
    {| kind := Bracket; open := [backslash; "["%char];
       close := [backslash; "]"%char] |} ].

(** The type guard of the filter in [resolveDiscordMathImageConfig]. *)
Definition delimiterKindOfString (value : string) : option DelimiterKind :=
  if String.eqb value "double-dollar" then Some DoubleDollar
  else if String.eqb value "bracket" then Some Bracket
  else None.

Fixpoint filterDelimiterKinds (values : list string) : list DelimiterKind :=
  match values with
  | [] => []
  | value :: rest =>
      match delimiterKindOfString value with
      | Some k => k :: filterDelimiterKinds rest
      | None => filterDelimiterKinds rest
      end
  end.

Definition normalizePositiveInt (value : jsvalue) (fallback : Z) : Z :=
  match value with
  | Num (Finite q) =>
      let rounded := Qfloor q in
      if (0 <? rounded)%Z then rounded else fallback
  | _ => fallback
  end.

Definition orElse {A : Type} (o : option A) (d : A) : A :=
  match o with
  | Some a => a
  | None => d
  end.

Definition resolveDiscordMathImageConfig (config : option DiscordMathImageConfig)
  : ResolvedDiscordMathImageConfig :=
  let delimiters :=
    orElse (option_map filterDelimiterKinds
              (match config with Some c => in_delimiters c | None => None end))
           [] in
  let normalizedDelimiters :=
    if 0 <? length delimiters then delimiters else DEFAULT_DELIMITERS in
  let field (f : DiscordMathImageConfig -> jsvalue) : jsvalue :=
    match config with Some c => f c | None => Undefined end in
  {| enabled := orElse (match config with Some c => in_enabled c | None => None end) true;
     delimiters := normalizedDelimiters;
     excludeCode :=
       orElse (match config with Some c => in_excludeCode c | None => None end) true;
     maxExpressionsPerReply :=
       normalizePositiveInt (field in_maxExpressionsPerReply) DEFAULT_MAX_EXPRESSIONS;
     maxCharsPerExpression :=
       normalizePositiveInt (field in_maxCharsPerExpression) DEFAULT_MAX_CHARS;
     maxImageWidthPx :=
       normalizePositiveInt (field in_maxImageWidthPx) DEFAULT_MAX_IMAGE_WIDTH_PX |}.

(** ** Tokens *)

Inductive DiscordMathToken : Type :=
| FormulaToken (raw expression : jsstring)
| TextToken (text : jsstring).

(** [!text] of a string. *)
Definition isEmpty (text : jsstring) : bool :=
  match text with
  | [] => true
  | _ :: _ => false
  end.

(** [appendTextToken]: the last token is extended in place when it is a text
    token. The list is walked to its last element. *)
Fixpoint extendLastTextToken (tokens : list DiscordMathToken) (text : jsstring)
  : list DiscordMathToken :=
  match tokens with
  | [] => [TextToken text]
  | [TextToken previous] => [TextToken (previous ++ text)]
  | [FormulaToken raw expression] => [FormulaToken raw expression; TextToken text]
  | token :: rest => token :: extendLastTextToken rest text
  end.

Definition appendTextToken (tokens : list DiscordMathToken) (text : jsstring)
  : list DiscordMathToken :=
  if isEmpty text then tokens else extendLastTextToken tokens text.

(** ** Delimiter scanner *)

(** [!isInsideCode || !isInsideCode(index)] *)
Definition outsideCode (isInsideCode : option (nat -> bool)) (index : nat) : bool :=
  match isInsideCode with
  | None => true
  | Some f => negb (f index)
  end.

(** The [while (searchFrom < text.length)] loop that [findNextOpening] runs
    for one delimiter and that [findClosingIndex] runs for the close marker:
    the first occurrence of [marker] at or after [searchFrom] that is not
    inside code. *)
Fixpoint scanMarker (fuel : nat) (text marker : jsstring)
    (isInsideCode : option (nat -> bool)) (searchFrom : nat) : option nat :=
  match fuel with
  | 0 => None
  | S fuel' =>
      if searchFrom <? length text then
        match indexOf text marker searchFrom with
        | None => None
        | Some index =>
            if outsideCode isInsideCode index then Some index
            else scanMarker fuel' text marker isInsideCode (index + 1)
        end
      else None
  end.

(** One iteration of [for (const delimiter of delimiters)]. *)
Definition updateBest (text : jsstring) (fromIndex : nat)
    (isInsideCode : option (nat -> bool))
    (best : option (nat * DelimiterSpec)) (delimiter : DelimiterSpec)
  : option (nat * DelimiterSpec) :=
  match scanMarker (length text) text (open delimiter) isInsideCode fromIndex with
  | None => best
  | Some index =>
      match best with
      | None => Some (index, delimiter)
      | Some (bestIndex, _) =>
          if index <? bestIndex then Some (index, delimiter) else best
      end
  end.

Definition findNextOpening (text : jsstring) (fromIndex : nat)
    (delimiters : list DelimiterSpec) (isInsideCode : option (nat -> bool))
  : option (nat * DelimiterSpec) :=
  fold_left (updateBest text fromIndex isInsideCode) delimiters None.

Definition findClosingIndex (text : jsstring) (fromIndex : nat)
    (delimiter : DelimiterSpec) (isInsideCode : option (nat -> bool))
  : option nat :=
  scanMarker (length text) text (close delimiter) isInsideCode fromIndex.

(** ** Tokenizer *)

Definition includesKind (kinds : list DelimiterKind) (k : DelimiterKind) : bool :=
  existsb (DelimiterKind_eqb k) kinds.

(** The [while (cursor < text.length)] loop of [tokenizeMathText]. *)
Fixpoint tokenizeLoop (fuel : nat) (text : jsstring)
    (activeDelimiters : list DelimiterSpec) (isInsideCode : option (nat -> bool))
    (cursor : nat) (tokens : list DiscordMathToken) : list DiscordMathToken :=
  match fuel with
  | 0 => tokens
  | S fuel' =>
      if cursor <? length text then
        match findNextOpening text cursor activeDelimiters isInsideCode with
        | None => appendTextToken tokens (sliceFrom text cursor)
        | Some (index, delimiter) =>
            let tokens1 :=
              if cursor <? index
              then appendTextToken tokens (slice text cursor index)
              else tokens in
            let expressionStart := index + length (open delimiter) in
            match findClosingIndex text expressionStart delimiter isInsideCode with
            | None => appendTextToken tokens1 (sliceFrom text index)
            | Some closeIndex =>
                let expression := slice text expressionStart closeIndex in
                let raw := slice text index (closeIndex + length (close delimiter)) in
                tokenizeLoop fuel' text activeDelimiters isInsideCode
                  (closeIndex + length (close delimiter))
                  (tokens1 ++ [FormulaToken raw expression])
            end
        end
      else tokens
  end.

(** ** The world of the segment builder *)

(** What one call of [buildDiscordMathSegments] acts on: the state of
    whatever stands behind the renderer and behind [logVerbose], and the
    calls it made to the renderer and to [logVerbose]. *)
Record World (RendererState : Type) : Type := {
  rendererState : RendererState;
  renderCalls : list (jsstring * Z);
  verboseLog : list jsstring
}.

Arguments Build_World {RendererState} rendererState renderCalls verboseLog.
Arguments rendererState {RendererState} w.
Arguments renderCalls {RendererState} w.
Arguments verboseLog {RendererState} w.

(** ** Concrete inputs

    A code-span locator, renderers, thrown values, a [logVerbose] and some
    configurations on which the theorems below are instantiated. *)

Definition backtick : ascii := ascii_of_nat 96.

(** An offset is inside inline code when an odd number of backticks stand
    before it. *)
Definition inlineCodeIndex (text : jsstring) (offset : nat) : bool :=
  Nat.odd (count_occ ascii_dec (firstn offset text) backtick).

(** The renderer of the tests: [Buffer.from(`png:${expression}`)]. *)
Definition pngRenderer (expression : jsstring) (width : Z) (s : unit)
  : (jsstring + jsstring) * unit :=
  (inr (lit "png:" ++ expression), s).

(** The renderer of the fallback test: it throws on every call. *)
Definition throwingRenderer (expression : jsstring) (width : Z) (s : unit)
  : (jsstring + jsstring) * unit :=
  (inl (lit "Error: bad formula"), s).

(** [String(error)] where the thrown values are strings: the string. *)
Definition stringOfMessage (error : jsstring) (s : unit)
  : (jsstring + jsstring) * unit :=
  (inr error, s).

(** A [logVerbose] that returns. *)
Definition quietLogger {Thrown : Type} (message : jsstring) (s : unit)
  : (Thrown + unit) * unit :=
  (inr tt, s).

(** Thrown values of which one has no string: an [Error] with its message,
    an object without a prototype ([Object.create(null)]), and a
    [TypeError]. *)
Inductive thrownValue : Type :=
| ErrorValue (message : jsstring)
| NullPrototypeObject
| TypeErrorValue (message : jsstring).

(** [String(error)]: the name and the message of an error; for the object
    without a prototype, which has no [toString], a [TypeError] is thrown. *)
Definition stringOfThrownValue (error : thrownValue) (s : unit)
  : (thrownValue + jsstring) * unit :=
  match error with
  | ErrorValue message => (inr (lit "Error: " ++ message), s)
  | TypeErrorValue message => (inr (lit "TypeError: " ++ message), s)
  | NullPrototypeObject =>
      (inl (TypeErrorValue (lit "Cannot convert object to primitive value")), s)
  end.

(** A renderer that is rejected with the object without a prototype on the
    expression [bad], and returns an image on any other. *)
Definition unprintableRenderer (expression : jsstring) (width : Z) (s : unit)
  : (thrownValue + jsstring) * unit :=
  if list_eq_dec ascii_dec expression (lit "bad")
  then (inl NullPrototypeObject, s)
  else (inr (lit "png:" ++ expression), s).

(** A renderer that is rejected with an [Error] on the expression [bad], and
    returns an image on any other. *)
Definition pickyRenderer (expression : jsstring) (width : Z) (s : unit)
  : (jsstring + jsstring) * unit :=
  if list_eq_dec ascii_dec expression (lit "bad")
  then (inl (lit "Error: bad formula"), s)
  else (inr (lit "png:" ++ expression), s).

Definition emptyWorld : World unit :=
  {| rendererState := tt; renderCalls := []; verboseLog := [] |}.

Definition emptyConfig : DiscordMathImageConfig :=
  {| in_enabled := None; in_delimiters := None; in_excludeCode := None;
     in_maxExpressionsPerReply := Undefined;
     in_maxCharsPerExpression := Undefined;
     in_maxImageWidthPx := Undefined |}.

(** [{ enabled: false }] *)
Definition disabledConfig : DiscordMathImageConfig :=
  {| in_enabled := Some false; in_delimiters := None; in_excludeCode := None;
     in_maxExpressionsPerReply := Undefined;
     in_maxCharsPerExpression := Undefined;
     in_maxImageWidthPx := Undefined |}.

(** [{ maxExpressionsPerReply: 2.5 }] *)
Definition fractionalConfig : DiscordMathImageConfig :=
  {| in_enabled := None; in_delimiters := None; in_excludeCode := None;
     in_maxExpressionsPerReply := Num (Finite (5 # 2));
     in_maxCharsPerExpression := Undefined;
     in_maxImageWidthPx := Undefined |}.

(** [{ maxExpressionsPerReply: 1 }] *)
Definition limitOneConfig : DiscordMathImageConfig :=
  {| in_enabled := None; in_delimiters := None; in_excludeCode := None;
     in_maxExpressionsPerReply := Num (Finite 1);
     in_maxCharsPerExpression := Undefined;
     in_maxImageWidthPx := Undefined |}.

(** [{ maxCharsPerExpression: 3 }] *)
Definition threeCharsConfig : DiscordMathImageConfig :=
  {| in_enabled := None; in_delimiters := None; in_excludeCode := None;
     in_maxExpressionsPerReply := Undefined;
     in_maxCharsPerExpression := Num (Finite 3);
     in_maxImageWidthPx := Undefined |}.

Section MathImages.

(** The code-span locator of [../markdown/code-spans.js], which is not part
    of this file: [buildCodeSpanIndex text] is the predicate [isInside]. *)
Variable buildCodeSpanIndex : jsstring -> nat -> bool.

Definition activeDelimitersOf (config : ResolvedDiscordMathImageConfig)
  : list DelimiterSpec :=
  filter (fun item => includesKind (delimiters config) (kind item)) DELIMITER_SPECS.

Definition codePredicateOf (text : jsstring) (config : ResolvedDiscordMathImageConfig)
  : option (nat -> bool) :=
  if excludeCode config then Some (buildCodeSpanIndex text) else None.

Definition tokenizeMathText (text : jsstring) (config : ResolvedDiscordMathImageConfig)
  : list DiscordMathToken :=
  let activeDelimiters := activeDelimitersOf config in
  if length activeDelimiters =? 0 then [TextToken text]
  else
    let isInsideCode := codePredicateOf text config in
    let tokens := tokenizeLoop (length text) text activeDelimiters isInsideCode 0 [] in
    if length tokens =? 0 then [TextToken text] else tokens.

(** ** Segments and the renderer *)

(** The bytes of an image, and the values a render call can be rejected with. *)
Variable Buffer : Type.
Variable Thrown : Type.

(** The state outside this file: whatever stands behind the renderers (the
    MathJax runtime, the image library, a test double), behind the
    [toString] of a thrown value and behind [logVerbose]. *)
Variable RendererState : Type.

(** [String(error)], which runs the [toString] of the thrown value: the
    string, or what the conversion throws (a [TypeError] for a value without
    a [toString], or whatever a [toString] of its own throws). *)
Variable stringOfError :
  Thrown -> RendererState -> (Thrown + jsstring) * RendererState.

Definition Renderer : Type :=
  jsstring -> Z -> RendererState -> (Thrown + Buffer) * RendererState.

Definition Logger : Type :=
  jsstring -> RendererState -> (Thrown + unit) * RendererState.

(** [renderFormulaPngDefault], whose libraries are outside this file. *)
Variable renderFormulaPngDefault : Renderer.

(** [logVerbose] of [../globals.js], which is not part of this file: a call
    returns or throws. *)
Variable verboseLogger : Logger.

Inductive DiscordMathSegment : Type :=
| TextSegment (text : jsstring)
| MathImageSegment (formulaText expression : jsstring)
    (imageBuffer : Buffer) (fileName : jsstring).

Record DiscordMathSegmentResult : Type := {
  segments : list DiscordMathSegment;
  hasMathImages : bool;
  config : ResolvedDiscordMathImageConfig
}.

Record BuildDiscordMathSegmentsDeps : Type := {
  renderFormulaPng : option Renderer
}.

(** A computation that may throw. *)
Definition Eff (A : Type) : Type :=
  World RendererState -> (Thrown + A) * World RendererState.

Definition ret {A : Type} (a : A) : Eff A := fun w => (inr a, w).

Definition bind {A B : Type} (m : Eff A) (k : A -> Eff B) : Eff B :=
  fun w =>
    match m w with
    | (inl e, w') => (inl e, w')
    | (inr a, w') => k a w'
    end.

Definition tryCatch {A : Type} (body : Eff A) (handler : Thrown -> Eff A) : Eff A :=
  fun w =>
    match body w with
    | (inl e, w') => handler e w'
    | (inr a, w') => (inr a, w')
    end.

(** [await render(expression, maxImageWidthPx)] *)
Definition awaitRender (render : Renderer) (expression : jsstring) (width : Z)
  : Eff Buffer :=
  fun w =>
    let (outcome, s') := render expression width (rendererState w) in
    (outcome,
     {| rendererState := s';
        renderCalls := renderCalls w ++ [(expression, width)];
        verboseLog := verboseLog w |}).

(** [String(error)] *)
Definition stringOf (error : Thrown) : Eff jsstring :=
  fun w =>
    let (outcome, s') := stringOfError error (rendererState w) in
    (outcome,
     {| rendererState := s';
        renderCalls := renderCalls w;
        verboseLog := verboseLog w |}).

(** [logVerbose(message)] *)
Definition logVerbose (message : jsstring) : Eff unit :=
  fun w =>
    let (outcome, s') := verboseLogger message (rendererState w) in
    (outcome,
     {| rendererState := s';
        renderCalls := renderCalls w;
        verboseLog := verboseLog w ++ [message] |}).

Definition isWhitespace (c : ascii) : bool :=
  let n := nat_of_ascii c in
  ((9 <=? n) && (n <=? 13)) || (n =? 32) || (n =? 160).

(** [.replace(/\s+/g, " ")] *)
Fixpoint collapseWhitespace (inRun : bool) (s : jsstring) : jsstring :=
  match s with
  | [] => []
  | c :: rest =>
      if isWhitespace c
      then (if inRun then collapseWhitespace true rest
            else " "%char :: collapseWhitespace true rest)
      else c :: collapseWhitespace false rest
  end.

Fixpoint trimStart (s : jsstring) : jsstring :=
  match s with
  | c :: rest => if isWhitespace c then trimStart rest else s
  | [] => []
  end.

(** [.trim()] *)
Definition trim (s : jsstring) : jsstring :=
  rev (trimStart (rev (trimStart s))).

(** The argument of [logVerbose], from the string of the error. *)
Definition renderFailedMessage (errorString : jsstring) : jsstring :=
  lit "discord math render failed; sent plain text fallback: "
  ++ trim (collapseWhitespace false errorString).

(** The decimal digits of a count. *)
Definition stringOfCount (n : Z) : jsstring :=
  lit (NilZero.string_of_int (Z.to_int n)).

Definition fileNameOf (imageCount : Z) : jsstring :=
  MATH_IMAGE_NAME_PREFIX ++ lit "-" ++ stringOfCount imageCount ++ lit ".png".

(** [appendMathTextSegment]: as [appendTextToken], on segments. *)
Fixpoint extendLastTextSegment (segs : list DiscordMathSegment) (text : jsstring)
  : list DiscordMathSegment :=
  match segs with
  | [] => [TextSegment text]
  | [TextSegment previous] => [TextSegment (previous ++ text)]
  | [MathImageSegment f e b n] => [MathImageSegment f e b n; TextSegment text]
  | seg :: rest => seg :: extendLastTextSegment rest text
  end.

Definition appendMathTextSegment (segs : list DiscordMathSegment) (text : jsstring)
  : list DiscordMathSegment :=
  if isEmpty text then segs else extendLastTextSegment segs text.

(** The body of [for (const token of tokens)]: the segments and the image
    count after one token. In the [catch] block the text is appended first;
    then the argument of [logVerbose] is evaluated, and [logVerbose] called:
    what either throws is thrown by the body. *)
Definition processToken (config : ResolvedDiscordMathImageConfig)
    (render : Renderer) (token : DiscordMathToken)
    (state : list DiscordMathSegment * Z) : Eff (list DiscordMathSegment * Z) :=
  let (segs, imageCount) := state in
  match token with
  | TextToken text => ret (appendMathTextSegment segs text, imageCount)
  | FormulaToken raw expression =>
      if (maxExpressionsPerReply config <=? imageCount)%Z then
        ret (appendMathTextSegment segs raw, imageCount)
      else if (maxCharsPerExpression config <? Z.of_nat (length expression))%Z then
        ret (appendMathTextSegment segs raw, imageCount)
      else
        tryCatch
          (bind (awaitRender render expression (maxImageWidthPx config))
             (fun imageBuffer =>
                let imageCount' := (imageCount + 1)%Z in
                ret (segs ++ [MathImageSegment raw expression imageBuffer
                                (fileNameOf imageCount')],
                     imageCount')))
          (fun error =>
             let segs' := appendMathTextSegment segs raw in
             bind (stringOf error)
               (fun errorString =>
                  bind (logVerbose (renderFailedMessage errorString))
                    (fun _ => ret (segs', imageCount))))
  end.

Fixpoint processTokens (config : ResolvedDiscordMathImageConfig)
    (render : Renderer) (tokens : list DiscordMathToken)
    (state : list DiscordMathSegment * Z) : Eff (list DiscordMathSegment * Z) :=
  match tokens with
  | [] => ret state
  | token :: rest =>
      bind (processToken config render token state)
        (processTokens config render rest)
  end.

Definition isFormulaToken (token : DiscordMathToken) : bool :=
  match token with
  | FormulaToken _ _ => true
  | TextToken _ => false
  end.

Definition isMathImage (seg : DiscordMathSegment) : bool :=
  match seg with
  | MathImageSegment _ _ _ _ => true
  | TextSegment _ => false
  end.

Definition buildDiscordMathSegments (text : jsstring)
    (configInput : option DiscordMathImageConfig)
    (deps : BuildDiscordMathSegmentsDeps) : Eff DiscordMathSegmentResult :=
  let config := resolveDiscordMathImageConfig configInput in
  let wholeText :=
    {| config := config; hasMathImages := false; segments := [TextSegment text] |} in
  if negb (enabled config) || isEmpty text then ret wholeText
  else
    let tokens := tokenizeMathText text config in
    if negb (existsb isFormulaToken tokens) then ret wholeText
    else
      let render := orElse (renderFormulaPng deps) renderFormulaPngDefault in
      bind (processTokens config render tokens ([], 0%Z))
        (fun '(segs, _) =>
           if length segs =? 0 then ret wholeText
           else ret {| config := config;
                       hasMathImages := existsb isMathImage segs;
                       segments := segs |}).


(** ** What the claims speak about *)

(** [marker] occurs at offset [j] of [text], and [j] is not inside code. *)
Definition validAt (marker text : jsstring) (isInsideCode : option (nat -> bool))
    (j : nat) : bool :=
  occursAt marker text j && outsideCode isInsideCode j.

(** [i] is the first valid occurrence of [marker] at or after [from], before
    the end of the text. *)
Definition earliestValid (marker text : jsstring)
    (isInsideCode : option (nat -> bool)) (from i : nat) : Prop :=
  from <= i < length text
  /\ validAt marker text isInsideCode i = true
  /\ forall j, from <= j < i -> validAt marker text isInsideCode j = false.

(** The concatenation of the [rawText] and [content] fields of the tokens. *)
Definition tokenText (token : DiscordMathToken) : jsstring :=
  match token with
  | FormulaToken raw _ => raw
  | TextToken text => text
  end.

Definition concatTokens (tokens : list DiscordMathToken) : jsstring :=
  concat (map tokenText tokens).

(** The formula tokens of a token sequence, each with the offset at which it
    starts when the sequence is laid out from [offset]. *)
Fixpoint formulaSpans (offset : nat) (tokens : list DiscordMathToken)
  : list (nat * jsstring * jsstring) :=
  match tokens with
  | [] => []
  | FormulaToken raw expression :: rest =>
      (offset, raw, expression) :: formulaSpans (offset + length raw) rest
  | TextToken text :: rest => formulaSpans (offset + length text) rest
  end.

(** Every delimiter has a marker: an iteration that emits a formula token
    moves the cursor forward. *)
Definition haveMarkers (ds : list DelimiterSpec) : Prop :=
  forall d, In d ds -> 0 < length (open d) + length (close d).

(** An opening and its closer, as the loop finds them from [cursor]. *)
Definition pairFound (text : jsstring) (ds : list DelimiterSpec)
    (inside : option (nat -> bool)) (cursor index : nat) (d : DelimiterSpec)
    (closeIndex : nat) : Prop :=
  In d ds
  /\ cursor <= index
  /\ index + length (open d) <= closeIndex
  /\ closeIndex + length (close d) <= length text
  /\ validAt (open d) text inside index = true
  /\ validAt (close d) text inside closeIndex = true.

(** The tokens laid out so far are the text up to the cursor. *)
Definition coversPrefix (text : jsstring) (cursor : nat)
    (tokens : list DiscordMathToken) : Prop :=
  cursor <= length text /\ concatTokens tokens = firstn cursor text.

(** A formula span [(offset, raw, expression)] is an opening marker outside
    code at [offset], the expression, and the closing marker outside code. *)
Definition delimitedSpan (text : jsstring) (ds : list DelimiterSpec)
    (inside : option (nat -> bool)) (span : nat * jsstring * jsstring) : Prop :=
  let '(offset, raw, expression) := span in
  exists d,
    In d ds
    /\ raw = open d ++ expression ++ close d
    /\ raw = slice text offset (offset + length raw)
    /\ validAt (open d) text inside offset = true
    /\ validAt (close d) text inside
         (offset + length (open d) + length expression) = true.

(** The [content] of a text segment, the [formulaText] of a math image. *)
Definition segmentText (seg : DiscordMathSegment) : jsstring :=
  match seg with
  | TextSegment text => text
  | MathImageSegment formulaText _ _ _ => formulaText
  end.

Definition concatSegments (segs : list DiscordMathSegment) : jsstring :=
  concat (map segmentText segs).

(** The formula tokens, in order, as pairs of [rawText] and [expression]. *)
Definition formulaTokens (tokens : list DiscordMathToken)
  : list (jsstring * jsstring) :=
  flat_map (fun token =>
              match token with
              | FormulaToken raw expression => [(raw, expression)]
              | TextToken _ => []
              end) tokens.

(** The math-image segments, in order, as pairs of [formulaText] and
    [expression]. *)
Definition mathImages (segs : list DiscordMathSegment)
  : list (jsstring * jsstring) :=
  flat_map (fun seg =>
              match seg with
              | MathImageSegment formulaText expression _ _ =>
                  [(formulaText, expression)]
              | TextSegment _ => []
              end) segs.

(** [raw] appears verbatim inside [content]. *)
Definition occursIn (raw content : jsstring) : Prop :=
  exists before after, content = before ++ raw ++ after.

(** [raw] appears verbatim inside a text segment. *)
Definition inTextSegment (segs : list DiscordMathSegment) (raw : jsstring) : Prop :=
  exists content, In (TextSegment content) segs /\ occursIn raw content.

(** Two text segments stand next to each other. *)
Fixpoint adjacentText (segs : list DiscordMathSegment) : bool :=
  match segs with
  | [] => false
  | TextSegment _ :: rest =>
      match rest with
      | TextSegment _ :: _ => true
      | _ => adjacentText rest
      end
  | MathImageSegment _ _ _ _ :: rest => adjacentText rest
  end.

(** The world after a render call, and after a call of [logVerbose]. *)
Definition afterRender (w : World RendererState) (s : RendererState)
    (expression : jsstring) (width : Z) : World RendererState :=
  {| rendererState := s;
     renderCalls := renderCalls w ++ [(expression, width)];
     verboseLog := verboseLog w |}.

Definition afterLog (w : World RendererState) (message : jsstring)
    (s : RendererState) : World RendererState :=
  {| rendererState := s;
     renderCalls := renderCalls w;
     verboseLog := verboseLog w ++ [message] |}.

(** The five ways in which the loop of [buildDiscordMathSegments] gets past
    a token: from the segments [segs], the count [n] and the world [w] to
    the segments, the count and the world after it. *)
Inductive tokenOutcome (config : ResolvedDiscordMathImageConfig)
    (render : Renderer) (segs : list DiscordMathSegment) (n : Z)
    (w : World RendererState)
  : DiscordMathToken -> list DiscordMathSegment -> Z -> World RendererState
    -> Prop :=
| outcome_text text :
    tokenOutcome config render segs n w (TextToken text)
      (appendMathTextSegment segs text) n w
| outcome_over_count raw expression :
    (maxExpressionsPerReply config <= n)%Z ->
    tokenOutcome config render segs n w (FormulaToken raw expression)
      (appendMathTextSegment segs raw) n w
| outcome_too_long raw expression :
    (n < maxExpressionsPerReply config)%Z ->
    (maxCharsPerExpression config < Z.of_nat (length expression))%Z ->
    tokenOutcome config render segs n w (FormulaToken raw expression)
      (appendMathTextSegment segs raw) n w
| outcome_rendered raw expression imageBuffer s :
    (n < maxExpressionsPerReply config)%Z ->
    (Z.of_nat (length expression) <= maxCharsPerExpression config)%Z ->
    render expression (maxImageWidthPx config) (rendererState w)
      = (inr imageBuffer, s) ->
    tokenOutcome config render segs n w (FormulaToken raw expression)
      (segs ++ [MathImageSegment raw expression imageBuffer
                  (fileNameOf (n + 1)%Z)])
      (n + 1)%Z
      (afterRender w s expression (maxImageWidthPx config))
| outcome_failed raw expression error s errorString s1 s' :
    (n < maxExpressionsPerReply config)%Z ->
    (Z.of_nat (length expression) <= maxCharsPerExpression config)%Z ->
    render expression (maxImageWidthPx config) (rendererState w)
      = (inl error, s) ->
    stringOfError error s = (inr errorString, s1) ->
    verboseLogger (renderFailedMessage errorString) s1 = (inr tt, s') ->
    tokenOutcome config render segs n w (FormulaToken raw expression)
      (appendMathTextSegment segs raw) n
      (afterLog (afterRender w s expression (maxImageWidthPx config))
         (renderFailedMessage errorString) s').

(** The two ways in which the loop is left by a throw: after a rejected
    render call, [String(error)] throws, or [logVerbose] does. *)
Inductive tokenThrows (config : ResolvedDiscordMathImageConfig)
    (render : Renderer) (n : Z) (w : World RendererState)
  : DiscordMathToken -> Thrown -> World RendererState -> Prop :=
| throws_string raw expression error s thrown s1 :
    (n < maxExpressionsPerReply config)%Z ->
    (Z.of_nat (length expression) <= maxCharsPerExpression config)%Z ->
    render expression (maxImageWidthPx config) (rendererState w)
      = (inl error, s) ->
    stringOfError error s = (inl thrown, s1) ->
    tokenThrows config render n w (FormulaToken raw expression) thrown
      (afterRender w s1 expression (maxImageWidthPx config))
| throws_log raw expression error s errorString s1 thrown s' :
    (n < maxExpressionsPerReply config)%Z ->
    (Z.of_nat (length expression) <= maxCharsPerExpression config)%Z ->
    render expression (maxImageWidthPx config) (rendererState w)
      = (inl error, s) ->
    stringOfError error s = (inr errorString, s1) ->
    verboseLogger (renderFailedMessage errorString) s1 = (inl thrown, s') ->
    tokenThrows config render n w (FormulaToken raw expression) thrown
      (afterLog (afterRender w s expression (maxImageWidthPx config))
         (renderFailedMessage errorString) s').

(** The build is rejected, with what the [catch] block threw after a
    rejected render call. *)
Definition rejectedInCatch (text : jsstring)
    (configInput : option DiscordMathImageConfig)
    (deps : BuildDiscordMathSegmentsDeps) (w : World RendererState) : Prop :=
  let config := resolveDiscordMathImageConfig configInput in
  let tokens := tokenizeMathText text config in
  let render := orElse (renderFormulaPng deps) renderFormulaPngDefault in
  exists thrown w' token n v,
    buildDiscordMathSegments text configInput deps w = (inl thrown, w')
    /\ In token tokens
    /\ tokenThrows config render n v token thrown w'.

(** The [catch] block returns: [String(error)] gives a string for every
    thrown value, and every call of [logVerbose] returns. *)
Definition handlerReturns : Prop :=
  (forall error s, exists errorString s',
      stringOfError error s = (inr errorString, s'))
  /\ forall message s, exists s', verboseLogger message s = (inr tt, s').

(** The character before offset [i] is a backslash. *)
Definition escapedAt (text : jsstring) (i : nat) : bool :=
  match i with
  | 0 => false
  | S j =>
      match nth_error text j with
      | Some c => Ascii.eqb c backslash
      | None => false
      end
  end.

(** A value of a numeric field that is a positive integer. *)
Definition positiveIntegerValue (v : jsvalue) : Prop :=
  exists q z, v = Num (Finite q) /\ (0 < z)%Z /\ (q == inject_Z z)%Q.

(** What a numeric field resolves to: the floor of a finite number that is at
    least 1, and the default for anything else. *)
Definition floorOrDefault (v : jsvalue) (default : Z) : Z :=
  match v with
  | Num (Finite q) => if Qle_bool 1 q then Qfloor q else default
  | _ => default
  end.

(** A numeric field of the configuration input, [undefined] without one. *)
Definition inputField (ci : option DiscordMathImageConfig)
    (field : DiscordMathImageConfig -> jsvalue) : jsvalue :=
  match ci with
  | Some c => field c
  | None => Undefined
  end.

(** What the loop keeps when every render call succeeds and every formula
    is within the length limit: the first [k] formulas are the images and the
    render calls, in order, and the others are inside text. *)
Definition countLimitInvariant (cfg : ResolvedDiscordMathImageConfig)
    (w : World RendererState) (done : list DiscordMathToken)
    (segs : list DiscordMathSegment) (n : Z) (v : World RendererState) : Prop :=
  let k := Z.to_nat (maxExpressionsPerReply cfg) in
  n = Z.min (Z.of_nat (length (formulaTokens done))) (maxExpressionsPerReply cfg)
  /\ mathImages segs = firstn k (formulaTokens done)
  /\ renderCalls v
     = renderCalls w
       ++ map (fun p => (snd p, maxImageWidthPx cfg)) (firstn k (formulaTokens done))
  /\ forall raw e,
       In (raw, e) (skipn k (formulaTokens done)) -> inTextSegment segs raw.

(** The math-image segments of a segment sequence, each with the offset at
    which its [formulaText] starts when the sequence is laid out from
    [offset]. *)
Fixpoint imageSpans (offset : nat) (segs : list DiscordMathSegment)
  : list (nat * jsstring * jsstring) :=
  match segs with
  | [] => []
  | MathImageSegment formulaText expression _ _ :: rest =>
      (offset, formulaText, expression)
      :: imageSpans (offset + length formulaText) rest
  | TextSegment text :: rest => imageSpans (offset + length text) rest
  end.

(** Two text tokens stand next to each other. *)
Fixpoint adjacentTextTokens (tokens : list DiscordMathToken) : bool :=
  match tokens with
  | [] => false
  | TextToken _ :: rest =>
      match rest with
      | TextToken _ :: _ => true
      | _ => adjacentTextTokens rest
      end
  | FormulaToken _ _ :: rest => adjacentTextTokens rest
  end.

(** The offset at which the last formula token of a sequence ends when the
    sequence is laid out from [offset]; [start] when it has none. *)
Fixpoint lastFormulaEnd (offset start : nat) (tokens : list DiscordMathToken)
  : nat :=
  match tokens with
  | [] => start
  | FormulaToken raw _ :: rest =>
      lastFormulaEnd (offset + length raw) (offset + length raw) rest
  | TextToken text :: rest => lastFormulaEnd (offset + length text) start rest
  end.

(** The formula tokens of a sequence laid out from [offset], each with the
    offset from which the scan for it began (the end of the formula token
    before it, [start] for the first) and the offset at which it stands. *)
Fixpoint formulaScans (offset start : nat) (tokens : list DiscordMathToken)
  : list (nat * nat * jsstring * jsstring) :=
  match tokens with
  | [] => []
  | FormulaToken raw expression :: rest =>
      (start, offset, raw, expression)
      :: formulaScans (offset + length raw) (offset + length raw) rest
  | TextToken text :: rest => formulaScans (offset + length text) start rest
  end.

(** The file names of the math-image segments, in order. *)
Definition imageFileNames (segs : list DiscordMathSegment) : list jsstring :=
  flat_map (fun seg =>
              match seg with
              | MathImageSegment _ _ _ fileName => [fileName]
              | TextSegment _ => []
              end) segs.

(** The math-image segments, in order, as pairs of [expression] and
    [imageBuffer]. *)
Definition imageBuffers (segs : list DiscordMathSegment)
  : list (jsstring * Buffer) :=
  flat_map (fun seg =>
              match seg with
              | MathImageSegment _ expression imageBuffer _ =>
                  [(expression, imageBuffer)]
              | TextSegment _ => []
              end) segs.

(** The render calls [calls] made one after the other from the state [s]:
    each call in the state in which the ones before it left the world, a
    rejected call being followed by the [String(error)] and the [logVerbose]
    of its [catch] block. When none of these throws: the expressions and
    buffers of the calls that returned, in order; else what was thrown. And
    the state at the end. *)
Fixpoint replayCalls (render : Renderer) (calls : list (jsstring * Z))
    (s : RendererState)
  : (Thrown + list (jsstring * Buffer)) * RendererState :=
  match calls with
  | [] => (inr [], s)
  | (expression, width) :: rest =>
      match render expression width s with
      | (inr imageBuffer, s') =>
          match replayCalls render rest s' with
          | (inr images, s'') => (inr ((expression, imageBuffer) :: images), s'')
          | (inl thrown, s'') => (inl thrown, s'')
          end
      | (inl error, s1) =>
          match stringOfError error s1 with
          | (inl thrown, s2) => (inl thrown, s2)
          | (inr errorString, s2) =>
              match verboseLogger (renderFailedMessage errorString) s2 with
              | (inr _, s3) => replayCalls render rest s3
              | (inl thrown, s3) => (inl thrown, s3)
              end
          end
      end
  end.

(** A formula that can become an image: its expression is within the length
    limit, and it is not one that the renderer rejects. *)
Definition eligible (config : ResolvedDiscordMathImageConfig)
    (rejected : jsstring -> bool) (formula : jsstring * jsstring) : bool :=
  (Z.of_nat (length (snd formula)) <=? maxCharsPerExpression config)%Z
  && negb (rejected (snd formula)).

(** A formula token as the two scans gave it: the opening that
    [findNextOpening] returns from [start] and the closer that
    [findClosingIndex] returns after it. *)
Definition scannedAt (text : jsstring) (ds : list DelimiterSpec)
    (inside : option (nat -> bool))
    (scan : nat * nat * jsstring * jsstring) : Prop :=
  let '(start, offset, raw, expression) := scan in
  exists d,
    findNextOpening text start ds inside = Some (offset, d)
    /\ findClosingIndex text (offset + length (open d)) d inside
       = Some (offset + length (open d) + length expression)
    /\ raw = open d ++ expression ++ close d.

(** The names that the configuration input gives for [delimiters]; none
    when the input or the field is missing. *)
Definition inputDelimiters (ci : option DiscordMathImageConfig) : list string :=
  match ci with
  | Some c => orElse (in_delimiters c) []
  | None => []
  end.

(** ** The SVG markup of the default renderer

    [extractSvgMarkup] and [applySvgTextColor], which
    [renderFormulaPngDefault] applies to the markup that MathJax returns. *)

(** [new Error(message)] *)
Inductive jserror : Type :=
| JsError (message : jsstring).

(** The largest offset of [text] at which [pat] occurs. *)
Fixpoint lastOccurrence (pat text : jsstring) : option nat :=
  match text with
  | [] => if startsWith pat [] then Some 0 else None
  | _ :: text' =>
      match lastOccurrence pat text' with
      | Some k => Some (S k)
      | None => if startsWith pat text then Some 0 else None
      end
  end.

(** [text.lastIndexOf(pat)] *)
Definition lastIndexOf (text pat : jsstring) : option nat :=
  lastOccurrence pat text.

Definition extractSvgMarkup (markup : jsstring) : jserror + jsstring :=
  match indexOf markup (lit "<svg") 0, lastIndexOf markup (lit "</svg>") with
  | Some start, Some stop =>
      if stop <? start
      then inl (JsError (lit "MathJax did not return SVG output"))
      else inr (slice markup start (stop + length (lit "</svg>")))
  | _, _ => inl (JsError (lit "MathJax did not return SVG output"))
  end.

Definition dquote : ascii := ascii_of_nat 34.

(** A word character of a regular expression: a letter, a digit or [_]. *)
Definition isWordChar (c : ascii) : bool :=
  let n := nat_of_ascii c in
  ((48 <=? n) && (n <=? 57)) || ((65 <=? n) && (n <=? 90)) || (n =? 95)
  || ((97 <=? n) && (n <=? 122)).

Definition isDigit (c : ascii) : bool :=
  let n := nat_of_ascii c in (48 <=? n) && (n <=? 57).

(** The regular expression of the opening tag, matched at the head of [s]:
    [<svg], a word boundary (a character that is no word character, or the
    end), the attributes (every character up to the first [>], captured) and
    that [>]. *)
Definition svgTagHere (s : jsstring) : option jsstring :=
  if startsWith (lit "<svg") s then
    let rest := skipn 4 s in
    let boundary :=
      match rest with
      | [] => true
      | c :: _ => negb (isWordChar c)
      end in
    if boundary then
      match firstOccurrence [">"%char] rest with
      | Some k => Some (firstn k rest)
      | None => None
      end
    else None
  else None.

(** The first match of the opening tag in [s]: its offset and the captured
    attributes. *)
Fixpoint findSvgTag (s : jsstring) : option (nat * jsstring) :=
  match svgTagHere s with
  | Some attrs => Some (0, attrs)
  | None =>
      match s with
      | [] => None
      | _ :: s' =>
          match findSvgTag s' with
          | Some (i, attrs) => Some (S i, attrs)
          | None => None
          end
      end
  end.

Definition styleEquals : jsstring := lit "style=" ++ [dquote].

(** The regular expression of the style attribute, matched at the head of
    [s]: a whitespace character, [style=], a quote, the value (every character
    up to the next quote, captured) and that quote. *)
Definition styleAttrHere (s : jsstring) : option jsstring :=
  match s with
  | [] => None
  | c :: rest =>
      if isWhitespace c && startsWith styleEquals rest then
        let body := skipn (length styleEquals) rest in
        match firstOccurrence [dquote] body with
        | Some k => Some (firstn k body)
        | None => None
        end
      else None
  end.

(** The first match of the style attribute in [s]: its offset and the
    captured value. *)
Fixpoint findStyleAttr (s : jsstring) : option (nat * jsstring) :=
  match styleAttrHere s with
  | Some value => Some (0, value)
  | None =>
      match s with
      | [] => None
      | _ :: s' =>
          match findStyleAttr s' with
          | Some (i, value) => Some (S i, value)
          | None => None
          end
      end
  end.

(** The patterns of a replacement string, as [String.prototype.replace]
    expands them for a regular expression with one capture group and no named
    group: [$$], [$&], the text before and after the match, and [$1] (also
    written [$01]). *)
Fixpoint getSubstitution (matched before after capture template : jsstring)
  : jsstring :=
  match template with
  | [] => []
  | c :: rest =>
      if Ascii.eqb c "$" then
        match rest with
        | [] => ["$"%char]
        | c1 :: rest1 =>
            let oneDigit :=
              if Ascii.eqb c1 "1"
              then capture ++ getSubstitution matched before after capture rest1
              else "$"%char :: c1
                   :: getSubstitution matched before after capture rest1 in
            if Ascii.eqb c1 "$" then
              "$"%char :: getSubstitution matched before after capture rest1
            else if Ascii.eqb c1 "&" then
              matched ++ getSubstitution matched before after capture rest1
            else if Ascii.eqb c1 "`" then
              before ++ getSubstitution matched before after capture rest1
            else if Ascii.eqb c1 "'" then
              after ++ getSubstitution matched before after capture rest1
            else if isDigit c1 then
              match rest1 with
              | c2 :: rest2 =>
                  if Ascii.eqb c1 "0" && Ascii.eqb c2 "1" then
                    capture ++ getSubstitution matched before after capture rest2
                  else if Ascii.eqb c1 "0" && Ascii.eqb c2 "0" then
                    "$"%char :: "0"%char :: "0"%char
                    :: getSubstitution matched before after capture rest2
                  else oneDigit
              | [] => oneDigit
              end
            else "$"%char :: getSubstitution matched before after capture rest
        end
      else c :: getSubstitution matched before after capture rest
  end.

(** The attributes with the colour in their [style]: what the callback of
    [applySvgTextColor] puts between [<svg] and [>]. *)
Definition colouredAttrs (attrs color : jsstring) : jsstring :=
  match findStyleAttr attrs with
  | None =>
      attrs ++ lit " style=" ++ [dquote] ++ lit "color: " ++ color ++ lit ";"
      ++ [dquote]
  | Some (i, value) =>
      let originalStyle := trim value in
      let nextStyle :=
        if isEmpty originalStyle
        then lit "color: " ++ color ++ lit ";"
        else originalStyle ++ lit "; color: " ++ color ++ lit ";" in
      let stop := i + 1 + length styleEquals + length value + 1 in
      firstn i attrs
      ++ getSubstitution (slice attrs i stop) (firstn i attrs) (skipn stop attrs)
           value (lit " style=" ++ [dquote] ++ nextStyle ++ [dquote])
      ++ skipn stop attrs
  end.

Definition applySvgTextColor (svg color : jsstring) : jsstring :=
  match findSvgTag svg with
  | None => svg
  | Some (index, attrs) =>
      firstn index svg
      ++ (lit "<svg" ++ colouredAttrs attrs color ++ lit ">")
      ++ skipn (index + length (lit "<svg") + length attrs + 1) svg
  end.

(** ** Strings: occurrences and [indexOf] *)

Lemma startsWith_app (pat rest : jsstring) : startsWith pat (pat ++ rest) = true.
Proof.
  induction pat as [|p pat IH]; simpl; [reflexivity|].
  now rewrite Ascii.eqb_refl, IH.
Qed.

Lemma startsWith_inv (pat text : jsstring) :
  startsWith pat text = true -> exists rest, text = pat ++ rest.
Proof.
  revert text; induction pat as [|p pat IH]; intros text H; simpl in *.
  - now exists text.
  - destruct text as [|c text]; [discriminate|].
    apply andb_true_iff in H as [Hc Hr].
    apply Ascii.eqb_eq in Hc; subst c.
    destruct (IH _ Hr) as [rest ->]. now exists rest.
Qed.

Lemma startsWith_length (pat text : jsstring) :
  startsWith pat text = true -> length pat <= length text.
Proof.
  intros H. destruct (startsWith_inv _ _ H) as [rest ->].
  rewrite length_app. lia.
Qed.

Lemma occursAt_bound (pat text : jsstring) (i : nat) :
  occursAt pat text i = true -> i <= length text ->
  i + length pat <= length text.
Proof.
  unfold occursAt. intros H Hi.
  apply startsWith_length in H. rewrite length_skipn in H. lia.
Qed.

Lemma occursAt_slice (pat text : jsstring) (i : nat) :
  occursAt pat text i = true -> slice text i (i + length pat) = pat.
Proof.
  unfold occursAt, slice. intros H.
  destruct (startsWith_inv _ _ H) as [rest ->].
  replace (i + length pat - i) with (length pat + 0) by lia.
  rewrite firstn_app_2. simpl. now rewrite app_nil_r.
Qed.

Lemma firstOccurrence_Some (pat text : jsstring) (i : nat) :
  firstOccurrence pat text = Some i ->
  i <= length text
  /\ startsWith pat (skipn i text) = true
  /\ forall j, j < i -> startsWith pat (skipn j text) = false.
Proof.
  revert i; induction text as [|c text IH]; intros i H.
  - simpl in H. destruct (startsWith pat []) eqn:E; [|discriminate].
    injection H as <-. simpl. repeat split; [lia|assumption|intros; lia].
  - cbn [firstOccurrence] in H.
    destruct (startsWith pat (c :: text)) eqn:E.
    + injection H as <-. repeat split; [simpl; lia|assumption|intros; lia].
    + destruct (firstOccurrence pat text) as [k|] eqn:Ek; [|discriminate].
      injection H as <-. destruct (IH k eq_refl) as (Hk & Hs & Hm).
      repeat split; [simpl; lia|assumption|].
      intros [|j] Hj; [assumption|]. simpl. apply Hm. lia.
Qed.

Lemma firstOccurrence_None (pat text : jsstring) :
  firstOccurrence pat text = None ->
  forall j, startsWith pat (skipn j text) = false.
Proof.
  induction text as [|c text IH]; intros H j.
  - simpl in H. destruct (startsWith pat []) eqn:E; [discriminate|].
    now rewrite skipn_nil.
  - cbn [firstOccurrence] in H.
    destruct (startsWith pat (c :: text)) eqn:E; [discriminate|].
    destruct (firstOccurrence pat text) eqn:Ek; [discriminate|].
    destruct j as [|j]; [assumption|]. simpl. now apply IH.
Qed.

Lemma indexOf_Some (text pat : jsstring) (position i : nat) :
  indexOf text pat position = Some i ->
  Nat.min position (length text) <= i <= length text
  /\ occursAt pat text i = true
  /\ forall j, Nat.min position (length text) <= j < i ->
               occursAt pat text j = false.
Proof.
  unfold indexOf, occursAt.
  set (start := Nat.min position (length text)).
  destruct (firstOccurrence pat (skipn start text)) as [k|] eqn:E; [|discriminate].
  intros H; injection H as <-.
  destruct (firstOccurrence_Some _ _ _ E) as (Hk & Hs & Hm).
  rewrite length_skipn in Hk. rewrite skipn_skipn in Hs.
  assert (start <= length text) by (subst start; lia).
  repeat split; try lia.
  - now rewrite Nat.add_comm.
  - intros j Hj. specialize (Hm (j - start)).
    rewrite skipn_skipn in Hm.
    replace (j - start + start) with j in Hm by lia. apply Hm. lia.
Qed.

Lemma indexOf_None (text pat : jsstring) (position : nat) :
  indexOf text pat position = None ->
  forall j, Nat.min position (length text) <= j -> occursAt pat text j = false.
Proof.
  unfold indexOf, occursAt.
  set (start := Nat.min position (length text)).
  destruct (firstOccurrence pat (skipn start text)) as [k|] eqn:E; [discriminate|].
  intros _ j Hj. pose proof (firstOccurrence_None _ _ E (j - start)) as Hm.
  rewrite skipn_skipn in Hm.
  now replace (j - start + start) with j in Hm by lia.
Qed.

(** ** The scanning loop *)

Lemma scanMarker_Some (text marker : jsstring) (inside : option (nat -> bool)) :
  forall fuel from i,
    length text - from <= fuel ->
    scanMarker fuel text marker inside from = Some i ->
    earliestValid marker text inside from i.
Proof.
  induction fuel as [|fuel IH]; intros from i Hfuel H; [discriminate|].
  cbn [scanMarker] in H.
  destruct (from <? length text) eqn:Hlt; [|discriminate].
  apply Nat.ltb_lt in Hlt.
  destruct (indexOf text marker from) as [index|] eqn:Eidx; [|discriminate].
  destruct (indexOf_Some _ _ _ _ Eidx) as (Hrange & Hocc & Hmin).
  rewrite Nat.min_l in Hrange, Hmin by lia.
  assert (Hidx : index < length text).
  { destruct (Nat.eq_dec index (length text)) as [->|]; [|lia].
    assert (marker = []) as ->.
    { unfold occursAt in Hocc. rewrite skipn_all in Hocc.
      destruct marker; [reflexivity|discriminate]. }
    specialize (Hmin from). unfold occursAt in Hmin.
    simpl in Hmin. discriminate Hmin. lia. }
  destruct (outsideCode inside index) eqn:Hout.
  - injection H as <-. unfold earliestValid, validAt.
    repeat split; try lia.
    + now rewrite Hocc, Hout.
    + intros j Hj. now rewrite Hmin.
  - apply IH in H; [|lia].
    destruct H as (Hr & Hv & Hm). unfold earliestValid.
    repeat split; try lia; [assumption|].
    intros j Hj. unfold validAt.
    destruct (Nat.lt_ge_cases j index) as [Hlo|Hhi].
    + now rewrite Hmin by lia.
    + destruct (Nat.eq_dec j index) as [->|Hne].
      * rewrite Hout. apply andb_false_r.
      * apply Hm. lia.
Qed.

Lemma scanMarker_None (text marker : jsstring) (inside : option (nat -> bool)) :
  forall fuel from,
    length text - from <= fuel ->
    scanMarker fuel text marker inside from = None ->
    forall j, from <= j < length text -> validAt marker text inside j = false.
Proof.
  induction fuel as [|fuel IH]; intros from Hfuel H j Hj; [lia|].
  cbn [scanMarker] in H.
  destruct (from <? length text) eqn:Hlt;
    [apply Nat.ltb_lt in Hlt | apply Nat.ltb_ge in Hlt; lia].
  unfold validAt.
  destruct (indexOf text marker from) as [index|] eqn:Eidx.
  - destruct (indexOf_Some _ _ _ _ Eidx) as (Hrange & Hocc & Hmin).
    rewrite Nat.min_l in Hrange, Hmin by lia.
    destruct (outsideCode inside index) eqn:Hout; [discriminate|].
    destruct (Nat.lt_ge_cases j index) as [Hlo|Hhi].
    + now rewrite Hmin by lia.
    + destruct (Nat.eq_dec j index) as [->|Hne].
      * rewrite Hout. apply andb_false_r.
      * apply (IH (index + 1)); [lia|assumption|lia].
  - rewrite (indexOf_None _ _ _ Eidx); [reflexivity|lia].
Qed.

Lemma earliestValid_unique (text marker : jsstring) (inside : option (nat -> bool))
    (from i j : nat) :
  earliestValid marker text inside from i ->
  from <= j < length text -> validAt marker text inside j = true -> i <= j.
Proof.
  intros (Hr & Hv & Hm) Hj Hvj.
  destruct (Nat.le_gt_cases i j) as [|Hlt]; [assumption|].
  rewrite Hm in Hvj by lia. discriminate.
Qed.

(** ** The [for] loop of [findNextOpening] *)

Lemma updateBest_cases (text : jsstring) (from : nat) (inside : option (nat -> bool))
    (best : option (nat * DelimiterSpec)) (d : DelimiterSpec) :
  let found := scanMarker (length text) text (open d) inside from in
  match updateBest text from inside best d with
  | None => best = None /\ found = None
  | Some (i, d') =>
      (best = Some (i, d') \/ (d' = d /\ found = Some i))
      /\ (forall bi bd, best = Some (bi, bd) -> i <= bi)
      /\ (forall i', found = Some i' -> i <= i')
  end.
Proof.
  unfold updateBest.
  destruct (scanMarker (length text) text (open d) inside from) as [index|];
    cbn zeta.
  - destruct best as [[bi bd]|].
    + destruct (index <? bi) eqn:E;
        [apply Nat.ltb_lt in E | apply Nat.ltb_ge in E].
      * split; [right; auto|]. split.
        -- intros ? ? [= <- <-]. lia.
        -- intros ? [= <-]. lia.
      * split; [left; auto|]. split.
        -- intros ? ? [= <- <-]. lia.
        -- intros ? [= <-]. lia.
    + split; [right; auto|]. split; [discriminate|]. intros ? [= <-]. lia.
  - destruct best as [[bi bd]|]; [|auto].
    split; [left; auto|]. split; [|discriminate].
    intros ? ? [= <- <-]. lia.
Qed.

Lemma fold_updateBest_Some (text : jsstring) (from : nat)
    (inside : option (nat -> bool)) :
  forall ds best i d,
    fold_left (updateBest text from inside) ds best = Some (i, d) ->
    (best = Some (i, d)
     \/ (In d ds /\ scanMarker (length text) text (open d) inside from = Some i))
    /\ (forall bi bd, best = Some (bi, bd) -> i <= bi)
    /\ (forall d' i', In d' ds ->
          scanMarker (length text) text (open d') inside from = Some i' -> i <= i').
Proof.
  induction ds as [|a ds IH]; intros best i d H; simpl in H.
  - subst best. split; [now left|]. split.
    + intros ? ? [= <- <-]. lia.
    + intros ? ? [].
  - destruct (IH _ _ _ H) as (Hsrc & Hbest & Hrest).
    pose proof (updateBest_cases text from inside best a) as Hc.
    cbn zeta in Hc.
    destruct (updateBest text from inside best a) as [[ui ud]|] eqn:Eu.
    + destruct Hc as (Hu & Hub & Huf).
      specialize (Hbest ui ud eq_refl).
      split; [|split].
      * destruct Hsrc as [[= <- <-]|[Hin Hs]].
        -- destruct Hu as [->|[-> Hf]]; [now left|right; simpl; auto].
        -- right; simpl; auto.
      * intros bi bd Hb. specialize (Hub bi bd Hb). lia.
      * intros d' i' [<-|Hin] Hs; [specialize (Huf i' Hs); lia|eauto].
    + destruct Hc as (-> & Hf).
      split; [|split].
      * destruct Hsrc as [|[Hin Hs]]; [discriminate|right; simpl; auto].
      * discriminate.
      * intros d' i' [<-|Hin] Hs; [congruence|eauto].
Qed.

Lemma fold_updateBest_None (text : jsstring) (from : nat)
    (inside : option (nat -> bool)) :
  forall ds best,
    fold_left (updateBest text from inside) ds best = None ->
    best = None
    /\ forall d, In d ds ->
         scanMarker (length text) text (open d) inside from = None.
Proof.
  induction ds as [|a ds IH]; intros best H; simpl in H.
  - split; [assumption|intros ? []].
  - destruct (IH _ H) as (Hu & Hrest).
    pose proof (updateBest_cases text from inside best a) as Hc.
    cbn zeta in Hc. rewrite Hu in Hc. destruct Hc as (-> & Hf).
    split; [reflexivity|]. intros d [<-|Hin]; auto.
Qed.

Lemma findNextOpening_Some (text : jsstring) (from : nat)
    (ds : list DelimiterSpec) (inside : option (nat -> bool))
    (i : nat) (d : DelimiterSpec) :
  findNextOpening text from ds inside = Some (i, d) ->
  In d ds
  /\ earliestValid (open d) text inside from i
  /\ forall d' j, In d' ds -> from <= j < length text ->
       validAt (open d') text inside j = true -> i <= j.
Proof.
  unfold findNextOpening. intros H.
  destruct (fold_updateBest_Some _ _ _ _ _ _ _ H) as (Hsrc & _ & Hrest).
  destruct Hsrc as [|[Hin Hs]]; [discriminate|].
  split; [assumption|].
  split; [apply (scanMarker_Some _ _ _ (length text)); [lia|assumption]|].
  intros d' j Hin' Hj Hv.
  destruct (scanMarker (length text) text (open d') inside from) as [i'|] eqn:E.
  - specialize (Hrest d' i' Hin' E).
    apply scanMarker_Some in E; [|lia].
    pose proof (earliestValid_unique _ _ _ _ _ _ E Hj Hv). lia.
  - rewrite (scanMarker_None _ _ _ _ _ (Nat.le_sub_l _ _) E j Hj) in Hv.
    discriminate.
Qed.

Lemma findNextOpening_None (text : jsstring) (from : nat)
    (ds : list DelimiterSpec) (inside : option (nat -> bool)) :
  findNextOpening text from ds inside = None <->
  forall d j, In d ds -> from <= j < length text ->
    validAt (open d) text inside j = false.
Proof.
  unfold findNextOpening. split.
  - intros H d j Hin Hj.
    destruct (fold_updateBest_None _ _ _ _ _ H) as (_ & Hall).
    apply (scanMarker_None _ _ _ (length text) from); auto. lia.
  - intros Hall.
    destruct (fold_left (updateBest text from inside) ds None) as [[i d]|] eqn:E;
      [|reflexivity].
    destruct (findNextOpening_Some _ _ _ _ _ _ E) as (Hin & (Hr & Hv & _) & _).
    rewrite (Hall d i Hin Hr) in Hv. discriminate.
Qed.

Lemma findClosingIndex_Some (text : jsstring) (from : nat) (d : DelimiterSpec)
    (inside : option (nat -> bool)) (i : nat) :
  findClosingIndex text from d inside = Some i ->
  earliestValid (close d) text inside from i.
Proof.
  unfold findClosingIndex. apply scanMarker_Some. lia.
Qed.

Lemma findClosingIndex_None (text : jsstring) (from : nat) (d : DelimiterSpec)
    (inside : option (nat -> bool)) :
  findClosingIndex text from d inside = None <->
  forall j, from <= j < length text -> validAt (close d) text inside j = false.
Proof.
  unfold findClosingIndex. split.
  - apply scanMarker_None. lia.
  - intros Hall.
    destruct (scanMarker (length text) text (close d) inside from) as [i|] eqn:E;
      [|reflexivity].
    apply scanMarker_Some in E; [|lia]. destruct E as (Hr & Hv & _).
    rewrite Hall in Hv by assumption. discriminate.
Qed.

(** ** Slices *)

Lemma slice_empty (text : jsstring) (a b : nat) : b <= a -> slice text a b = [].
Proof.
  intros H. unfold slice. now replace (b - a) with 0 by lia.
Qed.

Lemma firstn_slice (text : jsstring) (a b : nat) :
  a <= b -> firstn a text ++ slice text a b = firstn b text.
Proof.
  intros H. unfold slice. rewrite firstn_skipn_comm.
  replace (a + (b - a)) with b by lia.
  rewrite <- (firstn_skipn a (firstn b text)) at 2.
  f_equal. rewrite firstn_firstn. f_equal. lia.
Qed.

Lemma slice_slice (text : jsstring) (a b c : nat) :
  a <= b <= c -> slice text a b ++ slice text b c = slice text a c.
Proof.
  intros H. unfold slice.
  pose proof (firstn_slice (skipn a text) (b - a) (c - a)) as E.
  unfold slice in E. rewrite skipn_skipn in E.
  replace (b - a + a) with b in E by lia.
  replace (c - a - (b - a)) with (c - b) in E by lia.
  apply E. lia.
Qed.

Lemma length_slice (text : jsstring) (a b : nat) :
  a <= b <= length text -> length (slice text a b) = b - a.
Proof.
  intros H. unfold slice. rewrite length_firstn, length_skipn. lia.
Qed.

(** ** Appending text to a token sequence *)

Lemma concatTokens_app (ts us : list DiscordMathToken) :
  concatTokens (ts ++ us) = concatTokens ts ++ concatTokens us.
Proof.
  unfold concatTokens. now rewrite map_app, concat_app.
Qed.

Lemma extendLastTextToken_cons (a b : DiscordMathToken)
    (ts : list DiscordMathToken) (t : jsstring) :
  extendLastTextToken (a :: b :: ts) t = a :: extendLastTextToken (b :: ts) t.
Proof.
  destruct a; reflexivity.
Qed.

Lemma extendLastTextToken_concat (ts : list DiscordMathToken) (t : jsstring) :
  concatTokens (extendLastTextToken ts t) = concatTokens ts ++ t.
Proof.
  induction ts as [|a ts IH].
  - unfold concatTokens. simpl. now rewrite app_nil_r.
  - destruct ts as [|b ts].
    + destruct a; unfold concatTokens; simpl; now rewrite ?app_nil_r.
    + rewrite extendLastTextToken_cons.
      change (concatTokens (a :: extendLastTextToken (b :: ts) t))
        with (tokenText a ++ concatTokens (extendLastTextToken (b :: ts) t)).
      rewrite IH. unfold concatTokens. simpl. now rewrite app_assoc.
Qed.

Lemma appendTextToken_concat (ts : list DiscordMathToken) (t : jsstring) :
  concatTokens (appendTextToken ts t) = concatTokens ts ++ t.
Proof.
  unfold appendTextToken. destruct t as [|c t]; simpl.
  - now rewrite app_nil_r.
  - apply extendLastTextToken_concat.
Qed.

Lemma extendLastTextToken_spans (ts : list DiscordMathToken) (t : jsstring) :
  forall off, formulaSpans off (extendLastTextToken ts t) = formulaSpans off ts.
Proof.
  induction ts as [|a ts IH]; intros off; [reflexivity|].
  destruct ts as [|b ts].
  - destruct a; reflexivity.
  - rewrite extendLastTextToken_cons.
    destruct a; cbn [formulaSpans]; now rewrite IH.
Qed.

Lemma appendTextToken_spans (ts : list DiscordMathToken) (t : jsstring) (off : nat) :
  formulaSpans off (appendTextToken ts t) = formulaSpans off ts.
Proof.
  unfold appendTextToken. destruct (isEmpty t); [reflexivity|].
  apply extendLastTextToken_spans.
Qed.

Lemma formulaSpans_snoc (ts : list DiscordMathToken) (raw e : jsstring) :
  forall off,
    formulaSpans off (ts ++ [FormulaToken raw e])
    = formulaSpans off ts ++ [(off + length (concatTokens ts), raw, e)].
Proof.
  induction ts as [|a ts IH]; intros off.
  - simpl. now rewrite Nat.add_0_r.
  - destruct a as [r x|t]; cbn [app formulaSpans]; rewrite IH;
      unfold concatTokens; cbn [map concat tokenText];
      rewrite length_app, Nat.add_assoc; reflexivity.
Qed.

Lemma formulaSpans_app (ts us : list DiscordMathToken) :
  forall off,
    formulaSpans off (ts ++ us)
    = formulaSpans off ts ++ formulaSpans (off + length (concatTokens ts)) us.
Proof.
  induction ts as [|a ts IH]; intros off.
  - simpl. now rewrite Nat.add_0_r.
  - destruct a as [r x|t]; cbn [app formulaSpans]; rewrite IH;
      unfold concatTokens; cbn [map concat tokenText];
      rewrite length_app, Nat.add_assoc; reflexivity.
Qed.

Lemma gap_append (text : jsstring) (tokens : list DiscordMathToken)
    (cursor index : nat) :
  (if cursor <? index
   then appendTextToken tokens (slice text cursor index)
   else tokens)
  = appendTextToken tokens (slice text cursor index).
Proof.
  destruct (cursor <? index) eqn:E; [reflexivity|].
  apply Nat.ltb_ge in E. now rewrite slice_empty.
Qed.

(** ** The tokenizer loop *)

Lemma haveMarkers_active (config : ResolvedDiscordMathImageConfig) :
  haveMarkers (activeDelimitersOf config).
Proof.
  intros d Hin. unfold activeDelimitersOf in Hin.
  apply filter_In in Hin as [Hin _].
  simpl in Hin. destruct Hin as [<-|[<-|[]]]; simpl; lia.
Qed.

Section TokenizeLoop.

Variable text : jsstring.
Variable ds : list DelimiterSpec.
Variable inside : option (nat -> bool).
Hypothesis progress : haveMarkers ds.

Lemma pairFound_intro (cursor index : nat) (d : DelimiterSpec) (closeIndex : nat) :
  findNextOpening text cursor ds inside = Some (index, d) ->
  findClosingIndex text (index + length (open d)) d inside = Some closeIndex ->
  pairFound text ds inside cursor index d closeIndex.
Proof.
  intros Ho Hc.
  destruct (findNextOpening_Some _ _ _ _ _ _ Ho) as (Hin & (Hr & Hv & _) & _).
  destruct (findClosingIndex_Some _ _ _ _ _ Hc) as (Hr' & Hv' & _).
  unfold pairFound. repeat split; try assumption; try lia.
  unfold validAt in Hv'. apply andb_true_iff in Hv' as [Hocc _].
  apply occursAt_bound in Hocc; lia.
Qed.

(** The rule of the loop: an invariant of the cursor and the tokens that
    every iteration keeps gives, at each of the three exits, what holds of
    the tokens returned. *)
Lemma tokenizeLoop_rule (Inv : nat -> list DiscordMathToken -> Prop)
    (Post : list DiscordMathToken -> Prop) :
  (forall cursor tokens,
      Inv cursor tokens -> length text <= cursor -> Post tokens) ->
  (forall cursor tokens,
      Inv cursor tokens -> cursor < length text ->
      findNextOpening text cursor ds inside = None ->
      Post (appendTextToken tokens (sliceFrom text cursor))) ->
  (forall cursor tokens index d,
      Inv cursor tokens -> cursor < length text ->
      findNextOpening text cursor ds inside = Some (index, d) ->
      findClosingIndex text (index + length (open d)) d inside = None ->
      Post (appendTextToken (appendTextToken tokens (slice text cursor index))
              (sliceFrom text index))) ->
  (forall cursor tokens index d closeIndex,
      Inv cursor tokens -> cursor < length text ->
      pairFound text ds inside cursor index d closeIndex ->
      Inv (closeIndex + length (close d))
          (appendTextToken tokens (slice text cursor index)
           ++ [FormulaToken (slice text index (closeIndex + length (close d)))
                 (slice text (index + length (open d)) closeIndex)])) ->
  forall fuel cursor tokens,
    length text - cursor <= fuel ->
    Inv cursor tokens ->
    Post (tokenizeLoop fuel text ds inside cursor tokens).
Proof.
  intros Hdone Hnone Hunmatched Hformula.
  induction fuel as [|fuel IH]; intros cursor tokens Hfuel Hinv.
  - apply (Hdone cursor); [assumption|lia].
  - cbn [tokenizeLoop].
    destruct (cursor <? length text) eqn:Hlt;
      [apply Nat.ltb_lt in Hlt
      |apply Nat.ltb_ge in Hlt; now apply (Hdone cursor)].
    destruct (findNextOpening text cursor ds inside) as [[index d]|] eqn:Ho;
      [|now apply Hnone].
    cbn zeta. rewrite gap_append.
    destruct (findClosingIndex text (index + length (open d)) d inside)
      as [closeIndex|] eqn:Hc; [|now apply (Hunmatched cursor tokens index d)].
    pose proof (pairFound_intro _ _ _ _ Ho Hc) as Hp.
    apply IH; [|now apply Hformula].
    destruct Hp as (Hin & H1 & H2 & _). specialize (progress d Hin). lia.
Qed.

Lemma coversPrefix_formula (cursor index closeIndex : nat) (d : DelimiterSpec)
    (tokens : list DiscordMathToken) :
  coversPrefix text cursor tokens ->
  pairFound text ds inside cursor index d closeIndex ->
  concatTokens (appendTextToken tokens (slice text cursor index))
    = firstn index text
  /\ coversPrefix text (closeIndex + length (close d))
       (appendTextToken tokens (slice text cursor index)
        ++ [FormulaToken (slice text index (closeIndex + length (close d)))
              (slice text (index + length (open d)) closeIndex)]).
Proof.
  intros (Hc & Hcat) (_ & H1 & H2 & H3 & _).
  assert (Hgap : concatTokens (appendTextToken tokens (slice text cursor index))
                 = firstn index text).
  { rewrite appendTextToken_concat, Hcat. now apply firstn_slice. }
  split; [assumption|]. split; [assumption|].
  rewrite concatTokens_app, Hgap. unfold concatTokens at 1. simpl.
  rewrite app_nil_r. apply firstn_slice. lia.
Qed.

Lemma tokenizeLoop_concat (fuel cursor : nat) (tokens : list DiscordMathToken) :
  length text - cursor <= fuel ->
  coversPrefix text cursor tokens ->
  concatTokens (tokenizeLoop fuel text ds inside cursor tokens) = text.
Proof.
  apply (tokenizeLoop_rule (coversPrefix text) (fun r => concatTokens r = text)).
  - intros c ts (Hc & Hcat) Hle. rewrite Hcat. apply firstn_all2. lia.
  - intros c ts (Hc & Hcat) _ _.
    rewrite appendTextToken_concat, Hcat. apply firstn_skipn.
  - intros c ts index d (Hc & Hcat) _ Ho _.
    destruct (findNextOpening_Some _ _ _ _ _ _ Ho) as (_ & (Hr & _) & _).
    rewrite !appendTextToken_concat, Hcat, firstn_slice by lia.
    apply firstn_skipn.
  - intros c ts index d closeIndex Hinv _ Hp.
    now apply coversPrefix_formula.
Qed.

Lemma tokenizeLoop_spans (fuel cursor : nat) (tokens : list DiscordMathToken) :
  length text - cursor <= fuel ->
  coversPrefix text cursor tokens ->
  Forall (delimitedSpan text ds inside) (formulaSpans 0 tokens) ->
  Forall (delimitedSpan text ds inside)
    (formulaSpans 0 (tokenizeLoop fuel text ds inside cursor tokens)).
Proof.
  intros Hfuel Hcov Hall.
  apply (tokenizeLoop_rule
           (fun c ts => coversPrefix text c ts
                        /\ Forall (delimitedSpan text ds inside) (formulaSpans 0 ts))
           (fun r => Forall (delimitedSpan text ds inside) (formulaSpans 0 r)))
    with (cursor := cursor); auto.
  - now intros c ts (_ & H) _.
  - intros c ts (_ & H) _ _. now rewrite appendTextToken_spans.
  - intros c ts index d (_ & H) _ _ _. now rewrite !appendTextToken_spans.
  - intros c ts index d closeIndex (Hinv & H) _ Hp.
    destruct (coversPrefix_formula _ _ _ _ _ Hinv Hp) as (Hgap & Hinv').
    split; [assumption|].
    rewrite formulaSpans_snoc, appendTextToken_spans, Hgap.
    apply Forall_app. split; [assumption|]. constructor; [|constructor].
    destruct Hp as (Hin & H1 & H2 & H3 & Hvo & Hvc).
    assert (Hlen : length (firstn index text) = index)
      by (rewrite length_firstn; lia).
    simpl. rewrite Hlen. exists d.
    assert (Ho : slice text index (index + length (open d)) = open d).
    { apply occursAt_slice. unfold validAt in Hvo.
      now apply andb_true_iff in Hvo as [? _]. }
    assert (Hcl : slice text closeIndex (closeIndex + length (close d)) = close d).
    { apply occursAt_slice. unfold validAt in Hvc.
      now apply andb_true_iff in Hvc as [? _]. }
    split; [assumption|]. split.
    + rewrite <- Ho at 1. rewrite <- Hcl at 2.
      rewrite !slice_slice by lia. reflexivity.
    + rewrite !length_slice by lia.
      replace (index + (closeIndex + length (close d) - index))
        with (closeIndex + length (close d)) by lia.
      replace (index + length (open d) + (closeIndex - (index + length (open d))))
        with closeIndex by lia.
      auto.
Qed.

(** The fuel of the loop is a bound and no more: any two amounts that cover
    the rest of the text give the same tokens. *)
Lemma tokenizeLoop_fuel (fuel1 fuel2 cursor : nat) (tokens : list DiscordMathToken) :
  length text - cursor <= fuel1 ->
  length text - cursor <= fuel2 ->
  tokenizeLoop fuel1 text ds inside cursor tokens
  = tokenizeLoop fuel2 text ds inside cursor tokens.
Proof.
  revert fuel2 cursor tokens.
  induction fuel1 as [|fuel1 IH]; intros fuel2 cursor tokens H1 H2.
  - destruct fuel2 as [|fuel2]; [reflexivity|]. cbn [tokenizeLoop].
    assert (E : (cursor <? length text) = false) by (apply Nat.ltb_ge; lia).
    now rewrite E.
  - destruct fuel2 as [|fuel2]; cbn [tokenizeLoop].
    + assert (E : (cursor <? length text) = false) by (apply Nat.ltb_ge; lia).
      now rewrite E.
    + destruct (cursor <? length text) eqn:Hlt; [|reflexivity].
      apply Nat.ltb_lt in Hlt.
      destruct (findNextOpening text cursor ds inside) as [[index d]|] eqn:Ho;
        [|reflexivity].
      cbn zeta.
      destruct (findClosingIndex text (index + length (open d)) d inside)
        as [closeIndex|] eqn:Hc; [|reflexivity].
      destruct (pairFound_intro _ _ _ _ Ho Hc) as (Hin & Hle & Hle' & _).
      specialize (progress d Hin). apply IH; lia.
Qed.

End TokenizeLoop.

(** ** One token of the segment builder *)

Lemma processToken_outcome (cfg : ResolvedDiscordMathImageConfig)
    (render : Renderer) (token : DiscordMathToken)
    (segs : list DiscordMathSegment) (n : Z) (w : World RendererState) :
  (exists segs' n' w',
     processToken cfg render token (segs, n) w = (inr (segs', n'), w')
     /\ tokenOutcome cfg render segs n w token segs' n' w')
  \/ (exists thrown w',
        processToken cfg render token (segs, n) w = (inl thrown, w')
        /\ tokenThrows cfg render n w token thrown w').
Proof.
  destruct token as [raw e|t]; cbn [processToken].
  - destruct (maxExpressionsPerReply cfg <=? n)%Z eqn:Ek;
      [apply Z.leb_le in Ek | apply Z.leb_gt in Ek].
    { left. do 3 eexists. split; [reflexivity|]. now constructor. }
    destruct (maxCharsPerExpression cfg <? Z.of_nat (length e))%Z eqn:El;
      [apply Z.ltb_lt in El | apply Z.ltb_ge in El].
    { left. do 3 eexists. split; [reflexivity|]. now constructor. }
    unfold tryCatch, bind, awaitRender, stringOf, logVerbose, ret.
    destruct (render e (maxImageWidthPx cfg) (rendererState w))
      as [[error|imageBuffer] s] eqn:Er.
    + cbn [rendererState].
      destruct (stringOfError error s) as [[thrown|errorString] s1] eqn:Es.
      { right. do 2 eexists. split; [reflexivity|].
        now apply (throws_string cfg render n w raw e error s thrown s1). }
      cbn [rendererState].
      destruct (verboseLogger (renderFailedMessage errorString) s1)
        as [[thrown|[]] s'] eqn:Ev.
      * right. do 2 eexists. split; [reflexivity|].
        now apply (throws_log cfg render n w raw e error s errorString s1
                     thrown s').
      * left. do 3 eexists. split; [reflexivity|].
        now apply (outcome_failed cfg render segs n w raw e error s errorString
                     s1 s').
    + left. do 3 eexists. split; [reflexivity|].
      now apply outcome_rendered.
  - left. do 3 eexists. split; [reflexivity|]. constructor.
Qed.

(** The rule of the [for] loop. An invariant of the tokens dealt with so
    far, the segments, the count and the world that every outcome keeps
    holds at the end of a loop that returns; and a loop that throws does so
    in the [catch] block of a token, in a state in which the invariant
    holds. *)
Lemma processTokens_rule (cfg : ResolvedDiscordMathImageConfig)
    (render : Renderer)
    (Inv : list DiscordMathToken -> list DiscordMathSegment -> Z
           -> World RendererState -> Prop)
    (tokens : list DiscordMathToken) :
  (forall done token segs n w segs' n' w',
      Inv done segs n w ->
      In token tokens ->
      tokenOutcome cfg render segs n w token segs' n' w' ->
      Inv (done ++ [token]) segs' n' w') ->
  forall segs n w,
    Inv [] segs n w ->
    (exists segs' n' w',
       processTokens cfg render tokens (segs, n) w = (inr (segs', n'), w')
       /\ Inv tokens segs' n' w')
    \/ (exists thrown w' done token sg m v,
          processTokens cfg render tokens (segs, n) w = (inl thrown, w')
          /\ In token tokens
          /\ Inv done sg m v
          /\ tokenThrows cfg render m v token thrown w').
Proof.
  intros Hstep.
  assert (G : forall rest done segs n w,
             incl rest tokens ->
             Inv done segs n w ->
             (exists segs' n' w',
                processTokens cfg render rest (segs, n) w = (inr (segs', n'), w')
                /\ Inv (done ++ rest) segs' n' w')
             \/ (exists thrown w' done' token sg m v,
                   processTokens cfg render rest (segs, n) w = (inl thrown, w')
                   /\ In token tokens
                   /\ Inv done' sg m v
                   /\ tokenThrows cfg render m v token thrown w')).
  { induction rest as [|token rest IH]; intros done segs n w Hincl Hinv.
    - left. exists segs, n, w. rewrite app_nil_r. now split.
    - assert (Hin : In token tokens) by (apply Hincl; now left).
      cbn [processTokens]. unfold bind.
      destruct (processToken_outcome cfg render token segs n w)
        as [(segs1 & n1 & w1 & -> & Hout)|(thrown & w1 & -> & Hthrow)].
      + destruct (IH (done ++ [token]) segs1 n1 w1)
          as [(segs' & n' & w' & E & Hinv')|Hthrown].
        * intros x Hx. apply Hincl. now right.
        * now apply (Hstep done token segs n w).
        * left. exists segs', n', w'. rewrite <- app_assoc in Hinv'. now split.
        * right. exact Hthrown.
      + right. exists thrown, w1, done, token, segs, n, w. auto. }
  intros segs n w Hinv. apply (G tokens [] segs n w); [apply incl_refl|assumption].
Qed.

Lemma processTokens_invariant (cfg : ResolvedDiscordMathImageConfig)
    (render : Renderer)
    (Inv : list DiscordMathToken -> list DiscordMathSegment -> Z
           -> World RendererState -> Prop)
    (tokens : list DiscordMathToken)
    (segs segs' : list DiscordMathSegment) (n n' : Z)
    (w w' : World RendererState) :
  (forall done token sg m v sg' m' v',
      Inv done sg m v ->
      In token tokens ->
      tokenOutcome cfg render sg m v token sg' m' v' ->
      Inv (done ++ [token]) sg' m' v') ->
  Inv [] segs n w ->
  processTokens cfg render tokens (segs, n) w = (inr (segs', n'), w') ->
  Inv tokens segs' n' w'.
Proof.
  intros Hstep Hinit Hrun.
  destruct (processTokens_rule cfg render Inv tokens Hstep segs n w Hinit)
    as [(sg & m & v & E & Hinv)|(thrown & v & _ & _ & _ & _ & _ & E & _)];
    rewrite Hrun in E; [now injection E as <- <- <-|discriminate E].
Qed.

(** A loop that throws: the state of the throw satisfies the invariant. *)
Lemma processTokens_thrown (cfg : ResolvedDiscordMathImageConfig)
    (render : Renderer)
    (Inv : list DiscordMathToken -> list DiscordMathSegment -> Z
           -> World RendererState -> Prop)
    (tokens : list DiscordMathToken)
    (segs : list DiscordMathSegment) (n : Z)
    (w w' : World RendererState) (thrown : Thrown) :
  (forall done token sg m v sg' m' v',
      Inv done sg m v ->
      In token tokens ->
      tokenOutcome cfg render sg m v token sg' m' v' ->
      Inv (done ++ [token]) sg' m' v') ->
  Inv [] segs n w ->
  processTokens cfg render tokens (segs, n) w = (inl thrown, w') ->
  exists done token sg m v,
    In token tokens
    /\ Inv done sg m v
    /\ tokenThrows cfg render m v token thrown w'.
Proof.
  intros Hstep Hinit Hrun.
  destruct (processTokens_rule cfg render Inv tokens Hstep segs n w Hinit)
    as [(sg & m & v & E & _)
       |(t & v' & done & token & sg & m & v & E & Hin & Hinv & Hthrow)];
    rewrite Hrun in E; [discriminate E|].
  injection E as <- <-. now exists done, token, sg, m, v.
Qed.

(** A loop in which no [catch] block throws returns. *)
Lemma processTokens_returns (cfg : ResolvedDiscordMathImageConfig)
    (render : Renderer)
    (Inv : list DiscordMathToken -> list DiscordMathSegment -> Z
           -> World RendererState -> Prop)
    (tokens : list DiscordMathToken) :
  (forall done token segs n w segs' n' w',
      Inv done segs n w ->
      In token tokens ->
      tokenOutcome cfg render segs n w token segs' n' w' ->
      Inv (done ++ [token]) segs' n' w') ->
  (forall done token segs n w thrown w',
      Inv done segs n w ->
      In token tokens ->
      ~ tokenThrows cfg render n w token thrown w') ->
  forall segs n w,
    Inv [] segs n w ->
    exists segs' n' w',
      processTokens cfg render tokens (segs, n) w = (inr (segs', n'), w')
      /\ Inv tokens segs' n' w'.
Proof.
  intros Hstep Hsafe segs n w Hinit.
  destruct (processTokens_rule cfg render Inv tokens Hstep segs n w Hinit)
    as [H|(thrown & w' & done & token & sg & m & v & _ & Hin & Hinv & Hthrow)];
    [exact H|].
  now destruct (Hsafe done token sg m v thrown w' Hinv Hin).
Qed.

Lemma handlerReturns_safe (cfg : ResolvedDiscordMathImageConfig)
    (render : Renderer) (n : Z) (w w' : World RendererState)
    (token : DiscordMathToken) (thrown : Thrown) :
  handlerReturns -> ~ tokenThrows cfg render n w token thrown w'.
Proof.
  intros (Hstring & Hlog) Hthrow.
  destruct Hthrow as [raw e error s t s1 _ _ _ Es
                     |raw e error s str s1 t s' _ _ _ _ Ev].
  - destruct (Hstring error s) as (str & s2 & E). congruence.
  - destruct (Hlog (renderFailedMessage str) s1) as (s2 & E). congruence.
Qed.

(** ** Appending to a segment sequence *)

Lemma extendLastTextSegment_cons (a b : DiscordMathSegment)
    (segs : list DiscordMathSegment) (t : jsstring) :
  extendLastTextSegment (a :: b :: segs) t
  = a :: extendLastTextSegment (b :: segs) t.
Proof.
  destruct a; reflexivity.
Qed.

Lemma extendLastTextSegment_head (b : DiscordMathSegment)
    (segs : list DiscordMathSegment) (t : jsstring) :
  exists b' segs',
    extendLastTextSegment (b :: segs) t = b' :: segs'
    /\ isMathImage b' = isMathImage b.
Proof.
  destruct segs as [|c segs].
  - destruct b; simpl; eauto.
  - rewrite extendLastTextSegment_cons. eauto.
Qed.

Lemma concatSegments_app (segs segs' : list DiscordMathSegment) :
  concatSegments (segs ++ segs') = concatSegments segs ++ concatSegments segs'.
Proof.
  unfold concatSegments. now rewrite map_app, concat_app.
Qed.

Lemma extendLastTextSegment_concat (segs : list DiscordMathSegment) (t : jsstring) :
  concatSegments (extendLastTextSegment segs t) = concatSegments segs ++ t.
Proof.
  induction segs as [|a segs IH].
  - unfold concatSegments. simpl. now rewrite app_nil_r.
  - destruct segs as [|b segs].
    + destruct a; unfold concatSegments; simpl; now rewrite ?app_nil_r.
    + rewrite extendLastTextSegment_cons.
      change (concatSegments (a :: extendLastTextSegment (b :: segs) t))
        with (segmentText a ++ concatSegments (extendLastTextSegment (b :: segs) t)).
      rewrite IH. unfold concatSegments. simpl. now rewrite app_assoc.
Qed.

Lemma appendMathTextSegment_concat (segs : list DiscordMathSegment) (t : jsstring) :
  concatSegments (appendMathTextSegment segs t) = concatSegments segs ++ t.
Proof.
  unfold appendMathTextSegment. destruct t as [|c t]; simpl.
  - now rewrite app_nil_r.
  - apply extendLastTextSegment_concat.
Qed.

Lemma mathImages_app (segs segs' : list DiscordMathSegment) :
  mathImages (segs ++ segs') = mathImages segs ++ mathImages segs'.
Proof.
  unfold mathImages. apply flat_map_app.
Qed.

Lemma extendLastTextSegment_images (segs : list DiscordMathSegment) (t : jsstring) :
  mathImages (extendLastTextSegment segs t) = mathImages segs.
Proof.
  induction segs as [|a segs IH]; [reflexivity|].
  destruct segs as [|b segs].
  - destruct a; reflexivity.
  - rewrite extendLastTextSegment_cons.
    change (a :: extendLastTextSegment (b :: segs) t)
      with ([a] ++ extendLastTextSegment (b :: segs) t).
    change (a :: b :: segs) with ([a] ++ b :: segs).
    now rewrite !mathImages_app, IH.
Qed.

Lemma appendMathTextSegment_images (segs : list DiscordMathSegment) (t : jsstring) :
  mathImages (appendMathTextSegment segs t) = mathImages segs.
Proof.
  unfold appendMathTextSegment. destruct (isEmpty t); [reflexivity|].
  apply extendLastTextSegment_images.
Qed.

Lemma extendLastTextSegment_In (segs : list DiscordMathSegment) (t : jsstring)
    (seg : DiscordMathSegment) :
  In seg (extendLastTextSegment segs t) ->
  In seg segs \/ exists previous, seg = TextSegment (previous ++ t).
Proof.
  induction segs as [|a segs IH]; intros H.
  - destruct H as [<-|[]]. right. now exists [].
  - destruct segs as [|b segs].
    + destruct a as [p|f e b n]; simpl in H.
      * destruct H as [<-|[]]. right. now exists p.
      * destruct H as [<-|[<-|[]]]; [left; now left|right; now exists []].
    + rewrite extendLastTextSegment_cons in H. destruct H as [<-|H].
      * left; now left.
      * destruct (IH H) as [Hin|Hex]; [left; now right|now right].
Qed.

Lemma extendLastTextSegment_keeps (segs : list DiscordMathSegment) (t c : jsstring) :
  In (TextSegment c) segs ->
  exists c', In (TextSegment c') (extendLastTextSegment segs t)
             /\ (c' = c \/ c' = c ++ t).
Proof.
  induction segs as [|a segs IH]; intros H; [destruct H|].
  destruct segs as [|b segs].
  - destruct H as [->|[]]. simpl. exists (c ++ t). split; [now left|now right].
  - rewrite extendLastTextSegment_cons. destruct H as [->|H].
    + exists c. split; [now left|now left].
    + destruct (IH H) as (c' & Hin & Hc). exists c'. split; [now right|assumption].
Qed.

Lemma extendLastTextSegment_last (segs : list DiscordMathSegment) (t : jsstring) :
  exists previous,
    In (TextSegment (previous ++ t)) (extendLastTextSegment segs t).
Proof.
  induction segs as [|a segs IH].
  - exists []. now left.
  - destruct segs as [|b segs].
    + destruct a as [p|f e b n]; simpl.
      * exists p. now left.
      * exists []. right. now left.
    + rewrite extendLastTextSegment_cons. destruct IH as (p & Hin).
      exists p. now right.
Qed.

Lemma occursIn_extend (raw c t : jsstring) : occursIn raw c -> occursIn raw (c ++ t).
Proof.
  intros (before & after & ->). exists before, (after ++ t).
  now rewrite <- !app_assoc.
Qed.

Lemma inTextSegment_append (segs : list DiscordMathSegment) (raw t : jsstring) :
  inTextSegment segs raw -> inTextSegment (appendMathTextSegment segs t) raw.
Proof.
  intros (c & Hin & Hocc). unfold appendMathTextSegment.
  destruct (isEmpty t); [now exists c|].
  destruct (extendLastTextSegment_keeps segs t c Hin) as (c' & Hin' & [->| ->]).
  - now exists c.
  - exists (c ++ t). split; [assumption|now apply occursIn_extend].
Qed.

Lemma inTextSegment_push (segs : list DiscordMathSegment) (raw : jsstring)
    (seg : DiscordMathSegment) :
  inTextSegment segs raw -> inTextSegment (segs ++ [seg]) raw.
Proof.
  intros (c & Hin & Hocc). exists c. split; [|assumption].
  apply in_or_app. now left.
Qed.

Lemma inTextSegment_new (segs : list DiscordMathSegment) (raw : jsstring) :
  raw <> [] -> inTextSegment (appendMathTextSegment segs raw) raw.
Proof.
  intros Hne. unfold appendMathTextSegment.
  destruct raw as [|c raw]; [contradiction|]. cbn [isEmpty].
  destruct (extendLastTextSegment_last segs (c :: raw)) as (p & Hin).
  exists (p ++ c :: raw). split; [assumption|].
  exists p, []. now rewrite app_nil_r.
Qed.

Lemma extendLastTextSegment_adjacent (segs : list DiscordMathSegment) (t : jsstring) :
  adjacentText (extendLastTextSegment segs t) = adjacentText segs.
Proof.
  induction segs as [|a segs IH]; [reflexivity|].
  destruct segs as [|b segs].
  - destruct a; reflexivity.
  - rewrite extendLastTextSegment_cons.
    destruct (extendLastTextSegment_head b segs t) as (b' & segs' & E & Hk).
    rewrite E in *.
    destruct a as [p|f e x n]; [|exact IH].
    destruct b, b'; try discriminate Hk; try reflexivity. exact IH.
Qed.

Lemma push_image_adjacent (segs : list DiscordMathSegment)
    (f e : jsstring) (b : Buffer) (n : jsstring) :
  adjacentText (segs ++ [MathImageSegment f e b n]) = adjacentText segs.
Proof.
  induction segs as [|a segs IH]; [reflexivity|].
  destruct a as [p|f' e' b' n']; [|exact IH].
  destruct segs as [|c segs]; [reflexivity|].
  destruct c; [reflexivity|exact IH].
Qed.

(** ** The tokenizer *)

Lemma tokenizeMathText_cases (text : jsstring)
    (cfg : ResolvedDiscordMathImageConfig) :
  tokenizeMathText text cfg = [TextToken text]
  \/ tokenizeMathText text cfg
     = tokenizeLoop (length text) text (activeDelimitersOf cfg)
         (codePredicateOf text cfg) 0 [].
Proof.
  unfold tokenizeMathText.
  destruct (length (activeDelimitersOf cfg) =? 0); [now left|].
  cbn zeta.
  destruct (length (tokenizeLoop _ _ _ _ _ _) =? 0); [now left|now right].
Qed.

Lemma coversPrefix_start (text : jsstring) : coversPrefix text 0 [].
Proof.
  split; [lia|reflexivity].
Qed.

Lemma tokenizeMathText_concat (text : jsstring)
    (cfg : ResolvedDiscordMathImageConfig) :
  concatTokens (tokenizeMathText text cfg) = text.
Proof.
  destruct (tokenizeMathText_cases text cfg) as [-> | ->].
  - unfold concatTokens. simpl. apply app_nil_r.
  - apply tokenizeLoop_concat;
      [apply haveMarkers_active|lia|apply coversPrefix_start].
Qed.

Lemma tokenizeMathText_spans (text : jsstring)
    (cfg : ResolvedDiscordMathImageConfig) :
  Forall (delimitedSpan text (activeDelimitersOf cfg) (codePredicateOf text cfg))
    (formulaSpans 0 (tokenizeMathText text cfg)).
Proof.
  destruct (tokenizeMathText_cases text cfg) as [-> | ->].
  - constructor.
  - apply tokenizeLoop_spans;
      [apply haveMarkers_active|lia|apply coversPrefix_start|constructor].
Qed.

Lemma formulaSpans_In (raw e : jsstring) (tokens : list DiscordMathToken) :
  In (FormulaToken raw e) tokens ->
  forall off, exists o, In (o, raw, e) (formulaSpans off tokens).
Proof.
  induction tokens as [|a tokens IH]; intros H off; [destruct H|].
  destruct H as [->|H].
  - exists off. now left.
  - destruct a as [r x|t]; cbn [formulaSpans].
    + destruct (IH H (off + length r)) as (o & Ho). exists o. now right.
    + apply IH, H.
Qed.

Lemma tokenizeMathText_raw (text : jsstring)
    (cfg : ResolvedDiscordMathImageConfig) (raw e : jsstring) :
  In (FormulaToken raw e) (tokenizeMathText text cfg) -> raw <> [].
Proof.
  intros Hin. destruct (formulaSpans_In _ _ _ Hin 0) as (o & Ho).
  pose proof (tokenizeMathText_spans text cfg) as Hall.
  rewrite Forall_forall in Hall. specialize (Hall _ Ho).
  destruct Hall as (d & Hd & -> & _).
  pose proof (haveMarkers_active cfg d Hd) as Hm.
  intros E. apply (f_equal (@length ascii)) in E.
  rewrite !length_app in E. simpl in E. lia.
Qed.

(** ** The segment builder *)

Lemma appendMathTextSegment_nonempty (segs : list DiscordMathSegment) (t : jsstring) :
  segs <> [] \/ t <> [] -> appendMathTextSegment segs t <> [].
Proof.
  unfold appendMathTextSegment. intros H.
  destruct t as [|c t]; cbn [isEmpty].
  - destruct H as [H|H]; [assumption|contradiction].
  - destruct segs as [|a segs]; [discriminate|].
    destruct (extendLastTextSegment_head a segs (c :: t)) as (b' & segs' & -> & _).
    discriminate.
Qed.

Lemma processTokens_nonempty (cfg : ResolvedDiscordMathImageConfig)
    (render : Renderer) (tokens : list DiscordMathToken)
    (segs : list DiscordMathSegment) (n n' : Z) (w w' : World RendererState)
    (segs' : list DiscordMathSegment) :
  (forall raw e, In (FormulaToken raw e) tokens -> raw <> []) ->
  existsb isFormulaToken tokens = true ->
  processTokens cfg render tokens (segs, n) w = (inr (segs', n'), w') ->
  segs' <> [].
Proof.
  intros Hraw Hex Hrun.
  apply (processTokens_invariant cfg render
           (fun done sg _ _ => existsb isFormulaToken done = true -> sg <> [])
           tokens segs segs' n n' w w'); [| |assumption|assumption].
  - intros done token sg m v sg' m' v' Hinv Hin Hout Hdone.
    rewrite existsb_app in Hdone.
    destruct Hout; cbn in Hdone.
    + rewrite !orb_false_r in Hdone.
      apply appendMathTextSegment_nonempty. left. auto.
    + apply appendMathTextSegment_nonempty. right. eauto.
    + apply appendMathTextSegment_nonempty. right. eauto.
    + intros E. now apply app_eq_nil in E as [_ ?].
    + apply appendMathTextSegment_nonempty. right. eauto.
  - discriminate.
Qed.

(** The ways in which [buildDiscordMathSegments] ends: it returns the whole
    text as one segment, or the segments of the loop; or it is rejected with
    what the loop threw. *)
Lemma build_cases (text : jsstring) (ci : option DiscordMathImageConfig)
    (deps : BuildDiscordMathSegmentsDeps) (w : World RendererState) :
  let cfg := resolveDiscordMathImageConfig ci in
  let tokens := tokenizeMathText text cfg in
  let render := orElse (renderFormulaPng deps) renderFormulaPngDefault in
  (exists r w',
     buildDiscordMathSegments text ci deps w = (inr r, w')
     /\ config r = cfg
     /\ ((segments r = [TextSegment text] /\ hasMathImages r = false /\ w' = w
          /\ (enabled cfg = false \/ text = []
              \/ existsb isFormulaToken tokens = false))
         \/ (enabled cfg = true /\ text <> []
             /\ existsb isFormulaToken tokens = true
             /\ segments r <> []
             /\ hasMathImages r = existsb isMathImage (segments r)
             /\ exists n,
                  processTokens cfg render tokens ([], 0%Z) w
                  = (inr (segments r, n), w'))))
  \/ (rejectedInCatch text ci deps w
      /\ exists thrown w',
           buildDiscordMathSegments text ci deps w = (inl thrown, w')
           /\ processTokens cfg render tokens ([], 0%Z) w = (inl thrown, w')).
Proof.
  intros cfg tokens render.
  pose proof (eq_refl (buildDiscordMathSegments text ci deps w)) as Eb.
  unfold buildDiscordMathSegments in Eb at 2.
  fold cfg in Eb. fold tokens in Eb. fold render in Eb.
  destruct (enabled cfg) eqn:Een; cbn [negb orb] in Eb.
  2:{ left. do 2 eexists. split; [exact Eb|]. split; [reflexivity|]. left. auto. }
  destruct (isEmpty text) eqn:Etext.
  { left. do 2 eexists. split; [exact Eb|]. split; [reflexivity|]. left.
    destruct text; [auto 6|discriminate]. }
  assert (Htext : text <> []) by (intros ->; discriminate).
  destruct (existsb isFormulaToken tokens) eqn:Eex; cbn [negb] in Eb.
  2:{ left. do 2 eexists. split; [exact Eb|]. split; [reflexivity|]. left.
      auto 6. }
  unfold bind in Eb.
  destruct (processTokens cfg render tokens ([], 0%Z) w)
    as [[thrown|[segs n]] w'] eqn:E.
  - right.
    destruct (processTokens_thrown cfg render (fun _ _ _ _ => True) tokens
                [] 0%Z w w' thrown)
      as (done & token & sg & m & v & Hin & _ & Hthrow); auto.
    split; [|now exists thrown, w'].
    exists thrown, w', token, m, v. now split.
  - left.
    assert (Hne : segs <> []).
    { apply (processTokens_nonempty _ _ _ _ _ _ _ _ _
               (tokenizeMathText_raw text cfg) Eex E). }
    destruct segs as [|s0 segs]; [contradiction|]. cbn [length Nat.eqb] in Eb.
    do 2 eexists. split; [exact Eb|]. split; [reflexivity|]. right.
    cbn [segments hasMathImages]. repeat split; auto; try congruence.
    now exists n.
Qed.

(** When the [catch] block returns, the build is not rejected. *)
Lemma handlerReturns_build (text : jsstring) (ci : option DiscordMathImageConfig)
    (deps : BuildDiscordMathSegmentsDeps) (w : World RendererState) :
  handlerReturns -> ~ rejectedInCatch text ci deps w.
Proof.
  intros Hret (thrown & w' & token & n & v & _ & _ & Hthrow).
  now apply (handlerReturns_safe _ _ _ _ _ _ _ Hret) in Hthrow.
Qed.

(** * The claims *)

(** ** Scanner *)

(** C5. [findNextOpening] returns the leftmost valid opening: when it returns
    an offset and a delimiter, the delimiter is active, the offset is the
    first occurrence of its open marker at or after [fromIndex] that is not
    inside code, and no active delimiter has a valid occurrence before it;
    when it returns none, no active delimiter has a valid occurrence between
    [fromIndex] and the end of the text. So it returns none exactly when
    there is no valid occurrence. *)
Theorem findNextOpening_leftmost (text : jsstring) (fromIndex : nat)
    (delimiters : list DelimiterSpec) (isInsideCode : option (nat -> bool)) :
  match findNextOpening text fromIndex delimiters isInsideCode with
  | Some (index, delimiter) =>
      In delimiter delimiters
      /\ earliestValid (open delimiter) text isInsideCode fromIndex index
      /\ forall d j, In d delimiters -> fromIndex <= j < length text ->
           validAt (open d) text isInsideCode j = true -> index <= j
  | None =>
      forall d j, In d delimiters -> fromIndex <= j < length text ->
        validAt (open d) text isInsideCode j = false
  end.
Proof.
  destruct (findNextOpening text fromIndex delimiters isInsideCode)
    as [[index delimiter]|] eqn:E.
  - now apply findNextOpening_Some.
  - now apply findNextOpening_None.
Qed.

(** C9, amended. The scanner does not look at the character before a marker:
    an occurrence of an open marker that is outside code and has no valid
    occurrence of an active delimiter before it is returned by
    [findNextOpening] also when a backslash stands immediately before it. *)
Theorem findNextOpening_ignores_escape (text : jsstring) (fromIndex i : nat)
    (delimiters : list DelimiterSpec) (isInsideCode : option (nat -> bool))
    (d : DelimiterSpec) :
  In d delimiters ->
  fromIndex <= i < length text ->
  validAt (open d) text isInsideCode i = true ->
  escapedAt text i = true ->
  (forall d' j, In d' delimiters -> fromIndex <= j < i ->
     validAt (open d') text isInsideCode j = false) ->
  exists d',
    findNextOpening text fromIndex delimiters isInsideCode = Some (i, d')
    /\ In d' delimiters
    /\ validAt (open d') text isInsideCode i = true.
Proof.
  intros Hin Hi Hv _ Hbefore.
  destruct (findNextOpening text fromIndex delimiters isInsideCode)
    as [[index d']|] eqn:E.
  - destruct (findNextOpening_Some _ _ _ _ _ _ E) as (Hin' & (Hr & Hv' & _) & Hmin).
    pose proof (Hmin d i Hin Hi Hv) as Hle.
    assert (index = i) as ->.
    { destruct (Nat.eq_dec index i) as [|Hne]; [assumption|].
      rewrite (Hbefore d' index Hin') in Hv' by lia. discriminate. }
    now exists d'.
  - rewrite findNextOpening_None in E. rewrite (E d i Hin Hi) in Hv. discriminate.
Qed.

(** ** Configuration *)

Lemma normalizePositiveInt_floorOrDefault (v : jsvalue) (default : Z) :
  normalizePositiveInt v default = floorOrDefault v default.
Proof.
  destruct v as [|[| | |q]|s]; try reflexivity.
  unfold normalizePositiveInt, floorOrDefault. cbn zeta.
  destruct (Qle_bool 1 q) eqn:E.
  - apply Qle_bool_iff in E. apply Qfloor_resp_le in E.
    change (Qfloor 1) with 1%Z in E.
    destruct (0 <? Qfloor q)%Z eqn:F; [reflexivity|].
    apply Z.ltb_ge in F. lia.
  - destruct (0 <? Qfloor q)%Z eqn:F; [|reflexivity].
    apply Z.ltb_lt in F. exfalso.
    assert (H : (1 <= q)%Q).
    { apply Qle_trans with (inject_Z (Qfloor q)); [|apply Qfloor_le].
      change 1%Q with (inject_Z 1). rewrite <- Zle_Qle. lia. }
    apply Qle_bool_iff in H. congruence.
Qed.

Lemma normalizePositiveInt_positive (v : jsvalue) (default : Z) :
  (0 < default)%Z -> (0 < normalizePositiveInt v default)%Z.
Proof.
  intros Hd. destruct v as [|[| | |q]|s]; try exact Hd.
  unfold normalizePositiveInt. cbn zeta.
  destruct (0 <? Qfloor q)%Z eqn:F; [now apply Z.ltb_lt in F|exact Hd].
Qed.

(** C8, amended. The three numeric fields of the resolved configuration are
    positive integers. A field that is missing, is not a number, is not
    finite or is below 1 resolves to its default (8, 1200 and 2048); a
    finite value of at least 1 resolves to its floor, so a value that is not
    an integer is rounded down rather than replaced by the default. *)
Theorem resolved_limits (ci : option DiscordMathImageConfig) :
  let r := resolveDiscordMathImageConfig ci in
  ((0 < maxExpressionsPerReply r)%Z
   /\ (0 < maxCharsPerExpression r)%Z
   /\ (0 < maxImageWidthPx r)%Z)
  /\ maxExpressionsPerReply r
     = floorOrDefault (inputField ci in_maxExpressionsPerReply) 8
  /\ maxCharsPerExpression r
     = floorOrDefault (inputField ci in_maxCharsPerExpression) 1200
  /\ maxImageWidthPx r
     = floorOrDefault (inputField ci in_maxImageWidthPx) 2048.
Proof.
  cbn zeta. unfold resolveDiscordMathImageConfig.
  cbn [maxExpressionsPerReply maxCharsPerExpression maxImageWidthPx].
  repeat split;
    try (apply normalizePositiveInt_positive; reflexivity);
    apply normalizePositiveInt_floorOrDefault.
Qed.

(** ** Tokenizer *)

Lemma extendLastTextToken_twice (ts : list DiscordMathToken) (a b : jsstring) :
  extendLastTextToken (extendLastTextToken ts a) b
  = extendLastTextToken ts (a ++ b).
Proof.
  induction ts as [|x ts IH]; [reflexivity|].
  destruct ts as [|y ts].
  - destruct x; simpl; [reflexivity|now rewrite app_assoc].
  - rewrite !extendLastTextToken_cons.
    destruct (extendLastTextToken (y :: ts) a) as [|y' ts'] eqn:E.
    + destruct ts as [|z ts].
      * destruct y; discriminate E.
      * rewrite extendLastTextToken_cons in E. discriminate E.
    + rewrite extendLastTextToken_cons. now rewrite IH.
Qed.

Lemma appendTextToken_twice (ts : list DiscordMathToken) (a b : jsstring) :
  appendTextToken (appendTextToken ts a) b = appendTextToken ts (a ++ b).
Proof.
  unfold appendTextToken.
  destruct a as [|c a]; [reflexivity|].
  destruct b as [|c' b]; cbn [isEmpty app].
  - now rewrite app_nil_r.
  - apply (extendLastTextToken_twice ts (c :: a) (c' :: b)).
Qed.

Lemma slice_sliceFrom (text : jsstring) (a b : nat) :
  a <= b -> slice text a b ++ sliceFrom text b = sliceFrom text a.
Proof.
  intros H. unfold slice, sliceFrom.
  replace (skipn b text) with (skipn (b - a) (skipn a text)).
  - apply firstn_skipn.
  - rewrite skipn_skipn. f_equal. lia.
Qed.

(** C7. An iteration of the tokenizer loop that finds a valid opening marker
    at [index] for which no valid closing marker exists at or after the start
    of the expression ends the loop: the tokens returned are the tokens so
    far with the text from the opening marker to the end appended as text,
    after the gap before the marker. That is the whole rest of the text from
    the cursor, merged into one text with a trailing text token; nothing of
    it is scanned again, and no formula token comes from it. *)
Theorem unmatched_opening_ends_tokenization (text : jsstring)
    (activeDelimiters : list DelimiterSpec) (isInsideCode : option (nat -> bool))
    (fuel cursor index : nat) (delimiter : DelimiterSpec)
    (tokens : list DiscordMathToken) :
  cursor < length text ->
  findNextOpening text cursor activeDelimiters isInsideCode
    = Some (index, delimiter) ->
  (forall j, index + length (open delimiter) <= j < length text ->
     validAt (close delimiter) text isInsideCode j = false) ->
  tokenizeLoop (S fuel) text activeDelimiters isInsideCode cursor tokens
  = appendTextToken (appendTextToken tokens (slice text cursor index))
      (sliceFrom text index)
  /\ tokenizeLoop (S fuel) text activeDelimiters isInsideCode cursor tokens
     = appendTextToken tokens (sliceFrom text cursor)
  /\ formulaSpans 0
       (tokenizeLoop (S fuel) text activeDelimiters isInsideCode cursor tokens)
     = formulaSpans 0 tokens.
Proof.
  intros Hc Ho Hnone.
  apply findClosingIndex_None in Hnone.
  assert (E : tokenizeLoop (S fuel) text activeDelimiters isInsideCode cursor tokens
              = appendTextToken (appendTextToken tokens (slice text cursor index))
                  (sliceFrom text index)).
  { cbn [tokenizeLoop]. apply Nat.ltb_lt in Hc. rewrite Hc, Ho. cbn zeta.
    now rewrite Hnone, gap_append. }
  destruct (findNextOpening_Some _ _ _ _ _ _ Ho) as (_ & (Hr & _) & _).
  rewrite E. split; [reflexivity|]. split.
  - rewrite appendTextToken_twice, slice_sliceFrom by lia. reflexivity.
  - now rewrite !appendTextToken_spans.
Qed.

(** ** Segment builder *)

Lemma appendMathTextSegment_In_image (segs : list DiscordMathSegment)
    (t f e : jsstring) (b : Buffer) (n : jsstring) :
  In (MathImageSegment f e b n) (appendMathTextSegment segs t) ->
  In (MathImageSegment f e b n) segs.
Proof.
  unfold appendMathTextSegment. destruct (isEmpty t); [auto|].
  intros H. apply extendLastTextSegment_In in H as [H|(p & H)];
    [assumption|discriminate].
Qed.

Lemma concatTokens_snoc (done : list DiscordMathToken) (token : DiscordMathToken) :
  concatTokens (done ++ [token]) = concatTokens done ++ tokenText token.
Proof.
  rewrite concatTokens_app. unfold concatTokens at 2. simpl.
  now rewrite app_nil_r.
Qed.

Lemma concatSegments_snoc (segs : list DiscordMathSegment) (seg : DiscordMathSegment) :
  concatSegments (segs ++ [seg]) = concatSegments segs ++ segmentText seg.
Proof.
  rewrite concatSegments_app. unfold concatSegments at 2. simpl.
  now rewrite app_nil_r.
Qed.

Lemma formulaToken_occursIn (tokens : list DiscordMathToken) (raw e : jsstring) :
  In (FormulaToken raw e) tokens -> occursIn raw (concatTokens tokens).
Proof.
  intros H. apply in_split in H as (pre & post & ->).
  exists (concatTokens pre), (concatTokens post).
  now rewrite concatTokens_app.
Qed.

(** The segments lay out the tokens dealt with, and every math image comes
    from a formula token. *)
Lemma processTokens_faithful (cfg : ResolvedDiscordMathImageConfig)
    (render : Renderer) (tokens : list DiscordMathToken)
    (segs : list DiscordMathSegment) (n : Z) (w w' : World RendererState) :
  processTokens cfg render tokens ([], 0%Z) w = (inr (segs, n), w') ->
  concatSegments segs = concatTokens tokens
  /\ forall f e b name,
       In (MathImageSegment f e b name) segs -> In (FormulaToken f e) tokens.
Proof.
  apply (processTokens_invariant cfg render
           (fun done sg _ _ =>
              concatSegments sg = concatTokens done
              /\ forall f e b name,
                   In (MathImageSegment f e b name) sg ->
                   In (FormulaToken f e) done)).
  - intros done token sg m v sg' m' v' (Hcat & Himg) _ Hout.
    rewrite concatTokens_snoc.
    destruct Hout; cbn [tokenText].
    1-3,5: (split; [now rewrite appendMathTextSegment_concat, Hcat|];
            intros f e b name Hin; apply appendMathTextSegment_In_image in Hin;
            apply in_or_app; left; eauto).
    split; [now rewrite concatSegments_snoc, Hcat|].
    intros f e b name Hin. apply in_app_or in Hin as [Hin|[[= <- <- <- <-]|[]]];
      apply in_or_app; [left; eauto|right; now left].
  - split; [reflexivity|intros ? ? ? ? []].
Qed.

(** C1. The tokens of a text concatenate back to it; and the build operation,
    whatever the configuration and whatever each render call does, returns a
    result whose segments concatenate ([content] of a text segment,
    [formulaText] of a math image) to the input, every math image carrying
    the [rawText] and [expression] of a formula token of the input; unless
    it is rejected with what the [catch] block threw. *)
Theorem reconstruction_is_faithful (text : jsstring)
    (configInput : option DiscordMathImageConfig)
    (deps : BuildDiscordMathSegmentsDeps) (w : World RendererState) :
  (forall cfg, concatTokens (tokenizeMathText text cfg) = text)
  /\ ((exists r w',
         buildDiscordMathSegments text configInput deps w = (inr r, w')
         /\ concatSegments (segments r) = text
         /\ forall f e b name,
              In (MathImageSegment f e b name) (segments r) ->
              In (FormulaToken f e)
                (tokenizeMathText text
                   (resolveDiscordMathImageConfig configInput)))
      \/ rejectedInCatch text configInput deps w).
Proof.
  split; [intros cfg; apply tokenizeMathText_concat|].
  destruct (build_cases text configInput deps w)
    as [(r & w' & E & _ & [(Hs & _)|(_ & _ & _ & _ & _ & n & Hrun)])
       |(Hrej & _)]; [left|left|right; exact Hrej].
  - exists r, w'. split; [assumption|]. rewrite Hs. split.
    + unfold concatSegments. simpl. apply app_nil_r.
    + intros f e b name [H|[]]. discriminate H.
  - exists r, w'. split; [assumption|].
    destruct (processTokens_faithful _ _ _ _ _ _ _ Hrun) as (Hcat & Himg).
    split; [|assumption]. rewrite Hcat. apply tokenizeMathText_concat.
Qed.

Lemma appendMathTextSegment_well_formed (segs : list DiscordMathSegment)
    (t : jsstring) :
  adjacentText segs = false ->
  (forall c, In (TextSegment c) segs -> c <> []) ->
  adjacentText (appendMathTextSegment segs t) = false
  /\ forall c, In (TextSegment c) (appendMathTextSegment segs t) -> c <> [].
Proof.
  intros Hadj Hne. unfold appendMathTextSegment.
  destruct t as [|x t]; cbn [isEmpty]; [now split|].
  split; [now rewrite extendLastTextSegment_adjacent|].
  intros c Hin. apply extendLastTextSegment_In in Hin as [Hin|(p & [= ->])].
  - now apply Hne.
  - destruct p; discriminate.
Qed.

(** C10. The segments that the build operation returns are never none; no
    two text segments stand next to each other; and a text segment is empty
    only when the input is empty, in which case it is the one segment that
    carries the input. The build operation returns them unless it is
    rejected with what the [catch] block threw. *)
Theorem segments_are_well_formed (text : jsstring)
    (configInput : option DiscordMathImageConfig)
    (deps : BuildDiscordMathSegmentsDeps) (w : World RendererState) :
  (exists r w',
     buildDiscordMathSegments text configInput deps w = (inr r, w')
     /\ segments r <> []
     /\ adjacentText (segments r) = false
     /\ forall content,
          In (TextSegment content) (segments r) ->
          content = [] -> text = [] /\ segments r = [TextSegment text])
  \/ rejectedInCatch text configInput deps w.
Proof.
  destruct (build_cases text configInput deps w)
    as [(r & w' & E & _ & [(Hs & _)|(_ & _ & _ & Hne & _ & n & Hrun)])
       |(Hrej & _)]; [left|left|right; exact Hrej];
    exists r, w'; (split; [assumption|]).
  - rewrite Hs. split; [discriminate|]. split; [reflexivity|].
    intros content [[= <-]|[]] ->. now split.
  - split; [assumption|].
    assert (Hwf : adjacentText (segments r) = false
                  /\ forall c, In (TextSegment c) (segments r) -> c <> []).
    { revert Hrun.
      apply (processTokens_invariant _ _
               (fun _ sg _ _ =>
                  adjacentText sg = false
                  /\ forall c, In (TextSegment c) sg -> c <> [])).
      - intros done token sg m v sg' m' v' (Hadj & Hnon) _ Hout.
        destruct Hout; try now apply appendMathTextSegment_well_formed.
        split; [now rewrite push_image_adjacent|].
        intros c Hin. apply in_app_or in Hin as [Hin|[Hin|[]]];
          [now apply Hnon|discriminate].
      - split; [reflexivity|intros ? []]. }
    destruct Hwf as (Hadj & Hnon). split; [assumption|].
    intros content Hin ->. now destruct (Hnon _ Hin).
Qed.

Lemma formulaTokens_snoc (done : list DiscordMathToken) (token : DiscordMathToken) :
  formulaTokens (done ++ [token])
  = formulaTokens done
    ++ match token with
       | FormulaToken raw e => [(raw, e)]
       | TextToken _ => []
       end.
Proof.
  unfold formulaTokens. rewrite flat_map_app. simpl. now rewrite app_nil_r.
Qed.

Lemma formulaTokens_In (tokens : list DiscordMathToken) (raw e : jsstring) :
  In (raw, e) (formulaTokens tokens) <-> In (FormulaToken raw e) tokens.
Proof.
  unfold formulaTokens. rewrite in_flat_map. split.
  - intros ([r x|t] & Hin & H); simpl in H; [|destruct H].
    destruct H as [[= <- <-]|[]]. assumption.
  - intros H. exists (FormulaToken raw e). split; [assumption|now left].
Qed.

Lemma formulaTokens_none (tokens : list DiscordMathToken) :
  existsb isFormulaToken tokens = false -> formulaTokens tokens = [].
Proof.
  induction tokens as [|[r x|t] tokens IH]; simpl; intros H;
    [reflexivity|discriminate|auto].
Qed.

Lemma tokenizeMathText_nil (cfg : ResolvedDiscordMathImageConfig) :
  tokenizeMathText [] cfg = [TextToken []].
Proof.
  unfold tokenizeMathText.
  destruct (length (activeDelimitersOf cfg) =? 0); reflexivity.
Qed.

Lemma mathImages_snoc (segs : list DiscordMathSegment) (f e : jsstring)
    (b : Buffer) (name : jsstring) :
  mathImages (segs ++ [MathImageSegment f e b name]) = mathImages segs ++ [(f, e)].
Proof.
  now rewrite mathImages_app.
Qed.

Lemma countLimitInvariant_step (cfg : ResolvedDiscordMathImageConfig)
    (render : Renderer) (tokens : list DiscordMathToken)
    (w : World RendererState) :
  (0 < maxExpressionsPerReply cfg)%Z ->
  (forall e width s, exists b s', render e width s = (inr b, s')) ->
  (forall raw e, In (FormulaToken raw e) tokens ->
     raw <> []
     /\ (Z.of_nat (length e) <= maxCharsPerExpression cfg)%Z) ->
  forall done token sg m v sg' m' v',
    countLimitInvariant cfg w done sg m v ->
    In token tokens ->
    tokenOutcome cfg render sg m v token sg' m' v' ->
    countLimitInvariant cfg w (done ++ [token]) sg' m' v'.
Proof.
  intros Hk Hok Htok done token sg m v sg' m' v' (Hn & Himg & Hcalls & Hrest)
    Hin Hout.
  unfold countLimitInvariant. cbn zeta. rewrite formulaTokens_snoc.
  set (ft := formulaTokens done) in *.
  set (k := Z.to_nat (maxExpressionsPerReply cfg)) in *.
  destruct Hout as [t|raw e Hover|raw e _ Hlong|raw e b s Hunder _ Hr
                   |raw e err s str s1 s2 _ _ Hr _ _].
  - rewrite app_nil_r, appendMathTextSegment_images.
    repeat split; auto. intros raw e H. apply inTextSegment_append. eauto.
  - assert (Hlen : k <= length ft) by lia.
    rewrite length_app, firstn_app, skipn_app, appendMathTextSegment_images.
    replace (k - length ft) with 0 by lia. cbn [firstn skipn length].
    rewrite app_nil_r. repeat split; auto; [lia|].
    intros raw' e' H. apply in_app_or in H as [H|[[= <- <-]|[]]].
    + apply inTextSegment_append. eauto.
    + apply inTextSegment_new. now apply (Htok raw e).
  - destruct (Htok raw e Hin) as (_ & Hle). lia.
  - assert (Hlen : length ft < k) by lia.
    rewrite length_app, mathImages_snoc. cbn [length].
    rewrite firstn_all2 by (rewrite length_app; simpl; lia).
    rewrite firstn_all2 in Himg, Hcalls by lia.
    rewrite skipn_all2 by (rewrite length_app; simpl; lia).
    cbn [renderCalls afterRender]. rewrite Himg, Hcalls, map_app, app_assoc.
    repeat split; auto; [lia|]. intros ? ? [].
  - destruct (Hok e (maxImageWidthPx cfg) (rendererState v)) as (b & s' & Hb).
    congruence.
Qed.

(** C2, amended. With the feature enabled, [maxExpressionsPerReply = k], a
    renderer that succeeds on every call and an input whose [n] formula
    tokens are all within the length limit: the math images of the result
    are the first [k] formula tokens in source order, [min n k] of them; the
    renderer is called on exactly these, in order; every other formula token
    appears verbatim inside a text segment; and the image count of the loop
    ends at [min n k]. *)
Theorem count_limit_when_enabled (text : jsstring)
    (configInput : option DiscordMathImageConfig)
    (deps : BuildDiscordMathSegmentsDeps) (w : World RendererState) :
  let cfg := resolveDiscordMathImageConfig configInput in
  let tokens := tokenizeMathText text cfg in
  let render := orElse (renderFormulaPng deps) renderFormulaPngDefault in
  let k := maxExpressionsPerReply cfg in
  let n := length (formulaTokens tokens) in
  enabled cfg = true ->
  (forall e width s, exists b s', render e width s = (inr b, s')) ->
  (forall raw e, In (raw, e) (formulaTokens tokens) ->
     (Z.of_nat (length e) <= maxCharsPerExpression cfg)%Z) ->
  exists r w',
    buildDiscordMathSegments text configInput deps w = (inr r, w')
    /\ mathImages (segments r) = firstn (Z.to_nat k) (formulaTokens tokens)
    /\ Z.of_nat (length (mathImages (segments r))) = Z.min (Z.of_nat n) k
    /\ renderCalls w'
       = renderCalls w
         ++ map (fun p => (snd p, maxImageWidthPx cfg))
              (firstn (Z.to_nat k) (formulaTokens tokens))
    /\ (forall raw e,
          In (raw, e) (skipn (Z.to_nat k) (formulaTokens tokens)) ->
          inTextSegment (segments r) raw)
    /\ exists segs count v,
         processTokens cfg render tokens ([], 0%Z) w = (inr (segs, count), v)
         /\ count = Z.min (Z.of_nat n) k.
Proof.
  intros cfg tokens render k n Hen Hok Hlen.
  assert (Hk : (0 < k)%Z).
  { unfold k, cfg, resolveDiscordMathImageConfig.
    cbn [maxExpressionsPerReply]. now apply normalizePositiveInt_positive. }
  assert (Htok : forall raw e, In (FormulaToken raw e) tokens ->
                   raw <> []
                   /\ (Z.of_nat (length e) <= maxCharsPerExpression cfg)%Z).
  { intros raw e Hin. split; [now apply (tokenizeMathText_raw text cfg raw e)|].
    apply (Hlen raw). now apply formulaTokens_In. }
  destruct (processTokens_returns cfg render (countLimitInvariant cfg w) tokens
              (countLimitInvariant_step cfg render tokens w Hk Hok Htok))
    with (segs := @nil DiscordMathSegment) (n := 0%Z) (w := w)
    as (segs & count & v & Hrun & (Hn & Himg & Hcalls & Hrest)).
  { intros done token sg m v0 thrown v' _ _ Hthrow.
    destruct Hthrow as [raw e err s t s1 _ _ Hr _
                       |raw e err s str s1 t s2 _ _ Hr _ _];
      destruct (Hok e (maxImageWidthPx cfg) (rendererState v0)) as (b & s' & Hb);
      congruence. }
  { unfold countLimitInvariant. cbn zeta. cbn [formulaTokens flat_map length].
    rewrite firstn_nil, skipn_nil. cbn [map]. rewrite app_nil_r.
    repeat split; auto; [fold k; lia|intros ? ? []]. }
  fold k in Hn, Himg, Hcalls, Hrest. fold n in Hn.
  assert (Hlenimg : Z.of_nat (length (firstn (Z.to_nat k) (formulaTokens tokens)))
                    = Z.min (Z.of_nat n) k).
  { rewrite length_firstn. fold n. lia. }
  destruct (build_cases text configInput deps w)
    as [(r & w' & E & _ & [(Hs & _ & -> & Hwhy)|(_ & _ & _ & _ & _ & m & Hrun')])
       |(_ & thrown & w' & _ & Hrun')].
  3:{ fold cfg tokens render in Hrun'. rewrite Hrun in Hrun'. discriminate Hrun'. }
  - assert (Hnone : formulaTokens tokens = []).
    { destruct Hwhy as [Hoff|[-> |Hno]].
      - fold cfg in Hoff. congruence.
      - unfold tokens. now rewrite tokenizeMathText_nil.
      - now apply formulaTokens_none. }
    exists r, w. split; [assumption|]. rewrite Hs. unfold n.
    rewrite Hnone, firstn_nil, skipn_nil. cbn [mathImages flat_map length map].
    split; [reflexivity|]. split; [cbn [length app]; lia|].
    split; [now rewrite app_nil_r|]. split; [intros ? ? []|].
    exists segs, count, v. split; [assumption|]. unfold n in Hn.
    now rewrite Hnone in Hn.
  - fold cfg tokens render in Hrun'. rewrite Hrun in Hrun'.
    injection Hrun' as -> -> ->.
    exists r, w'. split; [assumption|]. rewrite Himg.
    repeat split; auto. now exists (segments r), m, w'.
Qed.

Lemma processToken_failed (cfg : ResolvedDiscordMathImageConfig)
    (render : Renderer) (raw e : jsstring) (segs : list DiscordMathSegment)
    (n : Z) (v : World RendererState) (error : Thrown)
    (s s1 s' : RendererState) (errorString : jsstring) :
  (n < maxExpressionsPerReply cfg)%Z ->
  (Z.of_nat (length e) <= maxCharsPerExpression cfg)%Z ->
  render e (maxImageWidthPx cfg) (rendererState v) = (inl error, s) ->
  stringOfError error s = (inr errorString, s1) ->
  verboseLogger (renderFailedMessage errorString) s1 = (inr tt, s') ->
  processToken cfg render (FormulaToken raw e) (segs, n) v
  = (inr (appendMathTextSegment segs raw, n),
     afterLog (afterRender v s e (maxImageWidthPx cfg))
       (renderFailedMessage errorString) s').
Proof.
  intros Hn Hl Hr Hs Hv. cbn [processToken].
  apply Z.leb_gt in Hn. apply Z.ltb_ge in Hl. rewrite Hn, Hl.
  unfold tryCatch, bind, awaitRender, stringOf, logVerbose.
  rewrite Hr. cbn [rendererState]. rewrite Hs. cbn [rendererState].
  now rewrite Hv.
Qed.

(** C6. The renderer is only called on expressions within
    [maxCharsPerExpression], in a build that returns and in one that is
    rejected with what the [catch] block threw; in a result, a formula token
    whose expression is longer appears verbatim inside a text segment and
    has no math image; and a formula token whose expression has exactly the
    limit's length is passed to the renderer when the image count is below
    its limit. *)
Theorem length_limit_is_enforced (text : jsstring)
    (configInput : option DiscordMathImageConfig)
    (deps : BuildDiscordMathSegmentsDeps) (w : World RendererState) :
  let cfg := resolveDiscordMathImageConfig configInput in
  let tokens := tokenizeMathText text cfg in
  let render := orElse (renderFormulaPng deps) renderFormulaPngDefault in
  (exists calls,
      renderCalls (snd (buildDiscordMathSegments text configInput deps w))
      = renderCalls w ++ calls
      /\ forall e width, In (e, width) calls ->
           (Z.of_nat (length e) <= maxCharsPerExpression cfg)%Z)
  /\ ((exists r w',
         buildDiscordMathSegments text configInput deps w = (inr r, w')
         /\ forall raw e,
              In (FormulaToken raw e) tokens ->
              (maxCharsPerExpression cfg < Z.of_nat (length e))%Z ->
              inTextSegment (segments r) raw
              /\ forall f b name,
                   ~ In (MathImageSegment f e b name) (segments r))
      \/ rejectedInCatch text configInput deps w)
  /\ forall raw e segs n v,
       (n < maxExpressionsPerReply cfg)%Z ->
       Z.of_nat (length e) = maxCharsPerExpression cfg ->
       exists outcome v',
         processToken cfg render (FormulaToken raw e) (segs, n) v
         = (outcome, v')
         /\ renderCalls v' = renderCalls v ++ [(e, maxImageWidthPx cfg)].
Proof.
  intros cfg tokens render.
  set (Inv := fun (done : list DiscordMathToken) (sg : list DiscordMathSegment)
                  (_ : Z) (v : World RendererState) =>
                (exists calls,
                    renderCalls v = renderCalls w ++ calls
                    /\ forall e width, In (e, width) calls ->
                         (Z.of_nat (length e) <= maxCharsPerExpression cfg)%Z)
                /\ (forall raw e,
                      In (FormulaToken raw e) done ->
                      (maxCharsPerExpression cfg < Z.of_nat (length e))%Z ->
                      inTextSegment sg raw)
                /\ (forall f e b name,
                      In (MathImageSegment f e b name) sg ->
                      (Z.of_nat (length e) <= maxCharsPerExpression cfg)%Z)).
  assert (Hcall : forall (v : World RendererState) calls e,
             renderCalls v = renderCalls w ++ calls ->
             (forall e' width, In (e', width) calls ->
                (Z.of_nat (length e') <= maxCharsPerExpression cfg)%Z) ->
             (Z.of_nat (length e) <= maxCharsPerExpression cfg)%Z ->
             exists calls',
               renderCalls v ++ [(e, maxImageWidthPx cfg)]
               = renderCalls w ++ calls'
               /\ forall e' width, In (e', width) calls' ->
                    (Z.of_nat (length e') <= maxCharsPerExpression cfg)%Z).
  { intros v calls e Hc Hw Hle. exists (calls ++ [(e, maxImageWidthPx cfg)]).
    split; [now rewrite Hc, app_assoc|].
    intros e' width H. apply in_app_or in H as [H|[[= <- _]|[]]]; eauto. }
  assert (Hstep : forall done token sg m v sg' m' v',
             Inv done sg m v ->
             In token tokens ->
             tokenOutcome cfg render sg m v token sg' m' v' ->
             Inv (done ++ [token]) sg' m' v').
  { intros done token sg n v sg' n' v' ((calls & Hc & Hw) & Htxt & Himg)
      Hin Hout.
    assert (Htext : forall t raw e,
               In (FormulaToken raw e) done ->
               (maxCharsPerExpression cfg < Z.of_nat (length e))%Z ->
               inTextSegment (appendMathTextSegment sg t) raw).
    { intros t raw e H Hl. apply inTextSegment_append. eauto. }
    assert (Hfall : forall raw' e' raw e,
               In (FormulaToken raw' e') tokens ->
               In (FormulaToken raw e) (done ++ [FormulaToken raw' e']) ->
               (maxCharsPerExpression cfg < Z.of_nat (length e))%Z ->
               inTextSegment (appendMathTextSegment sg raw') raw).
    { intros raw' e' raw e Hin' H Hl.
      apply in_app_or in H as [H|[[= <- <-]|[]]]; [eauto|].
      apply inTextSegment_new.
      eapply tokenizeMathText_raw. exact Hin'. }
    assert (Himg' : forall t f e b name,
               In (MathImageSegment f e b name) (appendMathTextSegment sg t) ->
               (Z.of_nat (length e) <= maxCharsPerExpression cfg)%Z).
    { intros t f e b name H. apply appendMathTextSegment_In_image in H. eauto. }
    destruct Hout as [t|raw' e' _|raw' e' _ _|raw' e' b s _ Hle Hr
                     |raw' e' err s str s1 s2 _ Hle _ _ _].
    - split; [now exists calls|]. split; [|apply Himg'].
      intros raw e H. apply in_app_or in H as [H|[H|[]]];
        [now apply Htext|discriminate].
    - split; [now exists calls|]. split; [|apply Himg'].
      intros raw e. now apply Hfall.
    - split; [now exists calls|]. split; [|apply Himg'].
      intros raw e. now apply Hfall.
    - cbn [renderCalls afterRender].
      split; [now apply (Hcall v calls)|]. split.
      + intros raw e H Hl. apply inTextSegment_push.
        apply in_app_or in H as [H|[[= <- <-]|[]]]; [eauto|lia].
      + intros f e b' name H.
        apply in_app_or in H as [H|[[= _ <- _ _]|[]]]; eauto.
    - cbn [renderCalls afterLog afterRender].
      split; [now apply (Hcall v calls)|]. split; [|apply Himg'].
      intros raw e. now apply Hfall. }
  assert (Hinit : Inv [] [] 0%Z w).
  { split; [|split; [intros ? ? []|intros ? ? ? ? []]].
    exists []. split; [now rewrite app_nil_r|intros ? ? []]. }
  assert (Hplain : forall raw e,
             In (FormulaToken raw e) tokens ->
             inTextSegment [TextSegment text] raw).
  { intros raw e Hin. exists text. split; [now left|].
    rewrite <- (tokenizeMathText_concat text cfg).
    now apply (formulaToken_occursIn _ raw e). }
  split; [|split].
  - destruct (build_cases text configInput deps w)
      as [(r & w' & E & _ & [(Hs & _ & -> & _)|(_ & _ & _ & _ & _ & m & Hrun)])
         |(_ & thrown & w' & E & Hrun)]; rewrite E; cbn [snd].
    + exists []. split; [now rewrite app_nil_r|intros ? ? []].
    + fold cfg tokens render in Hrun.
      now destruct (processTokens_invariant cfg render Inv tokens _ _ _ _ _ _
                      Hstep Hinit Hrun) as (Hcalls & _).
    + fold cfg tokens render in Hrun.
      destruct (processTokens_thrown cfg render Inv tokens _ _ _ _ _
                  Hstep Hinit Hrun)
        as (done & token & sg & m & v & _ & ((calls & Hc & Hw) & _) & Hthrow).
      destruct Hthrow as [raw e err s t s1 _ Hle _ _
                         |raw e err s str s1 t s2 _ Hle _ _ _];
        cbn [renderCalls afterLog afterRender]; now apply (Hcall v calls).
  - destruct (build_cases text configInput deps w)
      as [(r & w' & E & _ & [(Hs & _ & -> & _)|(_ & _ & _ & _ & _ & m & Hrun)])
         |(Hrej & _)]; [left|left|right; exact Hrej];
      (eexists r, _; split; [exact E|]).
    + rewrite Hs. intros raw e Hin _. split; [now apply (Hplain raw e)|].
      intros f b name [H|[]]. discriminate H.
    + fold cfg tokens render in Hrun.
      destruct (processTokens_invariant cfg render Inv tokens _ _ _ _ _ _
                  Hstep Hinit Hrun) as (_ & Htxt & Himg).
      intros raw e Hin Hl. split; [now apply (Htxt raw e)|].
      intros f b name H. specialize (Himg f e b name H). lia.
  - intros raw e segs n v Hn Hl.
    destruct (processToken_outcome cfg render (FormulaToken raw e) segs n v)
      as [(sg & m & v' & Ep & Hout)|(thrown & v' & Ep & Hthrow)].
    + exists (inr (sg, m)), v'. split; [assumption|].
      inversion Hout; subst; cbn [renderCalls afterLog afterRender]; try lia;
        reflexivity.
    + exists (inl thrown), v'. split; [assumption|].
      inversion Hthrow; subst; cbn [renderCalls afterLog afterRender];
        reflexivity.
Qed.

(** ** Code spans *)

Lemma extendLastTextSegment_spans (segs : list DiscordMathSegment) (t : jsstring) :
  forall off, imageSpans off (extendLastTextSegment segs t) = imageSpans off segs.
Proof.
  induction segs as [|a segs IH]; intros off; [reflexivity|].
  destruct segs as [|b segs].
  - destruct a; reflexivity.
  - rewrite extendLastTextSegment_cons.
    destruct a; cbn [imageSpans]; now rewrite IH.
Qed.

Lemma appendMathTextSegment_spans (segs : list DiscordMathSegment) (t : jsstring)
    (off : nat) :
  imageSpans off (appendMathTextSegment segs t) = imageSpans off segs.
Proof.
  unfold appendMathTextSegment. destruct (isEmpty t); [reflexivity|].
  apply extendLastTextSegment_spans.
Qed.

Lemma imageSpans_snoc (segs : list DiscordMathSegment) (f e : jsstring)
    (b : Buffer) (name : jsstring) :
  forall off,
    imageSpans off (segs ++ [MathImageSegment f e b name])
    = imageSpans off segs ++ [(off + length (concatSegments segs), f, e)].
Proof.
  induction segs as [|a segs IH]; intros off.
  - simpl. now rewrite Nat.add_0_r.
  - destruct a as [t|f' e' b' n']; cbn [app imageSpans]; rewrite IH;
      unfold concatSegments; cbn [map concat segmentText];
      rewrite length_app, Nat.add_assoc; reflexivity.
Qed.

Lemma imageSpans_app (segs segs' : list DiscordMathSegment) :
  forall off,
    imageSpans off (segs ++ segs')
    = imageSpans off segs ++ imageSpans (off + length (concatSegments segs)) segs'.
Proof.
  induction segs as [|a segs IH]; intros off.
  - simpl. now rewrite Nat.add_0_r.
  - destruct a as [t|f e b n]; cbn [app imageSpans]; rewrite IH;
      unfold concatSegments; cbn [map concat segmentText];
      rewrite length_app, Nat.add_assoc; reflexivity.
Qed.

Lemma formulaSpans_at (pre post : list DiscordMathToken) (raw e : jsstring) :
  In (length (concatTokens pre), raw, e)
    (formulaSpans 0 (pre ++ FormulaToken raw e :: post)).
Proof.
  rewrite formulaSpans_app. apply in_or_app. right. now left.
Qed.

Lemma imageSpans_at (pre post : list DiscordMathSegment) (f e : jsstring)
    (b : Buffer) (name : jsstring) :
  In (length (concatSegments pre), f, e)
    (imageSpans 0 (pre ++ MathImageSegment f e b name :: post)).
Proof.
  rewrite imageSpans_app. apply in_or_app. right. now left.
Qed.

Lemma formulaSpans_split (tokens : list DiscordMathToken) (raw e : jsstring) :
  forall off o,
    In (o, raw, e) (formulaSpans off tokens) ->
    exists pre post,
      tokens = pre ++ FormulaToken raw e :: post
      /\ o = off + length (concatTokens pre).
Proof.
  induction tokens as [|a tokens IH]; intros off o H; [destruct H|].
  assert (Hrest : forall k,
             In (o, raw, e) (formulaSpans (off + k) tokens) ->
             k = length (tokenText a) ->
             exists pre post,
               a :: tokens = pre ++ FormulaToken raw e :: post
               /\ o = off + length (concatTokens pre)).
  { intros k Hin ->. destruct (IH _ _ Hin) as (pre & post & -> & ->).
    exists (a :: pre), post. split; [reflexivity|].
    unfold concatTokens. cbn [map concat]. rewrite length_app. lia. }
  destruct a as [r x|t]; cbn [formulaSpans] in H.
  - destruct H as [[= <- <- <-]|H]; [|now apply (Hrest (length r))].
    exists [], tokens. split; [reflexivity|]. simpl. lia.
  - now apply (Hrest (length t)).
Qed.

(** Every math image stands where a formula token stands. *)
Lemma processTokens_spans (cfg : ResolvedDiscordMathImageConfig)
    (render : Renderer) (tokens : list DiscordMathToken)
    (segs : list DiscordMathSegment) (n : Z) (w w' : World RendererState) :
  processTokens cfg render tokens ([], 0%Z) w = (inr (segs, n), w') ->
  incl (imageSpans 0 segs) (formulaSpans 0 tokens).
Proof.
  intros Hrun.
  apply (processTokens_invariant cfg render
           (fun done sg _ _ =>
              concatSegments sg = concatTokens done
              /\ incl (imageSpans 0 sg) (formulaSpans 0 done))
           tokens [] segs 0%Z n w w'); [| |assumption].
  - intros done token sg m v sg' m' v' (Hcat & Hincl) _ Hout.
    rewrite concatTokens_snoc, formulaSpans_app.
    destruct Hout; cbn [tokenText].
    1-3,5: (split; [now rewrite appendMathTextSegment_concat, Hcat|];
            rewrite appendMathTextSegment_spans; now apply incl_appl).
    split; [now rewrite concatSegments_snoc, Hcat|].
    rewrite imageSpans_snoc, Hcat. cbn [formulaSpans].
    apply incl_app; [now apply incl_appl|].
    apply incl_appr. intros x [<-|[]]. now left.
  - split; [reflexivity|intros ? []].
Qed.

(** C4. With [excludeCode] set, every formula token, at the offset of the
    text at which it stands (the length of the tokens before it), starts
    with an open marker at an offset that the code-span predicate classifies
    as outside code, and ends with the close marker of the same delimiter at
    such an offset: a pair of markers at offsets inside code is no formula
    token. Every math image of a result is such a formula token, at the
    same offset (the build returns a result unless it is rejected with what
    the [catch] block threw). And the scans go past the occurrences inside code: when a marker
    has an occurrence outside code at or after the start of the scan,
    [findNextOpening] and [findClosingIndex] return an occurrence at or
    before it. *)
Theorem code_spans_are_excluded (text : jsstring)
    (configInput : option DiscordMathImageConfig)
    (deps : BuildDiscordMathSegmentsDeps) (w : World RendererState) :
  let cfg := resolveDiscordMathImageConfig configInput in
  let tokens := tokenizeMathText text cfg in
  let active := activeDelimitersOf cfg in
  let isInside := buildCodeSpanIndex text in
  excludeCode cfg = true ->
  (forall pre raw e post,
      tokens = pre ++ FormulaToken raw e :: post ->
      exists d,
        In d active
        /\ raw = open d ++ e ++ close d
        /\ raw = slice text (length (concatTokens pre))
                   (length (concatTokens pre) + length raw)
        /\ isInside (length (concatTokens pre)) = false
        /\ isInside (length (concatTokens pre) + length (open d) + length e)
           = false)
  /\ ((exists r w',
         buildDiscordMathSegments text configInput deps w = (inr r, w')
         /\ forall before f e b name after,
              segments r = before ++ MathImageSegment f e b name :: after ->
              exists pre post,
                tokens = pre ++ FormulaToken f e :: post
                /\ length (concatTokens pre) = length (concatSegments before))
      \/ rejectedInCatch text configInput deps w)
  /\ (forall from d j,
        In d active -> from <= j < length text ->
        validAt (open d) text (Some isInside) j = true ->
        exists i d',
          findNextOpening text from active (Some isInside) = Some (i, d')
          /\ i <= j)
  /\ forall from d j,
       from <= j < length text ->
       validAt (close d) text (Some isInside) j = true ->
       exists i, findClosingIndex text from d (Some isInside) = Some i /\ i <= j.
Proof.
  intros cfg tokens active isInside Hex.
  assert (Hpred : codePredicateOf text cfg = Some isInside)
    by (unfold codePredicateOf; now rewrite Hex).
  split; [|split; [|split]].
  - intros pre raw e post Hsplit.
    pose proof (formulaSpans_at pre post raw e) as Hin.
    rewrite <- Hsplit in Hin.
    pose proof (tokenizeMathText_spans text cfg) as Hall.
    rewrite Forall_forall in Hall. specialize (Hall _ Hin).
    destruct Hall as (d & Hd & Hraw & Hsl & Hvo & Hvc).
    rewrite Hpred in Hvo, Hvc. unfold validAt, outsideCode in Hvo, Hvc.
    apply andb_true_iff in Hvo as [_ Hvo]. apply andb_true_iff in Hvc as [_ Hvc].
    apply negb_true_iff in Hvo, Hvc.
    exists d. repeat split; assumption.
  - destruct (build_cases text configInput deps w)
      as [(r & w' & E & _ & [(Hs & _)|(_ & _ & _ & _ & _ & n & Hrun)])
         |(Hrej & _)]; [left|left|right; exact Hrej];
      exists r, w'; (split; [assumption|]).
    + rewrite Hs. intros before f e b name after H.
      destruct before as [|x [|y before]]; discriminate H.
    + intros before f e b name after H.
      pose proof (imageSpans_at before after f e b name) as Hin.
      rewrite <- H in Hin.
      apply (processTokens_spans _ _ _ _ _ _ _ Hrun) in Hin.
      destruct (formulaSpans_split _ _ _ _ _ Hin) as (pre & post & Ht & Ho).
      exists pre, post. split; [assumption|]. simpl in Ho. now symmetry.
  - intros from d j Hd Hj Hv.
    destruct (findNextOpening text from active (Some isInside))
      as [[i d']|] eqn:E.
    + exists i, d'. split; [reflexivity|].
      destruct (findNextOpening_Some _ _ _ _ _ _ E) as (_ & _ & Hmin).
      now apply (Hmin d j).
    + rewrite findNextOpening_None in E. rewrite (E d j Hd Hj) in Hv.
      discriminate.
  - intros from d j Hj Hv.
    destruct (findClosingIndex text from d (Some isInside)) as [i|] eqn:E.
    + exists i. split; [reflexivity|].
      apply findClosingIndex_Some in E.
      now apply (earliestValid_unique _ _ _ _ _ _ E).
    + rewrite findClosingIndex_None in E. rewrite (E j Hj) in Hv. discriminate.
Qed.


(** * Further properties *)

(** ** Scanner and tokenizer *)

(** X1. [findClosingIndex] returns the first occurrence of the close marker
    at or after [fromIndex] that is not inside code, and none exactly when
    there is no such occurrence before the end of the text. *)
Theorem findClosingIndex_first_valid (text : jsstring) (fromIndex : nat)
    (delimiter : DelimiterSpec) (isInsideCode : option (nat -> bool)) :
  match findClosingIndex text fromIndex delimiter isInsideCode with
  | Some index => earliestValid (close delimiter) text isInsideCode fromIndex index
  | None =>
      forall j, fromIndex <= j < length text ->
        validAt (close delimiter) text isInsideCode j = false
  end.
Proof.
  destruct (findClosingIndex text fromIndex delimiter isInsideCode)
    as [index|] eqn:E.
  - now apply findClosingIndex_Some.
  - now apply findClosingIndex_None.
Qed.

Lemma tokenizeMathText_plain (text : jsstring)
    (cfg : ResolvedDiscordMathImageConfig) :
  (forall d j, In d (activeDelimitersOf cfg) -> j < length text ->
     validAt (open d) text (codePredicateOf text cfg) j = false) ->
  tokenizeMathText text cfg = [TextToken text].
Proof.
  intros Hplain. unfold tokenizeMathText.
  destruct (length (activeDelimitersOf cfg) =? 0); [reflexivity|]. cbn zeta.
  destruct text as [|c text]; [reflexivity|].
  cbn [length tokenizeLoop]. cbn [Nat.ltb Nat.leb].
  assert (E : findNextOpening (c :: text) 0 (activeDelimitersOf cfg)
                (codePredicateOf (c :: text) cfg) = None).
  { apply findNextOpening_None. intros d j Hd Hj. apply Hplain; [assumption|lia]. }
  rewrite E. reflexivity.
Qed.

(** X2. A text in which no active delimiter has an open marker outside code
    is one text token, whatever the configuration. *)
Theorem plain_text_is_one_token (text : jsstring)
    (cfg : ResolvedDiscordMathImageConfig) :
  (forall d j, In d (activeDelimitersOf cfg) -> j < length text ->
     validAt (open d) text (codePredicateOf text cfg) j = false) ->
  tokenizeMathText text cfg = [TextToken text].
Proof.
  apply tokenizeMathText_plain.
Qed.

Lemma extendLastTextToken_head (b : DiscordMathToken)
    (ts : list DiscordMathToken) (t : jsstring) :
  exists b' ts',
    extendLastTextToken (b :: ts) t = b' :: ts'
    /\ isFormulaToken b' = isFormulaToken b.
Proof.
  destruct ts as [|c ts].
  - destruct b; simpl; eauto.
  - rewrite extendLastTextToken_cons. eauto.
Qed.

Lemma extendLastTextToken_adjacent (ts : list DiscordMathToken) (t : jsstring) :
  adjacentTextTokens (extendLastTextToken ts t) = adjacentTextTokens ts.
Proof.
  induction ts as [|a ts IH]; [reflexivity|].
  destruct ts as [|b ts].
  - destruct a; reflexivity.
  - rewrite extendLastTextToken_cons.
    destruct (extendLastTextToken_head b ts t) as (b' & ts' & E & Hk).
    rewrite E in *.
    destruct a as [r x|p]; [exact IH|].
    destruct b, b'; try discriminate Hk; try reflexivity. exact IH.
Qed.

Lemma push_formula_adjacent (ts : list DiscordMathToken) (raw e : jsstring) :
  adjacentTextTokens (ts ++ [FormulaToken raw e]) = adjacentTextTokens ts.
Proof.
  induction ts as [|a ts IH]; [reflexivity|].
  destruct a as [r x|p]; [exact IH|].
  destruct ts as [|c ts]; [reflexivity|].
  destruct c; [exact IH|reflexivity].
Qed.

Lemma extendLastTextToken_In (ts : list DiscordMathToken) (t : jsstring)
    (token : DiscordMathToken) :
  In token (extendLastTextToken ts t) ->
  In token ts \/ exists previous, token = TextToken (previous ++ t).
Proof.
  induction ts as [|a ts IH]; intros H.
  - destruct H as [<-|[]]. right. now exists [].
  - destruct ts as [|b ts].
    + destruct a as [r x|p]; simpl in H.
      * destruct H as [<-|[<-|[]]]; [left; now left|right; now exists []].
      * destruct H as [<-|[]]. right. now exists p.
    + rewrite extendLastTextToken_cons in H. destruct H as [<-|H].
      * left; now left.
      * destruct (IH H) as [Hin|Hex]; [left; now right|now right].
Qed.

Lemma appendTextToken_well_formed (ts : list DiscordMathToken) (t : jsstring) :
  adjacentTextTokens ts = false ->
  (forall c, In (TextToken c) ts -> c <> []) ->
  adjacentTextTokens (appendTextToken ts t) = false
  /\ forall c, In (TextToken c) (appendTextToken ts t) -> c <> [].
Proof.
  intros Hadj Hne. unfold appendTextToken.
  destruct t as [|x t]; cbn [isEmpty]; [now split|].
  split; [now rewrite extendLastTextToken_adjacent|].
  intros c Hin. apply extendLastTextToken_In in Hin as [Hin|(p & [= ->])].
  - now apply Hne.
  - destruct p; discriminate.
Qed.

(** X3. The tokens of a text are never none; no two text tokens stand next to
    each other; and a text token is empty only when the text is empty, in
    which case it is the only token. *)
Theorem tokens_are_well_formed (text : jsstring)
    (cfg : ResolvedDiscordMathImageConfig) :
  tokenizeMathText text cfg <> []
  /\ adjacentTextTokens (tokenizeMathText text cfg) = false
  /\ forall content,
       In (TextToken content) (tokenizeMathText text cfg) ->
       content = [] ->
       text = [] /\ tokenizeMathText text cfg = [TextToken []].
Proof.
  assert (Hone : [TextToken text] <> []
                 /\ adjacentTextTokens [TextToken text] = false
                 /\ forall content,
                      In (TextToken content) [TextToken text] ->
                      content = [] ->
                      text = [] /\ [TextToken text] = [TextToken []]).
  { split; [discriminate|]. split; [reflexivity|].
    intros content [[= <-]|[]] ->. now split. }
  unfold tokenizeMathText.
  destruct (length (activeDelimitersOf cfg) =? 0); [exact Hone|]. cbn zeta.
  set (tokens := tokenizeLoop _ _ _ _ _ _).
  destruct (length tokens =? 0) eqn:El; [exact Hone|].
  assert (Hwf : adjacentTextTokens tokens = false
                /\ forall c, In (TextToken c) tokens -> c <> []).
  { apply (tokenizeLoop_rule text (activeDelimitersOf cfg)
             (codePredicateOf text cfg) (haveMarkers_active cfg)
             (fun _ ts => adjacentTextTokens ts = false
                          /\ forall c, In (TextToken c) ts -> c <> [])
             (fun ts => adjacentTextTokens ts = false
                        /\ forall c, In (TextToken c) ts -> c <> []))
      with (cursor := 0).
    - auto.
    - intros c ts (Ha & Hn) _ _. now apply appendTextToken_well_formed.
    - intros c ts index d (Ha & Hn) _ _ _.
      destruct (appendTextToken_well_formed ts (slice text c index) Ha Hn).
      now apply appendTextToken_well_formed.
    - intros c ts index d closeIndex (Ha & Hn) _ _.
      destruct (appendTextToken_well_formed ts (slice text c index) Ha Hn)
        as (Ha' & Hn').
      split; [now rewrite push_formula_adjacent|].
      intros x Hin. apply in_app_or in Hin as [Hin|[Hin|[]]];
        [now apply Hn'|discriminate].
    - lia.
    - split; [reflexivity|intros ? []]. }
  destruct Hwf as (Ha & Hn). split.
  - intros E. rewrite E in El. discriminate.
  - split; [assumption|]. intros content Hin ->. now destruct (Hn [] Hin).
Qed.

Lemma extendLastTextToken_scans (ts : list DiscordMathToken) (t : jsstring) :
  forall off g,
    formulaScans off g (extendLastTextToken ts t) = formulaScans off g ts
    /\ lastFormulaEnd off g (extendLastTextToken ts t) = lastFormulaEnd off g ts.
Proof.
  induction ts as [|a ts IH]; intros off g; [now split|].
  destruct ts as [|b ts].
  - destruct a; now split.
  - rewrite extendLastTextToken_cons.
    destruct a as [raw x|p]; cbn [formulaScans lastFormulaEnd].
    + destruct (IH (off + length raw) (off + length raw)) as (E3 & E4).
      now rewrite E3, E4.
    + destruct (IH (off + length p) g) as (E1 & E2). now rewrite E1, E2.
Qed.

Lemma appendTextToken_scans (ts : list DiscordMathToken) (t : jsstring)
    (off g : nat) :
  formulaScans off g (appendTextToken ts t) = formulaScans off g ts
  /\ lastFormulaEnd off g (appendTextToken ts t) = lastFormulaEnd off g ts.
Proof.
  unfold appendTextToken. destruct (isEmpty t); [now split|].
  apply extendLastTextToken_scans.
Qed.

Lemma formulaScans_app (ts us : list DiscordMathToken) :
  forall off g,
    formulaScans off g (ts ++ us)
    = formulaScans off g ts
      ++ formulaScans (off + length (concatTokens ts)) (lastFormulaEnd off g ts) us.
Proof.
  induction ts as [|a ts IH]; intros off g.
  - simpl. now rewrite Nat.add_0_r.
  - destruct a as [r x|t]; cbn [app formulaScans lastFormulaEnd]; rewrite IH;
      unfold concatTokens; cbn [map concat tokenText];
      rewrite length_app, Nat.add_assoc; reflexivity.
Qed.

Lemma lastFormulaEnd_snoc (ts : list DiscordMathToken) (raw e : jsstring) :
  forall off g,
    lastFormulaEnd off g (ts ++ [FormulaToken raw e])
    = off + length (concatTokens ts) + length raw.
Proof.
  induction ts as [|a ts IH]; intros off g.
  - simpl. now rewrite Nat.add_0_r.
  - destruct a as [r x|t]; cbn [app lastFormulaEnd]; rewrite IH;
      unfold concatTokens; cbn [map concat tokenText];
      rewrite length_app; lia.
Qed.

Section TokenizerScans.

Variable text : jsstring.
Variable ds : list DelimiterSpec.
Variable inside : option (nat -> bool).
Hypothesis progress : haveMarkers ds.

(** The rule of the loop again, with what the two scans returned in the
    iteration that emits a formula token. *)
Lemma tokenizeLoop_rule_found (Inv : nat -> list DiscordMathToken -> Prop)
    (Post : list DiscordMathToken -> Prop) :
  (forall cursor tokens,
      Inv cursor tokens -> length text <= cursor -> Post tokens) ->
  (forall cursor tokens,
      Inv cursor tokens -> cursor < length text ->
      Post (appendTextToken tokens (sliceFrom text cursor))) ->
  (forall cursor tokens index,
      Inv cursor tokens -> cursor < length text ->
      Post (appendTextToken (appendTextToken tokens (slice text cursor index))
              (sliceFrom text index))) ->
  (forall cursor tokens index d closeIndex,
      Inv cursor tokens -> cursor < length text ->
      findNextOpening text cursor ds inside = Some (index, d) ->
      findClosingIndex text (index + length (open d)) d inside = Some closeIndex ->
      Inv (closeIndex + length (close d))
          (appendTextToken tokens (slice text cursor index)
           ++ [FormulaToken (slice text index (closeIndex + length (close d)))
                 (slice text (index + length (open d)) closeIndex)])) ->
  forall fuel cursor tokens,
    length text - cursor <= fuel ->
    Inv cursor tokens ->
    Post (tokenizeLoop fuel text ds inside cursor tokens).
Proof.
  intros Hdone Hnone Hunmatched Hformula.
  induction fuel as [|fuel IH]; intros cursor tokens Hfuel Hinv.
  - apply (Hdone cursor); [assumption|lia].
  - cbn [tokenizeLoop].
    destruct (cursor <? length text) eqn:Hlt;
      [apply Nat.ltb_lt in Hlt
      |apply Nat.ltb_ge in Hlt; now apply (Hdone cursor)].
    destruct (findNextOpening text cursor ds inside) as [[index d]|] eqn:Ho;
      [|now apply Hnone].
    cbn zeta. rewrite gap_append.
    destruct (findClosingIndex text (index + length (open d)) d inside)
      as [closeIndex|] eqn:Hc; [|now apply Hunmatched].
    destruct (pairFound_intro text ds inside _ _ _ _ Ho Hc) as (Hin & H1 & H2 & _).
    apply IH; [|now apply Hformula].
    specialize (progress d Hin). lia.
Qed.

Lemma tokenizeLoop_scans (fuel : nat) :
  length text <= fuel ->
  Forall (scannedAt text ds inside) (formulaScans 0 0 (tokenizeLoop fuel text ds inside 0 [])).
Proof.
  intros Hfuel.
  apply (tokenizeLoop_rule_found
           (fun c ts => coversPrefix text c ts
                        /\ lastFormulaEnd 0 0 ts = c
                        /\ Forall (scannedAt text ds inside) (formulaScans 0 0 ts))
           (fun r => Forall (scannedAt text ds inside) (formulaScans 0 0 r)))
    with (cursor := 0).
  - now intros c ts (_ & _ & H) _.
  - intros c ts (_ & _ & H) _.
    now rewrite (proj1 (appendTextToken_scans _ _ _ _)).
  - intros c ts index (_ & _ & H) _.
    now rewrite !(proj1 (appendTextToken_scans _ _ _ _)).
  - intros c ts index d closeIndex (Hcov & Hlast & H) _ Ho Hc.
    pose proof (pairFound_intro text ds inside _ _ _ _ Ho Hc) as Hp.
    destruct (coversPrefix_formula text ds inside _ _ _ _ _ Hcov Hp)
      as (Hgap & Hcov').
    destruct Hp as (Hin & H1 & H2 & H3 & Hvo & Hvc).
    assert (Hlen : length (firstn index text) = index)
      by (rewrite length_firstn; lia).
    split; [assumption|]. split.
    + rewrite lastFormulaEnd_snoc, Hgap, Hlen, length_slice by lia. lia.
    + rewrite formulaScans_app.
      rewrite (proj1 (appendTextToken_scans _ _ _ _)).
      rewrite (proj2 (appendTextToken_scans _ _ _ _)), Hlast, Hgap, Hlen.
      apply Forall_app. split; [assumption|]. constructor; [|constructor].
      cbn [Nat.add]. exists d.
      rewrite length_slice by lia.
      replace (index + length (open d) + (closeIndex - (index + length (open d))))
        with closeIndex by lia.
      split; [assumption|]. split; [assumption|].
      assert (Eo : slice text index (index + length (open d)) = open d).
      { apply occursAt_slice. unfold validAt in Hvo.
        now apply andb_true_iff in Hvo as [? _]. }
      assert (Ec : slice text closeIndex (closeIndex + length (close d)) = close d).
      { apply occursAt_slice. unfold validAt in Hvc.
        now apply andb_true_iff in Hvc as [? _]. }
      rewrite <- Eo at 1. rewrite <- Ec at 2.
      rewrite !slice_slice by lia. reflexivity.
  - lia.
  - split; [apply coversPrefix_start|]. split; [reflexivity|constructor].
Qed.

End TokenizerScans.

(** X4. Tokenization is greedy. A formula token stands at the first valid
    opening found from the end of the formula token before it (from the start
    of the text for the first): no active delimiter has a valid open marker
    between the two. It ends at the first valid close marker of its delimiter
    after its open marker, so its expression holds no valid close marker; and
    it is the open marker, the expression and the close marker. *)
Theorem tokenization_is_greedy (text : jsstring)
    (cfg : ResolvedDiscordMathImageConfig)
    (pre post : list DiscordMathToken) (raw e : jsstring) :
  tokenizeMathText text cfg = pre ++ FormulaToken raw e :: post ->
  let active := activeDelimitersOf cfg in
  let inside := codePredicateOf text cfg in
  let start := lastFormulaEnd 0 0 pre in
  let offset := length (concatTokens pre) in
  exists d,
    In d active
    /\ raw = open d ++ e ++ close d
    /\ earliestValid (open d) text inside start offset
    /\ (forall d' j, In d' active -> start <= j < offset ->
          validAt (open d') text inside j = false)
    /\ earliestValid (close d) text inside
         (offset + length (open d)) (offset + length (open d) + length e).
Proof.
  intros Hsplit active inside start offset.
  assert (Hin : In (start, offset, raw, e)
                  (formulaScans 0 0 (tokenizeMathText text cfg))).
  { rewrite Hsplit, formulaScans_app. apply in_or_app. right. now left. }
  assert (Hall : Forall (scannedAt text active inside)
                   (formulaScans 0 0 (tokenizeMathText text cfg))).
  { destruct (tokenizeMathText_cases text cfg) as [-> | ->]; [constructor|].
    apply tokenizeLoop_scans; [apply haveMarkers_active|lia]. }
  rewrite Forall_forall in Hall. destruct (Hall _ Hin) as (d & Ho & Hc & Hraw).
  destruct (findNextOpening_Some _ _ _ _ _ _ Ho) as (Hd & Hearly & Hmin).
  exists d. split; [assumption|]. split; [assumption|]. split; [assumption|].
  split; [|now apply findClosingIndex_Some in Hc].
  intros d' j Hd' Hj.
  destruct (validAt (open d') text inside j) eqn:Hv; [|reflexivity].
  destruct Hearly as (Hr & _).
  assert (offset <= j) by (apply (Hmin d' j Hd'); [lia|exact Hv]). lia.
Qed.

(** ** Configuration *)

Lemma includesKind_In (kinds : list DelimiterKind) (k : DelimiterKind) :
  includesKind kinds k = true <-> In k kinds.
Proof.
  unfold includesKind. rewrite existsb_exists. split.
  - intros (x & Hin & E). destruct k, x; try discriminate; assumption.
  - intros Hin. exists k. split; [assumption|now destruct k].
Qed.

Lemma activeDelimitersOf_ext (c1 c2 : ResolvedDiscordMathImageConfig) :
  (forall k, In k (delimiters c1) <-> In k (delimiters c2)) ->
  activeDelimitersOf c1 = activeDelimitersOf c2.
Proof.
  intros Hsame. unfold activeDelimitersOf. apply filter_ext. intros d.
  destruct (includesKind (delimiters c1) (kind d)) eqn:E1,
           (includesKind (delimiters c2) (kind d)) eqn:E2; try reflexivity.
  - apply includesKind_In, Hsame, includesKind_In in E1. congruence.
  - apply includesKind_In, Hsame, includesKind_In in E2. congruence.
Qed.

(** X5. The order of the configured delimiter kinds, and their repetitions,
    do not matter: two configurations that name the same kinds and agree on
    [excludeCode] give the same tokens. *)
Theorem delimiter_order_is_irrelevant (text : jsstring)
    (c1 c2 : ResolvedDiscordMathImageConfig) :
  (forall k, In k (delimiters c1) <-> In k (delimiters c2)) ->
  excludeCode c1 = excludeCode c2 ->
  tokenizeMathText text c1 = tokenizeMathText text c2.
Proof.
  intros Hsame Hex. unfold tokenizeMathText, codePredicateOf.
  now rewrite (activeDelimitersOf_ext c1 c2 Hsame), Hex.
Qed.

Lemma filterDelimiterKinds_In (names : list string) (k : DelimiterKind) :
  In k (filterDelimiterKinds names)
  <-> exists name, In name names /\ delimiterKindOfString name = Some k.
Proof.
  induction names as [|n names IH]; simpl.
  - split; [intros []|intros (? & [] & _)].
  - destruct (delimiterKindOfString n) as [k'|] eqn:E.
    + split.
      * intros [<-|H]; [exists n; auto|].
        apply IH in H as (name & Hin & Hk). exists name. auto.
      * intros (name & [<-|Hin] & Hk); [left; congruence|].
        right. apply IH. eauto.
    + rewrite IH. split.
      * intros (name & Hin & Hk). exists name. auto.
      * intros (name & [<-|Hin] & Hk); [congruence|eauto].
Qed.

(** X6. Which delimiters a configuration input activates. Only the names
    [double-dollar] and [bracket] are recognized; a kind is active when the
    input names it, or when the input names no recognized kind at all (both
    kinds are then active); and the active set is never empty, so the
    tokenizer always scans. *)
Theorem active_delimiters_of_input (ci : option DiscordMathImageConfig) :
  let cfg := resolveDiscordMathImageConfig ci in
  activeDelimitersOf cfg <> []
  /\ (forall d, In d (activeDelimitersOf cfg)
        <-> In d DELIMITER_SPECS /\ In (kind d) (delimiters cfg))
  /\ (forall k, In k (delimiters cfg)
        <-> (exists name, In name (inputDelimiters ci)
                          /\ delimiterKindOfString name = Some k)
            \/ (forall name, In name (inputDelimiters ci) ->
                  delimiterKindOfString name = None))
  /\ forall name k,
       delimiterKindOfString name = Some k
       <-> (name = "double-dollar"%string /\ k = DoubleDollar)
           \/ (name = "bracket"%string /\ k = Bracket).
Proof.
  cbn zeta.
  assert (Hact : forall d, In d (activeDelimitersOf (resolveDiscordMathImageConfig ci))
                   <-> In d DELIMITER_SPECS
                       /\ In (kind d) (delimiters (resolveDiscordMathImageConfig ci))).
  { intros d. unfold activeDelimitersOf. rewrite filter_In.
    now rewrite includesKind_In. }
  assert (Hres : delimiters (resolveDiscordMathImageConfig ci)
                 = if 0 <? length (filterDelimiterKinds (inputDelimiters ci))
                   then filterDelimiterKinds (inputDelimiters ci)
                   else DEFAULT_DELIMITERS).
  { unfold resolveDiscordMathImageConfig, inputDelimiters. cbn [delimiters].
    destruct ci as [c|]; [|reflexivity].
    destruct (in_delimiters c); reflexivity. }
  assert (Hkinds : forall k, In k (delimiters (resolveDiscordMathImageConfig ci))
                     <-> (exists name, In name (inputDelimiters ci)
                                       /\ delimiterKindOfString name = Some k)
                         \/ (forall name, In name (inputDelimiters ci) ->
                               delimiterKindOfString name = None)).
  { intros k. rewrite Hres.
    destruct (filterDelimiterKinds (inputDelimiters ci)) as [|k0 ks] eqn:Ef;
      cbn [length Nat.ltb Nat.leb].
    - split.
      + intros _. right. intros name Hin.
        destruct (delimiterKindOfString name) as [k'|] eqn:E; [|reflexivity].
        assert (H : In k' (filterDelimiterKinds (inputDelimiters ci)))
          by (apply filterDelimiterKinds_In; eauto).
        rewrite Ef in H. destruct H.
      + intros _. destruct k; simpl; auto.
    - rewrite <- Ef, filterDelimiterKinds_In. split; [now left|].
      intros [H|H]; [assumption|].
      assert (Hk0 : In k0 (filterDelimiterKinds (inputDelimiters ci)))
        by (rewrite Ef; now left).
      apply filterDelimiterKinds_In in Hk0 as (name & Hin & Hk).
      rewrite (H name Hin) in Hk. discriminate. }
  split; [|split; [exact Hact|split; [exact Hkinds|]]].
  - intros Hnil.
    assert (Hex : exists k, In k (delimiters (resolveDiscordMathImageConfig ci))).
    { rewrite Hres.
      destruct (filterDelimiterKinds (inputDelimiters ci)) as [|k0 ks];
        cbn [length Nat.ltb Nat.leb];
        [exists DoubleDollar; now left|exists k0; now left]. }
    destruct Hex as (k & Hk).
    assert (Hd : exists d, In d DELIMITER_SPECS /\ kind d = k).
    { destruct k.
      - exists {| kind := DoubleDollar; open := lit "$$"; close := lit "$$" |}.
        split; [now left|reflexivity].
      - exists {| kind := Bracket; open := [backslash; "["%char];
                  close := [backslash; "]"%char] |}.
        split; [right; now left|reflexivity]. }
    destruct Hd as (d & Hd & <-).
    assert (Hin : In d (activeDelimitersOf (resolveDiscordMathImageConfig ci)))
      by (apply Hact; auto).
    rewrite Hnil in Hin. destruct Hin.
  - intros name k. unfold delimiterKindOfString.
    destruct (String.eqb name "double-dollar") eqn:E1.
    + apply String.eqb_eq in E1. subst name.
      split; [intros [= <-]; auto|intros [[_ ->]|[H _]]; [reflexivity|discriminate]].
    + destruct (String.eqb name "bracket") eqn:E2.
      * apply String.eqb_eq in E2. subst name.
        split; [intros [= <-]; auto|intros [[H _]|[_ ->]]; [discriminate|reflexivity]].
      * apply String.eqb_neq in E1, E2.
        split; [discriminate|intros [[H _]|[H _]]; contradiction].
Qed.

(** X7. A numeric field that holds a positive integer resolves to that
    integer: the three limits of the input are kept as they are. *)
Theorem positive_integer_is_kept (c : DiscordMathImageConfig) (q : Q) (z : Z) :
  (0 < z)%Z ->
  (q == inject_Z z)%Q ->
  let r := resolveDiscordMathImageConfig (Some c) in
  (in_maxExpressionsPerReply c = Num (Finite q) -> maxExpressionsPerReply r = z)
  /\ (in_maxCharsPerExpression c = Num (Finite q) -> maxCharsPerExpression r = z)
  /\ (in_maxImageWidthPx c = Num (Finite q) -> maxImageWidthPx r = z).
Proof.
  intros Hz Hq.
  assert (H : forall d, normalizePositiveInt (Num (Finite q)) d = z).
  { intros d. unfold normalizePositiveInt. cbn zeta.
    assert (E : Qfloor q = z) by (rewrite Hq; apply Qfloor_Z).
    rewrite E. apply Z.ltb_lt in Hz. now rewrite Hz. }
  cbn zeta. unfold resolveDiscordMathImageConfig.
  cbn [maxExpressionsPerReply maxCharsPerExpression maxImageWidthPx].
  repeat split; intros ->; apply H.
Qed.

(** ** Segment builder *)

(** X8. A reply without formulas passes through: when the feature is
    disabled, or the text is empty, or no active delimiter has an open marker
    outside code, the result is the text as one text segment, no math image
    is announced, the renderer is not called and nothing is logged. *)
Theorem plain_reply_passes_through (text : jsstring)
    (configInput : option DiscordMathImageConfig)
    (deps : BuildDiscordMathSegmentsDeps) (w : World RendererState) :
  let cfg := resolveDiscordMathImageConfig configInput in
  enabled cfg = false
  \/ text = []
  \/ (forall d j, In d (activeDelimitersOf cfg) -> j < length text ->
        validAt (open d) text (codePredicateOf text cfg) j = false) ->
  buildDiscordMathSegments text configInput deps w
  = (inr {| segments := [TextSegment text];
            hasMathImages := false;
            config := cfg |}, w).
Proof.
  intros cfg H. unfold buildDiscordMathSegments. fold cfg.
  destruct (enabled cfg); [|reflexivity]. cbn [negb orb].
  destruct (isEmpty text) eqn:Et; [reflexivity|].
  destruct H as [H|[-> |H]]; [discriminate|discriminate|].
  now rewrite (tokenizeMathText_plain text cfg H).
Qed.

(** X9. The flag agrees with the segments, and the configuration returned is
    the resolved one: in the result that the build returns (it returns one
    unless it is rejected with what the [catch] block threw),
    [hasMathImages] is true exactly when the result has a math-image
    segment. *)
Theorem flag_agrees_with_segments (text : jsstring)
    (configInput : option DiscordMathImageConfig)
    (deps : BuildDiscordMathSegmentsDeps) (w : World RendererState) :
  (exists r w',
     buildDiscordMathSegments text configInput deps w = (inr r, w')
     /\ config r = resolveDiscordMathImageConfig configInput
     /\ hasMathImages r = existsb isMathImage (segments r)
     /\ (hasMathImages r = true
         <-> exists f e b name, In (MathImageSegment f e b name) (segments r)))
  \/ rejectedInCatch text configInput deps w.
Proof.
  destruct (build_cases text configInput deps w)
    as [(r & w' & E & Hcfg & Hcases)|(Hrej & _)]; [left|right; exact Hrej].
  exists r, w'. split; [assumption|]. split; [assumption|].
  assert (Hflag : hasMathImages r = existsb isMathImage (segments r)).
  { destruct Hcases as [(Hs & -> & _)|(_ & _ & _ & _ & Hf & _)];
      [now rewrite Hs|assumption]. }
  split; [assumption|]. rewrite Hflag, existsb_exists. split.
  - intros ([t|f e b name] & Hin & Hi); [discriminate|eauto].
  - intros (f & e & b & name & Hin). eexists. split; [eassumption|reflexivity].
Qed.

(** X10. Whatever the render calls do, the result has at most
    [maxExpressionsPerReply] math images, and the expression of each is
    within [maxCharsPerExpression]. The build returns a result unless it is
    rejected with what the [catch] block threw. *)
Theorem images_are_within_limits (text : jsstring)
    (configInput : option DiscordMathImageConfig)
    (deps : BuildDiscordMathSegmentsDeps) (w : World RendererState) :
  let cfg := resolveDiscordMathImageConfig configInput in
  (exists r w',
     buildDiscordMathSegments text configInput deps w = (inr r, w')
     /\ (Z.of_nat (length (mathImages (segments r)))
         <= maxExpressionsPerReply cfg)%Z
     /\ forall f e b name,
          In (MathImageSegment f e b name) (segments r) ->
          (Z.of_nat (length e) <= maxCharsPerExpression cfg)%Z)
  \/ rejectedInCatch text configInput deps w.
Proof.
  intros cfg.
  assert (Hk : (0 < maxExpressionsPerReply cfg)%Z).
  { unfold cfg, resolveDiscordMathImageConfig. cbn [maxExpressionsPerReply].
    now apply normalizePositiveInt_positive. }
  destruct (build_cases text configInput deps w)
    as [(r & w' & E & _ & [(Hs & _)|(_ & _ & _ & _ & _ & n & Hrun)])
       |(Hrej & _)]; [left|left|right; exact Hrej];
    exists r, w'; (split; [assumption|]).
  - rewrite Hs. split; [cbn [mathImages flat_map app length]; lia|].
    intros f e b name [H|[]]. discriminate H.
  - fold cfg in Hrun.
    assert (Hinv : (n = Z.of_nat (length (mathImages (segments r)))
                    /\ n <= maxExpressionsPerReply cfg)%Z
                   /\ forall f e b name,
                        In (MathImageSegment f e b name) (segments r) ->
                        (Z.of_nat (length e) <= maxCharsPerExpression cfg)%Z).
    { revert Hrun.
      apply (processTokens_invariant cfg _
               (fun _ sg m _ =>
                  (m = Z.of_nat (length (mathImages sg))
                   /\ m <= maxExpressionsPerReply cfg)%Z
                  /\ forall f e b name,
                       In (MathImageSegment f e b name) sg ->
                       (Z.of_nat (length e) <= maxCharsPerExpression cfg)%Z)).
      - intros done token sg m v sg' m' v' ((Hm & Hle) & Hlen) _ Hout.
        assert (Happ : forall t,
                   (m = Z.of_nat (length (mathImages (appendMathTextSegment sg t)))
                    /\ m <= maxExpressionsPerReply cfg)%Z
                   /\ forall f e b name,
                        In (MathImageSegment f e b name)
                          (appendMathTextSegment sg t) ->
                        (Z.of_nat (length e) <= maxCharsPerExpression cfg)%Z).
        { intros t. rewrite appendMathTextSegment_images. split; [now split|].
          intros f e b name H. apply appendMathTextSegment_In_image in H.
          now apply (Hlen f e b name). }
        destruct Hout as [t|raw e _|raw e _ _|raw e b s Hlt Hl _
                         |raw e err s str s1 s2 _ _ _ _ _]; try apply Happ.
        rewrite mathImages_snoc, length_app. cbn [length]. split; [split; lia|].
        intros f x y name Hin.
        apply in_app_or in Hin as [Hin|[[= _ <- _ _]|[]]];
          [now apply (Hlen f x y name)|assumption].
      - split; [split; [reflexivity|lia]|intros ? ? ? ? []]. }
    destruct Hinv as ((-> & Hle) & Hlen). now split.
Qed.

Lemma extendLastTextSegment_buffers (segs : list DiscordMathSegment)
    (t : jsstring) :
  imageBuffers (extendLastTextSegment segs t) = imageBuffers segs.
Proof.
  induction segs as [|a segs IH]; [reflexivity|].
  destruct segs as [|b segs].
  - destruct a; reflexivity.
  - rewrite extendLastTextSegment_cons.
    change (a :: extendLastTextSegment (b :: segs) t)
      with ([a] ++ extendLastTextSegment (b :: segs) t).
    change (a :: b :: segs) with ([a] ++ b :: segs).
    unfold imageBuffers in *. now rewrite !flat_map_app, IH.
Qed.

Lemma appendMathTextSegment_buffers (segs : list DiscordMathSegment)
    (t : jsstring) :
  imageBuffers (appendMathTextSegment segs t) = imageBuffers segs.
Proof.
  unfold appendMathTextSegment. destruct (isEmpty t); [reflexivity|].
  apply extendLastTextSegment_buffers.
Qed.

Lemma imageBuffers_snoc (segs : list DiscordMathSegment) (f e : jsstring)
    (b : Buffer) (name : jsstring) :
  imageBuffers (segs ++ [MathImageSegment f e b name])
  = imageBuffers segs ++ [(e, b)].
Proof.
  unfold imageBuffers. now rewrite flat_map_app.
Qed.

(** One more call at the end of a replay that did not throw. *)
Lemma replayCalls_snoc (render : Renderer) (calls : list (jsstring * Z))
    (e : jsstring) (width : Z) :
  forall s images s1,
    replayCalls render calls s = (inr images, s1) ->
    replayCalls render (calls ++ [(e, width)]) s
    = match render e width s1 with
      | (inr b, s2) => (inr (images ++ [(e, b)]), s2)
      | (inl error, s2) =>
          match stringOfError error s2 with
          | (inl thrown, s3) => (inl thrown, s3)
          | (inr errorString, s3) =>
              match verboseLogger (renderFailedMessage errorString) s3 with
              | (inr _, s4) => (inr images, s4)
              | (inl thrown, s4) => (inl thrown, s4)
              end
          end
      end.
Proof.
  induction calls as [|[e0 width0] calls IH]; intros s images s1 H.
  - cbn [replayCalls] in H. injection H as <- <-. cbn [app replayCalls].
    destruct (render e width s) as [[error|b] s2]; [|reflexivity].
    destruct (stringOfError error s2) as [[t|str] s3]; [reflexivity|].
    destruct (verboseLogger (renderFailedMessage str) s3) as [[t|u] s4];
      reflexivity.
  - cbn [app replayCalls] in *.
    destruct (render e0 width0 s) as [[error|b] s2].
    + destruct (stringOfError error s2) as [[t|str] s3]; [discriminate H|].
      destruct (verboseLogger (renderFailedMessage str) s3) as [[t|u] s4];
        [discriminate H|now apply IH].
    + destruct (replayCalls render calls s2) as [[t|images'] s3] eqn:E;
        [discriminate H|].
      injection H as <- <-. rewrite (IH s2 images' s3 E).
      destruct (render e width s3) as [[error|b'] s4]; [|reflexivity].
      destruct (stringOfError error s4) as [[t|str] s5]; [reflexivity|].
      destruct (verboseLogger (renderFailedMessage str) s5) as [[t|u] s6];
        reflexivity.
Qed.

(** X13. Every image in the result was returned by the renderer in a call
    of this build. The render calls that the build made, made one after the
    other from the state in which the build starts (each rejected call
    followed by the [String(error)] and the [logVerbose] of its [catch]
    block), give what the build gives: when the build returns a result, the
    calls that returned gave the buffers of its math images, each for the
    expression of its image and in their order, and nothing else; when the
    build is rejected, the last of these calls was rejected and its [catch]
    block threw what the build is rejected with. They leave the state in
    which the build ends, and each was made with the resolved
    [maxImageWidthPx]. *)
Theorem images_come_from_the_renderer (text : jsstring)
    (configInput : option DiscordMathImageConfig)
    (deps : BuildDiscordMathSegmentsDeps) (w : World RendererState) :
  let cfg := resolveDiscordMathImageConfig configInput in
  let render := orElse (renderFormulaPng deps) renderFormulaPngDefault in
  exists outcome w' calls,
    buildDiscordMathSegments text configInput deps w = (outcome, w')
    /\ renderCalls w' = renderCalls w ++ calls
    /\ (forall e width, In (e, width) calls -> width = maxImageWidthPx cfg)
    /\ replayCalls render calls (rendererState w)
       = (match outcome with
          | inr r => inr (imageBuffers (segments r))
          | inl thrown => inl thrown
          end,
          rendererState w').
Proof.
  intros cfg render.
  set (Inv := fun (_ : list DiscordMathToken) (sg : list DiscordMathSegment)
                  (_ : Z) (v : World RendererState) =>
                exists calls,
                  renderCalls v = renderCalls w ++ calls
                  /\ (forall e width, In (e, width) calls ->
                        width = maxImageWidthPx cfg)
                  /\ replayCalls render calls (rendererState w)
                     = (inr (imageBuffers sg), rendererState v)).
  assert (Hnew : forall (calls : list (jsstring * Z)) e e' width,
             (forall e0 width0, In (e0, width0) calls ->
                width0 = maxImageWidthPx cfg) ->
             In (e', width) (calls ++ [(e, maxImageWidthPx cfg)]) ->
             width = maxImageWidthPx cfg).
  { intros calls e e' width Hwidth H.
    apply in_app_or in H as [H|[[= _ <-]|[]]]; eauto. }
  assert (Hstep : forall done token sg m v sg' m' v',
             Inv done sg m v ->
             In token (tokenizeMathText text cfg) ->
             tokenOutcome cfg render sg m v token sg' m' v' ->
             Inv (done ++ [token]) sg' m' v').
  { intros done token sg m v sg' m' v' (calls & Hc & Hwidth & Hreplay) _ Hout.
    destruct Hout as [t|raw e _|raw e _ _|raw e b s _ _ Hr
                     |raw e err s str s1 s2 _ _ Hr Hs Hv];
      unfold Inv; rewrite ?appendMathTextSegment_buffers.
    - now exists calls.
    - now exists calls.
    - now exists calls.
    - exists (calls ++ [(e, maxImageWidthPx cfg)]).
      cbn [renderCalls rendererState afterRender].
      split; [now rewrite Hc, app_assoc|]. split; [exact (fun e' width' => Hnew calls e e' width' Hwidth)|].
      rewrite (replayCalls_snoc render calls e _ _ _ _ Hreplay), Hr.
      now rewrite imageBuffers_snoc.
    - exists (calls ++ [(e, maxImageWidthPx cfg)]).
      cbn [renderCalls rendererState afterRender afterLog].
      split; [now rewrite Hc, app_assoc|]. split; [exact (fun e' width' => Hnew calls e e' width' Hwidth)|].
      rewrite (replayCalls_snoc render calls e _ _ _ _ Hreplay), Hr, Hs, Hv.
      reflexivity. }
  assert (Hinit : Inv [] [] 0%Z w).
  { exists []. rewrite app_nil_r.
    split; [reflexivity|]. split; [intros ? ? []|reflexivity]. }
  destruct (build_cases text configInput deps w)
    as [(r & w' & E & _ & [(Hs & _ & -> & _)|(_ & _ & _ & _ & _ & n & Hrun)])
       |(_ & thrown & w' & E & Hrun)].
  - exists (inr r), w, []. split; [assumption|]. rewrite Hs, app_nil_r.
    split; [reflexivity|]. split; [intros ? ? []|reflexivity].
  - fold cfg render in Hrun.
    destruct (processTokens_invariant cfg render Inv _ _ _ _ _ _ _
                Hstep Hinit Hrun) as (calls & H).
    now exists (inr r), w', calls.
  - fold cfg render in Hrun.
    destruct (processTokens_thrown cfg render Inv _ _ _ _ _ _
                Hstep Hinit Hrun)
      as (done & token & sg & m & v & _ & (calls & Hc & Hwidth & Hreplay)
          & Hthrow).
    destruct Hthrow as [raw e err s t s1 _ _ Hr Hs
                       |raw e err s str s1 t s2 _ _ Hr Hs Hv];
      eexists (inl t), _, (calls ++ [(e, maxImageWidthPx cfg)]);
      (split; [exact E|]);
      cbn [renderCalls rendererState afterRender afterLog];
      (split; [now rewrite Hc, app_assoc|]); (split; [exact (fun e' width' => Hnew calls e e' width' Hwidth)|]);
      rewrite (replayCalls_snoc render calls e _ _ _ _ Hreplay), Hr, Hs;
      [reflexivity|now rewrite Hv].
Qed.

Lemma processTokens_well_formed (cfg : ResolvedDiscordMathImageConfig)
    (render : Renderer) (tokens : list DiscordMathToken)
    (segs : list DiscordMathSegment) (n : Z) (w w' : World RendererState) :
  processTokens cfg render tokens ([], 0%Z) w = (inr (segs, n), w') ->
  adjacentText segs = false
  /\ forall c, In (TextSegment c) segs -> c <> [].
Proof.
  apply (processTokens_invariant cfg render
           (fun _ sg _ _ =>
              adjacentText sg = false
              /\ forall c, In (TextSegment c) sg -> c <> [])).
  - intros done token sg m v sg' m' v' (Hadj & Hnon) _ Hout.
    destruct Hout; try now apply appendMathTextSegment_well_formed.
    split; [now rewrite push_image_adjacent|].
    intros c Hin. apply in_app_or in Hin as [Hin|[Hin|[]]];
      [now apply Hnon|discriminate].
  - split; [reflexivity|intros ? []].
Qed.

(** X14. A result without math images is the input itself: when no formula
    was rendered (none found, all over a limit, or every render call
    rejected), the segments are the one text segment that carries the whole
    text. The build returns a result unless it is rejected with what the
    [catch] block threw. *)
Theorem no_image_means_the_text_itself (text : jsstring)
    (configInput : option DiscordMathImageConfig)
    (deps : BuildDiscordMathSegmentsDeps) (w : World RendererState) :
  (exists r w',
     buildDiscordMathSegments text configInput deps w = (inr r, w')
     /\ (mathImages (segments r) = [] ->
         segments r = [TextSegment text] /\ hasMathImages r = false))
  \/ rejectedInCatch text configInput deps w.
Proof.
  destruct (build_cases text configInput deps w)
    as [(r & w' & E & _ & [(Hs & Hf & _)|(_ & _ & _ & Hne & Hf & n & Hrun)])
       |(Hrej & _)]; [left|left|right; exact Hrej];
    exists r, w'; (split; [assumption|]); intros Hnone.
  - now split.
  - destruct (processTokens_well_formed _ _ _ _ _ _ _ Hrun) as (Hadj & _).
    destruct (processTokens_faithful _ _ _ _ _ _ _ Hrun) as (Hcat & _).
    rewrite tokenizeMathText_concat in Hcat.
    destruct (segments r) as [|a [|b rest]] eqn:Es; [contradiction| |].
    + destruct a as [c|f e x name]; [|discriminate Hnone].
      unfold concatSegments in Hcat. simpl in Hcat. rewrite app_nil_r in Hcat.
      subst c. split; [reflexivity|]. now rewrite Hf.
    + destruct a as [c|f e x name]; [|discriminate Hnone].
      destruct b as [c'|f e x name]; [discriminate Hadj|discriminate Hnone].
Qed.

Lemma extendLastTextSegment_names (segs : list DiscordMathSegment) (t : jsstring) :
  imageFileNames (extendLastTextSegment segs t) = imageFileNames segs.
Proof.
  induction segs as [|a segs IH]; [reflexivity|].
  destruct segs as [|b segs].
  - destruct a; reflexivity.
  - rewrite extendLastTextSegment_cons.
    change (a :: extendLastTextSegment (b :: segs) t)
      with ([a] ++ extendLastTextSegment (b :: segs) t).
    change (a :: b :: segs) with ([a] ++ b :: segs).
    unfold imageFileNames in *. now rewrite !flat_map_app, IH.
Qed.

Lemma appendMathTextSegment_names (segs : list DiscordMathSegment) (t : jsstring) :
  imageFileNames (appendMathTextSegment segs t) = imageFileNames segs.
Proof.
  unfold appendMathTextSegment. destruct (isEmpty t); [reflexivity|].
  apply extendLastTextSegment_names.
Qed.

Lemma imageFileNames_snoc (segs : list DiscordMathSegment) (f e : jsstring)
    (b : Buffer) (name : jsstring) :
  imageFileNames (segs ++ [MathImageSegment f e b name])
  = imageFileNames segs ++ [name].
Proof.
  unfold imageFileNames. now rewrite flat_map_app.
Qed.

Lemma imageFileNames_length (segs : list DiscordMathSegment) :
  length (imageFileNames segs) = length (mathImages segs).
Proof.
  induction segs as [|[t|f e b name] segs IH]; simpl; auto.
Qed.

Lemma lit_inj (a b : string) : lit a = lit b -> a = b.
Proof.
  unfold lit. intros H.
  rewrite <- (string_of_list_ascii_of_string a),
          <- (string_of_list_ascii_of_string b).
  now rewrite H.
Qed.

Lemma stringOfCount_inj (a b : Z) : stringOfCount a = stringOfCount b -> a = b.
Proof.
  unfold stringOfCount. intros H. apply lit_inj in H.
  assert (Hnn : forall z, Z.to_int z <> Decimal.Pos Decimal.Nil
                          /\ Z.to_int z <> Decimal.Neg Decimal.Nil).
  { intros [|p|p]; simpl; split; try discriminate;
      intros [= E]; now apply DecimalPos.Unsigned.to_uint_nonnil in E. }
  apply DecimalZ.to_int_inj.
  assert (E : Some (Z.to_int a) = Some (Z.to_int b)).
  { rewrite <- (NilZero.isi (Z.to_int a)), <- (NilZero.isi (Z.to_int b));
      try apply Hnn. now rewrite H. }
  now injection E.
Qed.

Lemma fileNameOf_inj (a b : Z) : fileNameOf a = fileNameOf b -> a = b.
Proof.
  unfold fileNameOf. intros H.
  apply app_inv_head in H. apply app_inv_head in H. apply app_inv_tail in H.
  now apply stringOfCount_inj.
Qed.

Lemma NoDup_map_injective {A B : Type} (f : A -> B) (l : list A) :
  (forall x y, f x = f y -> x = y) -> NoDup l -> NoDup (map f l).
Proof.
  intros Hinj Hnd. induction Hnd as [|x l Hx Hnd IH]; simpl; constructor.
  - intros Hin. apply in_map_iff in Hin as (y & Hy & Hin).
    apply Hinj in Hy. now subst y.
  - assumption.
Qed.

(** X11. The math images of a result are named [equation-1.png],
    [equation-2.png], ... in their order: the name of the i-th image is made
    from the ordinal i, and no two images of a result share a file name. The
    build returns a result unless it is rejected with what the [catch] block
    threw. *)
Theorem file_names_are_ordinals (text : jsstring)
    (configInput : option DiscordMathImageConfig)
    (deps : BuildDiscordMathSegmentsDeps) (w : World RendererState) :
  (exists r w',
     buildDiscordMathSegments text configInput deps w = (inr r, w')
     /\ imageFileNames (segments r)
        = map (fun i => lit "equation-" ++ stringOfCount (Z.of_nat i)
                        ++ lit ".png")
            (seq 1 (length (mathImages (segments r))))
     /\ NoDup (imageFileNames (segments r)))
  \/ rejectedInCatch text configInput deps w.
Proof.
  assert (Hname : forall i,
             lit "equation-" ++ stringOfCount (Z.of_nat i) ++ lit ".png"
             = fileNameOf (Z.of_nat i)) by reflexivity.
  assert (Hnodup : forall m,
             NoDup (map (fun i => lit "equation-" ++ stringOfCount (Z.of_nat i)
                                  ++ lit ".png") (seq 1 m))).
  { intros m. apply NoDup_map_injective; [|apply seq_NoDup].
    intros x y H. rewrite !Hname in H. apply fileNameOf_inj in H. lia. }
  destruct (build_cases text configInput deps w)
    as [(r & w' & E & _ & [(Hs & _)|(_ & _ & _ & _ & _ & n & Hrun)])
       |(Hrej & _)]; [left|left|right; exact Hrej];
    exists r, w'; (split; [assumption|]).
  - rewrite Hs. split; [reflexivity|constructor].
  - assert (Hinv : n = Z.of_nat (length (mathImages (segments r)))
                   /\ imageFileNames (segments r)
                      = map (fun i => lit "equation-" ++ stringOfCount (Z.of_nat i)
                                      ++ lit ".png")
                          (seq 1 (length (mathImages (segments r))))).
    { revert Hrun.
      apply (processTokens_invariant _ _
               (fun _ sg m _ =>
                  m = Z.of_nat (length (mathImages sg))
                  /\ imageFileNames sg
                     = map (fun i => lit "equation-" ++ stringOfCount (Z.of_nat i)
                                     ++ lit ".png")
                         (seq 1 (length (mathImages sg))))).
      - intros done token sg m v sg' m' v' (Hm & Hn) _ Hout.
        destruct Hout;
          rewrite ?appendMathTextSegment_images, ?appendMathTextSegment_names;
          try (now split).
        rewrite mathImages_snoc, imageFileNames_snoc, length_app. cbn [length].
        split; [lia|].
        rewrite Nat.add_1_r, seq_S, map_app, <- Hn. cbn [map]. rewrite Hname.
        do 3 f_equal. lia.
      - now split. }
    destruct Hinv as (_ & ->). split; [reflexivity|apply Hnodup].
Qed.

(** X12. The calls that a build makes when it returns a result (it returns
    one unless it is rejected with what the [catch] block threw). The render
    calls and the log only grow; every render call is made with the resolved
    [maxImageWidthPx] on the expression of a formula token of the text;
    every call either gives a math image or one message in the verbose log,
    so the number of calls is the number of images plus the number of
    messages; and every message is the failure message made from the string
    of a thrown value. *)
Theorem calls_are_accounted_for (text : jsstring)
    (configInput : option DiscordMathImageConfig)
    (deps : BuildDiscordMathSegmentsDeps) (w : World RendererState) :
  let cfg := resolveDiscordMathImageConfig configInput in
  let tokens := tokenizeMathText text cfg in
  (exists r w' calls messages,
     buildDiscordMathSegments text configInput deps w = (inr r, w')
     /\ renderCalls w' = renderCalls w ++ calls
     /\ verboseLog w' = verboseLog w ++ messages
     /\ length calls = length (mathImages (segments r)) + length messages
     /\ (forall e width,
           In (e, width) calls ->
           width = maxImageWidthPx cfg
           /\ exists raw, In (FormulaToken raw e) tokens)
     /\ forall message,
          In message messages ->
          exists error s errorString s',
            stringOfError error s = (inr errorString, s')
            /\ message = renderFailedMessage errorString)
  \/ rejectedInCatch text configInput deps w.
Proof.
  intros cfg tokens.
  destruct (build_cases text configInput deps w)
    as [(r & w' & E & _ & [(Hs & _ & -> & _)|(_ & _ & _ & _ & _ & n & Hrun)])
       |(Hrej & _)]; [left|left|right; exact Hrej].
  - exists r, w, [], []. rewrite Hs, !app_nil_r.
    split; [assumption|]. do 3 (split; [reflexivity|]).
    split; [intros ? ? []|intros ? []].
  - fold cfg tokens in Hrun.
    assert (Hinv : exists calls messages,
               renderCalls w' = renderCalls w ++ calls
               /\ verboseLog w' = verboseLog w ++ messages
               /\ length calls = length (mathImages (segments r)) + length messages
               /\ (forall e width,
                     In (e, width) calls ->
                     width = maxImageWidthPx cfg
                     /\ exists raw, In (FormulaToken raw e) tokens)
               /\ forall message,
                    In message messages ->
                    exists error s errorString s',
                      stringOfError error s = (inr errorString, s')
                      /\ message = renderFailedMessage errorString).
    { revert Hrun.
      apply (processTokens_invariant cfg _
               (fun done sg _ v =>
                  exists calls messages,
                    renderCalls v = renderCalls w ++ calls
                    /\ verboseLog v = verboseLog w ++ messages
                    /\ length calls = length (mathImages sg) + length messages
                    /\ (forall e width,
                          In (e, width) calls ->
                          width = maxImageWidthPx cfg
                          /\ exists raw, In (FormulaToken raw e) tokens)
                    /\ forall message,
                         In message messages ->
                         exists error s errorString s',
                           stringOfError error s = (inr errorString, s')
                           /\ message = renderFailedMessage errorString)).
      - intros done token sg m v sg' m' v'
          (calls & messages & Hc & Hl & Hlen & Hcalls & Hmsg) Hin Hout.
        assert (Hnew : forall raw e,
                   In (FormulaToken raw e) tokens ->
                   forall e' width,
                     In (e', width) (calls ++ [(e, maxImageWidthPx cfg)]) ->
                     width = maxImageWidthPx cfg
                     /\ exists raw', In (FormulaToken raw' e') tokens).
        { intros raw e Htok e' width H.
          apply in_app_or in H as [H|[[= <- <-]|[]]]; [auto|].
          split; [reflexivity|now exists raw]. }
        destruct Hout as [t|raw e _|raw e _ _|raw e b s _ _ _
                         |raw e err s str s1 s2 _ _ _ Hs _];
          rewrite ?appendMathTextSegment_images.
        + now exists calls, messages.
        + now exists calls, messages.
        + now exists calls, messages.
        + exists (calls ++ [(e, maxImageWidthPx cfg)]), messages.
          cbn [renderCalls verboseLog afterRender].
          rewrite Hc, Hl, mathImages_snoc, !length_app, app_assoc. cbn [length].
          do 2 (split; [reflexivity|]). split; [lia|].
          split; [now apply (Hnew raw e)|assumption].
        + exists (calls ++ [(e, maxImageWidthPx cfg)]),
                 (messages ++ [renderFailedMessage str]).
          cbn [renderCalls verboseLog afterRender afterLog].
          rewrite Hc, Hl, !length_app, !app_assoc. cbn [length].
          do 2 (split; [reflexivity|]). split; [lia|].
          split; [now apply (Hnew raw e)|].
          intros message H. apply in_app_or in H as [H|[<-|[]]]; eauto 6.
      - exists [], []. rewrite !app_nil_r.
        do 3 (split; [reflexivity|]).
        split; [intros ? ? []|intros ? []]. }
    destruct Hinv as (calls & messages & H).
    exists r, w', calls, messages. now split.
Qed.

Lemma eligible_step (cfg : ResolvedDiscordMathImageConfig)
    (render : Renderer) (rejected : jsstring -> bool)
    (tokens : list DiscordMathToken) :
  (0 < maxExpressionsPerReply cfg)%Z ->
  (forall e s,
      if rejected e
      then exists error s', render e (maxImageWidthPx cfg) s = (inl error, s')
      else exists b s', render e (maxImageWidthPx cfg) s = (inr b, s')) ->
  forall done token sg m v sg' m' v',
    (m = Z.min (Z.of_nat (length (filter (eligible cfg rejected)
                                    (formulaTokens done))))
           (maxExpressionsPerReply cfg)
     /\ mathImages sg
        = firstn (Z.to_nat (maxExpressionsPerReply cfg))
            (filter (eligible cfg rejected) (formulaTokens done))) ->
    In token tokens ->
    tokenOutcome cfg render sg m v token sg' m' v' ->
    m' = Z.min (Z.of_nat (length (filter (eligible cfg rejected)
                                    (formulaTokens (done ++ [token])))))
           (maxExpressionsPerReply cfg)
    /\ mathImages sg'
       = firstn (Z.to_nat (maxExpressionsPerReply cfg))
           (filter (eligible cfg rejected) (formulaTokens (done ++ [token]))).
Proof.
  intros Hk Hclass done token sg m v sg' m' v' (Hm & Himg) _ Hout.
  rewrite formulaTokens_snoc, filter_app.
  set (F := filter (eligible cfg rejected) (formulaTokens done)) in *.
  set (k := Z.to_nat (maxExpressionsPerReply cfg)) in *.
  assert (Hone : forall raw e,
             filter (eligible cfg rejected) [(raw, e)]
             = if eligible cfg rejected (raw, e) then [(raw, e)] else [])
    by reflexivity.
  destruct Hout as [t|raw e Hover|raw e _ Hlong|raw e b s Hunder Hle Hr
                   |raw e err s str s1 s2 _ _ Hr _ _];
    rewrite ?appendMathTextSegment_images.
  - cbn [filter]. rewrite app_nil_r. now split.
  - assert (Hlen : k <= length F) by lia.
    rewrite length_app, firstn_app.
    replace (k - length F) with 0 by lia. cbn [firstn]. rewrite app_nil_r.
    split; [lia|assumption].
  - assert (E : eligible cfg rejected (raw, e : jsstring) = false).
    { unfold eligible. cbn [snd].
      apply andb_false_intro1. now apply Z.leb_gt. }
    rewrite (Hone raw e), E, app_nil_r. now split.
  - assert (E : eligible cfg rejected (raw, e : jsstring) = true).
    { unfold eligible. cbn [snd]. apply andb_true_intro. split.
      - now apply Z.leb_le.
      - specialize (Hclass e (rendererState v)).
        destruct (rejected e); [|reflexivity].
        destruct Hclass as (error & s' & Hf). congruence. }
    assert (Hlen : length F < k) by lia.
    rewrite (Hone raw e), E, length_app, mathImages_snoc. cbn [length].
    rewrite firstn_all2 by (rewrite length_app; simpl; lia).
    rewrite firstn_all2 in Himg by lia.
    split; [lia|now rewrite Himg].
  - assert (E : eligible cfg rejected (raw, e : jsstring) = false).
    { unfold eligible. cbn [snd]. apply andb_false_intro2.
      specialize (Hclass e (rendererState v)).
      destruct (rejected e); [reflexivity|].
      destruct Hclass as (b & s' & Hf). congruence. }
    rewrite (Hone raw e), E, app_nil_r. now split.
Qed.

(** X23. The fallback for a rejected render call is local, and the build
    returns when the [catch] block does. When [String(error)] gives a string
    for every thrown value and [logVerbose] returns, the build returns a
    result, whatever the render calls do. An expression that the renderer
    rejects in every state has no math image, and the [rawText] of its
    formula tokens stands inside text. And a rejected call takes nothing
    from the formulas after it: with the feature enabled and a renderer that
    rejects some expressions and returns an image for every other one, the
    math images are the first [maxExpressionsPerReply] of the formula tokens
    that are within the length limit and not rejected, in source order. *)
Theorem render_failure_is_local (text : jsstring)
    (configInput : option DiscordMathImageConfig)
    (deps : BuildDiscordMathSegmentsDeps) (w : World RendererState) :
  let cfg := resolveDiscordMathImageConfig configInput in
  let tokens := tokenizeMathText text cfg in
  let render := orElse (renderFormulaPng deps) renderFormulaPngDefault in
  handlerReturns ->
  exists r w',
    buildDiscordMathSegments text configInput deps w = (inr r, w')
    /\ (forall e,
          (forall s, exists error s',
              render e (maxImageWidthPx cfg) s = (inl error, s')) ->
          (forall f b name, ~ In (MathImageSegment f e b name) (segments r))
          /\ forall raw,
               In (FormulaToken raw e) tokens -> inTextSegment (segments r) raw)
    /\ forall rejected : jsstring -> bool,
         enabled cfg = true ->
         (forall e s,
             if rejected e
             then exists error s',
                    render e (maxImageWidthPx cfg) s = (inl error, s')
             else exists b s',
                    render e (maxImageWidthPx cfg) s = (inr b, s')) ->
         mathImages (segments r)
         = firstn (Z.to_nat (maxExpressionsPerReply cfg))
             (filter (eligible cfg rejected) (formulaTokens tokens)).
Proof.
  intros cfg tokens render Hret.
  assert (Hk : (0 < maxExpressionsPerReply cfg)%Z).
  { unfold cfg, resolveDiscordMathImageConfig. cbn [maxExpressionsPerReply].
    now apply normalizePositiveInt_positive. }
  destruct (build_cases text configInput deps w)
    as [(r & w' & E & _ & Hcases)|(Hrej & _)];
    [|now destruct (handlerReturns_build text configInput deps w Hret)].
  exists r, w'. split; [assumption|]. split.
  - intros e Hrejects.
    destruct Hcases as [(Hs & _)|(_ & _ & _ & _ & _ & m & Hrun)].
    + rewrite Hs. split.
      * intros f b name [H|[]]. discriminate H.
      * intros raw Hin. exists text. split; [now left|].
        rewrite <- (tokenizeMathText_concat text cfg).
        now apply (formulaToken_occursIn _ raw e).
    + revert Hrun. fold cfg tokens render.
      apply (processTokens_invariant cfg render
               (fun done sg _ _ =>
                  (forall f b name, ~ In (MathImageSegment f e b name) sg)
                  /\ forall raw, In (FormulaToken raw e) done ->
                                 inTextSegment sg raw)).
      * intros done token sg n v sg' n' v' (Hno & Htxt) Hin Hout.
        assert (Happ : forall t,
                   (forall f b name,
                       ~ In (MathImageSegment f e b name)
                           (appendMathTextSegment sg t))
                   /\ forall raw, In (FormulaToken raw e) done ->
                                  inTextSegment (appendMathTextSegment sg t) raw).
        { intros t. split.
          - intros f b name H. apply appendMathTextSegment_In_image in H.
            now apply (Hno f b name).
          - intros raw H. apply inTextSegment_append. auto. }
        assert (Hfall : forall raw' e',
                   In (FormulaToken raw' e') tokens ->
                   (forall f b name,
                       ~ In (MathImageSegment f e b name)
                           (appendMathTextSegment sg raw'))
                   /\ forall raw, In (FormulaToken raw e)
                                    (done ++ [FormulaToken raw' e']) ->
                                  inTextSegment (appendMathTextSegment sg raw') raw).
        { intros raw' e' Hin'. split; [apply Happ|].
          intros raw H. apply in_app_or in H as [H|[[= <- <-]|[]]].
          - now apply Happ.
          - apply inTextSegment_new.
            eapply tokenizeMathText_raw. exact Hin'. }
        destruct Hout as [t|raw' e' _|raw' e' _ _|raw' e' b s _ _ Hr
                         |raw' e' err s str s1 s2 _ _ _ _ _];
          try (now apply Hfall).
        -- split; [apply Happ|]. intros raw H.
           apply in_app_or in H as [H|[H|[]]]; [now apply Happ|discriminate].
        -- assert (Hne : e' <> e).
           { intros ->. destruct (Hrejects (rendererState v)) as (err & s' & Hf).
             congruence. }
           split.
           ++ intros f b' name H.
              apply in_app_or in H as [H|[[= _ He _ _]|[]]];
                [now apply (Hno f b' name)|contradiction].
           ++ intros raw H. apply in_app_or in H as [H|[[= _ He]|[]]];
                [apply inTextSegment_push; auto|contradiction].
      * split; [intros ? ? ? []|intros ? []].
  - intros rejected Hen Hclass.
    destruct Hcases as [(Hs & _ & _ & Hwhy)|(_ & _ & _ & _ & _ & m & Hrun)].
    + assert (Hnone : formulaTokens tokens = []).
      { destruct Hwhy as [Hoff|[-> |Hno]].
        - fold cfg in Hoff. congruence.
        - unfold tokens. now rewrite tokenizeMathText_nil.
        - now apply formulaTokens_none. }
      rewrite Hs, Hnone. cbn [filter]. now rewrite firstn_nil.
    + fold cfg tokens render in Hrun.
      apply (processTokens_invariant cfg render
               (fun done sg n _ =>
                  n = Z.min (Z.of_nat (length (filter (eligible cfg rejected)
                                                 (formulaTokens done))))
                        (maxExpressionsPerReply cfg)
                  /\ mathImages sg
                     = firstn (Z.to_nat (maxExpressionsPerReply cfg))
                         (filter (eligible cfg rejected) (formulaTokens done)))
               tokens [] (segments r) 0%Z m w w');
        [exact (eligible_step cfg render rejected tokens Hk Hclass)
        | |exact Hrun].
      cbn [formulaTokens flat_map filter length]. rewrite firstn_nil.
      split; [lia|reflexivity].
Qed.

(** ** The failure message *)








End MathImages.

Arguments TextSegment {Buffer} text.
Arguments MathImageSegment {Buffer} formulaText expression imageBuffer fileName.
Arguments segments {Buffer} d.
Arguments hasMathImages {Buffer} d.
Arguments config {Buffer} d.
Arguments Build_BuildDiscordMathSegmentsDeps {Buffer Thrown RendererState}
  renderFormulaPng.
Arguments mathImages {Buffer} segs.
Arguments inTextSegment {Buffer} segs raw.
Arguments imageSpans {Buffer} offset segs.
Arguments concatSegments {Buffer} segs.
Arguments adjacentText {Buffer} segs.
Arguments imageBuffers {Buffer} segs.
Arguments processTokens {Buffer Thrown RendererState} stringOfError
  verboseLogger config render tokens state _.
Arguments buildDiscordMathSegments buildCodeSpanIndex
  {Buffer Thrown RendererState} stringOfError renderFormulaPngDefault
  verboseLogger text configInput deps _.
Arguments handlerReturns {Thrown RendererState} stringOfError verboseLogger.
Arguments replayCalls {Buffer Thrown RendererState} stringOfError
  verboseLogger render calls s.

(** * The scenarios of the test file

    The renderer of the tests is [pngRenderer]; the thrown values are
    strings, [String(error)] is the string itself, and [logVerbose]
    returns. *)

Example scenario_two_delimiters :
  exists r,
    buildDiscordMathSegments inlineCodeIndex stringOfMessage pngRenderer
      quietLogger
      (lit "A $$x^2$$ B \[y+1\] C") None
      {| renderFormulaPng := Some pngRenderer |} emptyWorld
    = (inr r, {| rendererState := tt;
                 renderCalls := [(lit "x^2", 2048%Z); (lit "y+1", 2048%Z)];
                 verboseLog := [] |})
    /\ hasMathImages r = true
    /\ segments r
       = [ TextSegment (lit "A ");
           MathImageSegment (lit "$$x^2$$") (lit "x^2") (lit "png:x^2")
             (lit "equation-1.png");
           TextSegment (lit " B ");
           MathImageSegment (lit "\[y+1\]") (lit "y+1") (lit "png:y+1")
             (lit "equation-2.png");
           TextSegment (lit " C") ].
Proof.
  eexists. split; [vm_compute; reflexivity|]. split; reflexivity.
Qed.

Example scenario_inline_code :
  exists r w',
    buildDiscordMathSegments inlineCodeIndex stringOfMessage pngRenderer
      quietLogger
      (lit "Inline `\[x+1\]` and \[y+1\]") None
      {| renderFormulaPng := Some pngRenderer |} emptyWorld
    = (inr r, w')
    /\ segments r
       = [ TextSegment (lit "Inline `\[x+1\]` and ");
           MathImageSegment (lit "\[y+1\]") (lit "y+1") (lit "png:y+1")
             (lit "equation-1.png") ].
Proof.
  do 2 eexists. split; [vm_compute; reflexivity|reflexivity].
Qed.

Example scenario_render_fails :
  exists r w',
    buildDiscordMathSegments inlineCodeIndex stringOfMessage pngRenderer
      quietLogger
      (lit "$$\badcommand$$") None
      {| renderFormulaPng := Some throwingRenderer |} emptyWorld
    = (inr r, w')
    /\ hasMathImages r = false
    /\ segments r = [TextSegment (lit "$$\badcommand$$")]
    /\ verboseLog w'
       = [lit "discord math render failed; sent plain text fallback: Error: bad formula"].
Proof.
  do 2 eexists. split; [vm_compute; reflexivity|]. repeat split; reflexivity.
Qed.

Example scenario_limit_one :
  exists r w',
    buildDiscordMathSegments inlineCodeIndex stringOfMessage pngRenderer
      quietLogger
      (lit "$$a$$ $$b$$") (Some limitOneConfig)
      {| renderFormulaPng := Some pngRenderer |} emptyWorld
    = (inr r, w')
    /\ segments r
       = [ MathImageSegment (lit "$$a$$") (lit "a") (lit "png:a")
             (lit "equation-1.png");
           TextSegment (lit " $$b$$") ].
Proof.
  do 2 eexists. split; [vm_compute; reflexivity|reflexivity].
Qed.

Example scenario_too_long :
  exists r w',
    buildDiscordMathSegments inlineCodeIndex stringOfMessage pngRenderer
      quietLogger
      (lit "$$abcd$$") (Some threeCharsConfig)
      {| renderFormulaPng := Some pngRenderer |} emptyWorld
    = (inr r, w')
    /\ hasMathImages r = false
    /\ segments r = [TextSegment (lit "$$abcd$$")].
Proof.
  do 2 eexists. split; [vm_compute; reflexivity|]. split; reflexivity.
Qed.

Example scenario_disabled :
  buildDiscordMathSegments inlineCodeIndex stringOfMessage pngRenderer
      quietLogger
    (lit "$$x^2$$") (Some disabledConfig)
    {| renderFormulaPng := Some pngRenderer |} emptyWorld
  = (inr {| segments := [TextSegment (lit "$$x^2$$")];
            hasMathImages := false;
            config := resolveDiscordMathImageConfig (Some disabledConfig) |},
     emptyWorld).
Proof.
  reflexivity.
Qed.

(** * The theorems at concrete inputs *)

(** C9: in [\$$x$$] the open marker at offset 1 has a backslash before it,
    and [findNextOpening] returns it; the tokenizer makes a formula token of
    it. *)
Lemma escaped_opening_is_returned :
  escapedAt (lit "\$$x$$") 1 = true
  /\ findNextOpening (lit "\$$x$$") 0 DELIMITER_SPECS None
     = Some (1, {| kind := DoubleDollar; open := lit "$$"; close := lit "$$" |})
  /\ tokenizeMathText inlineCodeIndex (lit "\$$x$$")
       (resolveDiscordMathImageConfig None)
     = [TextToken [backslash]; FormulaToken (lit "$$x$$") (lit "x")].
Proof.
  repeat split; reflexivity.
Qed.

(** C9, amended, at [\$$x$$]: the marker at offset 1 is escaped, valid and
    leftmost, and it is what [findNextOpening] returns. *)
Lemma escaped_opening_witness :
  escapedAt (lit "\$$x$$") 1 = true
  /\ exists d',
       findNextOpening (lit "\$$x$$") 0 DELIMITER_SPECS None = Some (1, d')
       /\ In d' DELIMITER_SPECS
       /\ validAt (open d') (lit "\$$x$$") None 1 = true.
Proof.
  split; [reflexivity|].
  apply (findNextOpening_ignores_escape (lit "\$$x$$") 0 1 DELIMITER_SPECS None
           {| kind := DoubleDollar; open := lit "$$"; close := lit "$$" |}).
  - left. reflexivity.
  - simpl. lia.
  - reflexivity.
  - reflexivity.
  - intros d' j Hin Hj. assert (j = 0) as -> by lia.
    destruct Hin as [<-|[<-|[]]]; reflexivity.
Defined.

(** C8: [maxExpressionsPerReply: 2.5] is not a positive integer, and it
    resolves to 2, not to the default 8. *)
Lemma fractional_limit_is_floored :
  ~ positiveIntegerValue (in_maxExpressionsPerReply fractionalConfig)
  /\ maxExpressionsPerReply (resolveDiscordMathImageConfig (Some fractionalConfig))
     = 2%Z
  /\ maxExpressionsPerReply (resolveDiscordMathImageConfig (Some fractionalConfig))
     <> DEFAULT_MAX_EXPRESSIONS.
Proof.
  split; [|split; [reflexivity|discriminate]].
  intros (q & z & Hv & Hz & Hq). injection Hv as <-.
  unfold Qeq in Hq. simpl in Hq. lia.
Qed.

(** C2: with [enabled: false] the text [$$a$$] has one formula token, within
    the limits, and the renderer succeeds on every call; the result has no
    math image, and [min 1 8] is 1. *)
Lemma disabled_feature_renders_nothing :
  formulaTokens
    (tokenizeMathText inlineCodeIndex (lit "$$a$$")
       (resolveDiscordMathImageConfig (Some disabledConfig)))
  = [(lit "$$a$$", lit "a")]
  /\ maxExpressionsPerReply (resolveDiscordMathImageConfig (Some disabledConfig))
     = 8%Z
  /\ maxCharsPerExpression (resolveDiscordMathImageConfig (Some disabledConfig))
     = 1200%Z
  /\ (forall e width s, exists b s', pngRenderer e width s = (inr b, s'))
  /\ exists r,
       buildDiscordMathSegments inlineCodeIndex stringOfMessage
         pngRenderer quietLogger (lit "$$a$$") (Some disabledConfig)
         {| renderFormulaPng := Some pngRenderer |} emptyWorld
       = (inr r, emptyWorld)
       /\ mathImages (segments r) = []
       /\ Z.of_nat (length (mathImages (segments r))) <> Z.min 1 8.
Proof.
  split; [reflexivity|]. split; [reflexivity|]. split; [reflexivity|]. split.
  - intros e width s. exists (lit "png:" ++ e), s. reflexivity.
  - eexists. split; [reflexivity|]. split; [reflexivity|discriminate].
Qed.

(** C2, amended, at [$$a$$ $$b$$] with [maxExpressionsPerReply: 1]: one math
    image, one render call, and [$$b$$] inside a text segment. *)
Lemma count_limit_witness :
  enabled (resolveDiscordMathImageConfig (Some limitOneConfig)) = true
  /\ exists r w',
       buildDiscordMathSegments inlineCodeIndex stringOfMessage
         pngRenderer quietLogger (lit "$$a$$ $$b$$") (Some limitOneConfig)
         {| renderFormulaPng := Some pngRenderer |} emptyWorld
       = (inr r, w')
       /\ mathImages (segments r) = [(lit "$$a$$", lit "a")]
       /\ renderCalls w' = [(lit "a", 2048%Z)]
       /\ inTextSegment (segments r) (lit "$$b$$").
Proof.
  split; [reflexivity|].
  destruct (count_limit_when_enabled inlineCodeIndex jsstring jsstring unit
              stringOfMessage pngRenderer quietLogger
              (lit "$$a$$ $$b$$") (Some limitOneConfig)
              {| renderFormulaPng := Some pngRenderer |} emptyWorld)
    as (r & w' & E & Himg & _ & Hcalls & Hrest & _).
  - reflexivity.
  - intros e width s. exists (lit "png:" ++ e), s. reflexivity.
  - intros raw e Hin.
    change (In (raw, e) [(lit "$$a$$", lit "a"); (lit "$$b$$", lit "b")]) in Hin.
    destruct Hin as [H|[H|[]]]; injection H as <- <-; discriminate.
  - exists r, w'. split; [exact E|]. split; [exact Himg|]. split; [exact Hcalls|].
    apply (Hrest (lit "$$b$$") (lit "b")). left. reflexivity.
Defined.

(** C7 at [a $$x $$] when every offset from 5 on is inside code: the opening
    at offset 2 has no valid closer, and the whole text is one text token. *)
Lemma unmatched_opening_witness :
  tokenizeLoop 5 (lit "a $$x $$") DELIMITER_SPECS (Some (fun j => 5 <=? j)) 0 []
  = [TextToken (lit "a $$x $$")].
Proof.
  refine (proj1 (proj2 (unmatched_opening_ends_tokenization (lit "a $$x $$")
                          DELIMITER_SPECS (Some (fun j => 5 <=? j)) 4 0 2
                          {| kind := DoubleDollar; open := lit "$$";
                             close := lit "$$" |} [] _ _ _))).
  - simpl. lia.
  - reflexivity.
  - intros j Hj. simpl in Hj.
    assert (j = 4 \/ j = 5 \/ j = 6 \/ j = 7) as [-> |[-> |[-> | ->]]] by lia;
      reflexivity.
Defined.

(** C4 at the inline-code scenario of the tests: the one formula token stands
    at offset 21, outside the backticks. *)
Lemma code_span_witness :
  excludeCode (resolveDiscordMathImageConfig None) = true
  /\ tokenizeMathText inlineCodeIndex (lit "Inline `\[x+1\]` and \[y+1\]")
       (resolveDiscordMathImageConfig None)
     = [TextToken (lit "Inline `\[x+1\]` and ")]
       ++ FormulaToken (lit "\[y+1\]") (lit "y+1") :: []
  /\ exists d,
       In d (activeDelimitersOf (resolveDiscordMathImageConfig None))
       /\ lit "\[y+1\]" = open d ++ lit "y+1" ++ close d
       /\ lit "\[y+1\]"
          = slice (lit "Inline `\[x+1\]` and \[y+1\]") 21
              (21 + length (lit "\[y+1\]"))
       /\ inlineCodeIndex (lit "Inline `\[x+1\]` and \[y+1\]") 21 = false
       /\ inlineCodeIndex (lit "Inline `\[x+1\]` and \[y+1\]")
            (21 + length (open d) + length (lit "y+1")) = false.
Proof.
  split; [reflexivity|]. split; [reflexivity|].
  apply (proj1 (code_spans_are_excluded inlineCodeIndex jsstring jsstring unit
                  stringOfMessage pngRenderer quietLogger
                  (lit "Inline `\[x+1\]` and \[y+1\]") None
                  {| renderFormulaPng := Some pngRenderer |} emptyWorld
                  eq_refl)
           [TextToken (lit "Inline `\[x+1\]` and ")]
           (lit "\[y+1\]") (lit "y+1") []).
  reflexivity.
Defined.

(** C3. A render call that is rejected with an object without a prototype,
    for the one formula of [$$bad$$], which is within both limits. In the
    [catch] block [String(error)] throws a [TypeError], and the build is
    rejected with it: it returns no result, and the error reaches the caller
    of [buildDiscordMathSegments], after the one render call and before
    anything is logged. *)
Theorem unprintable_rejection_escapes :
  formulaTokens
    (tokenizeMathText inlineCodeIndex (lit "$$bad$$")
       (resolveDiscordMathImageConfig None))
  = [(lit "$$bad$$", lit "bad")]
  /\ unprintableRenderer (lit "bad") 2048 tt = (inl NullPrototypeObject, tt)
  /\ stringOfThrownValue NullPrototypeObject tt
     = (inl (TypeErrorValue (lit "Cannot convert object to primitive value")),
        tt)
  /\ buildDiscordMathSegments inlineCodeIndex stringOfThrownValue
       unprintableRenderer quietLogger (lit "$$bad$$") None
       {| renderFormulaPng := Some unprintableRenderer |} emptyWorld
     = (inl (TypeErrorValue (lit "Cannot convert object to primitive value")),
        {| rendererState := tt;
           renderCalls := [(lit "bad", 2048%Z)];
           verboseLog := [] |})
  /\ forall r w',
       buildDiscordMathSegments inlineCodeIndex stringOfThrownValue
         unprintableRenderer quietLogger (lit "$$bad$$") None
         {| renderFormulaPng := Some unprintableRenderer |} emptyWorld
       <> (inr r, w').
Proof.
  split; [reflexivity|]. split; [reflexivity|]. split; [reflexivity|].
  assert (E : buildDiscordMathSegments inlineCodeIndex stringOfThrownValue
                unprintableRenderer quietLogger (lit "$$bad$$") None
                {| renderFormulaPng := Some unprintableRenderer |} emptyWorld
              = (inl (TypeErrorValue
                        (lit "Cannot convert object to primitive value")),
                 {| rendererState := tt;
                    renderCalls := [(lit "bad", 2048%Z)];
                    verboseLog := [] |})) by (vm_compute; reflexivity).
  split; [exact E|]. intros r w' H. rewrite E in H. discriminate H.
Qed.

(** * The default renderer

    [getMathjaxRuntime] and [renderFormulaPngDefault]. MathJax and the image
    library are outside this file: each of their operations is a parameter,
    a function of the state of the libraries that returns a value or throws. *)

(** ** Concrete libraries

    Libraries that keep the list of the operations called and never throw.
    A node is the expression, and its markup is a paragraph without SVG. *)
Definition logged {A : Type} (name : string) (a : A) (calls : list string)
  : (jsstring + A) * list string :=
  (inr a, calls ++ [name]).

Definition paragraphOf (node : jsstring) : jsstring :=
  lit "<p>" ++ node ++ lit "</p>".

Ltac not_among_in H :=
  repeat (destruct H as [H|H]; [discriminate H|]); exact H.

Section DefaultRenderer.

Variables Adaptor TexInput SvgOutput MathDocument MathNode : Type.
Variables Image Metadata PngBuffer : Type.
Variables LibraryError LibraryState : Type.

(** An operation of a library. *)
Definition Library (A : Type) : Type :=
  LibraryState -> (LibraryError + A) * LibraryState.

(** [liteAdaptor()] and [RegisterHTMLHandler(adaptor)] *)
Variable liteAdaptor : Library Adaptor.
Variable RegisterHTMLHandler : Adaptor -> Library unit.
(** [new TeX] with all packages, and [new SVG] without a font cache *)
Variable newTeX : Library TexInput.
Variable newSVG : Library SvgOutput.
(** [mathjax.document] of the empty document, with the two of them *)
Variable mathjaxDocument : TexInput -> SvgOutput -> Library MathDocument.
(** [document.convert(expression, { display: true })] *)
Variable convert : MathDocument -> jsstring -> Library MathNode.
(** [adaptor.outerHTML(node)] *)
Variable outerHTML : Adaptor -> MathNode -> Library jsstring.
(** [sharp(Buffer.from(svg), { density: 300 })] *)
Variable sharp : jsstring -> Library Image.
(** [image.metadata()], and its [width] when that is a number *)
Variable metadata : Image -> Library Metadata.
Variable width : Metadata -> option jsnumber.
(** [image.resize({ width, withoutEnlargement: true })] *)
Variable resize : Image -> Z -> Library Image.
(** [image.png().toBuffer()] *)
Variable pngToBuffer : Image -> Library PngBuffer.

Record MathjaxRuntime : Type := {
  adaptor : Adaptor;
  document : MathDocument
}.

(** The module variable [mathjaxRuntime], and the libraries. *)
Record RuntimeState : Type := {
  mathjaxRuntime : option MathjaxRuntime;
  library : LibraryState
}.

(** What a render call is rejected with: an [Error] of this file, or what a
    library threw. *)
Inductive Rejection : Type :=
| RejectedWith (error : jserror)
| RejectedByLibrary (error : LibraryError).

Definition Render (A : Type) : Type :=
  RuntimeState -> (Rejection + A) * RuntimeState.

Definition pureR {A : Type} (a : A) : Render A := fun s => (inr a, s).

Definition throwR {A : Type} (error : jserror) : Render A :=
  fun s => (inl (RejectedWith error), s).

Definition thenR {A B : Type} (m : Render A) (k : A -> Render B) : Render B :=
  fun s =>
    match m s with
    | (inl e, s') => (inl e, s')
    | (inr a, s') => k a s'
    end.

(** A call of a library: it acts on the libraries only. *)
Definition call {A : Type} (operation : Library A) : Render A :=
  fun s =>
    let (outcome, l) := operation (library s) in
    (match outcome with
     | inl e => inl (RejectedByLibrary e)
     | inr a => inr a
     end,
     {| mathjaxRuntime := mathjaxRuntime s; library := l |}).

(** [mathjaxRuntime = { adaptor, document }] *)
Definition setRuntime (runtime : MathjaxRuntime) : Render unit :=
  fun s => (inr tt, {| mathjaxRuntime := Some runtime; library := library s |}).

Definition getMathjaxRuntime : Render MathjaxRuntime :=
  fun s =>
    match mathjaxRuntime s with
    | Some runtime => (inr runtime, s)
    | None =>
        thenR (call liteAdaptor) (fun adaptor =>
        thenR (call (RegisterHTMLHandler adaptor)) (fun _ =>
        thenR (call newTeX) (fun tex =>
        thenR (call newSVG) (fun svg =>
        thenR (call (mathjaxDocument tex svg)) (fun document =>
        let runtime := {| adaptor := adaptor; document := document |} in
        thenR (setRuntime runtime) (fun _ => pureR runtime)))))) s
    end.

(** The width is a number, and greater than [maxImageWidthPx]. *)
Definition widerThan (w : option jsnumber) (maxImageWidthPx : Z) : bool :=
  match w with
  | Some (Finite q) => negb (Qle_bool q (inject_Z maxImageWidthPx))
  | Some PosInfinity => true
  | _ => false
  end.

Definition renderFormulaPngDefault (expression : jsstring) (maxImageWidthPx : Z)
  : Render PngBuffer :=
  thenR getMathjaxRuntime (fun runtime =>
  thenR (call (convert (document runtime) expression)) (fun node =>
  thenR (call (outerHTML (adaptor runtime) node)) (fun markup =>
  thenR (match extractSvgMarkup markup with
         | inl error => throwR error
         | inr extracted => pureR extracted
         end) (fun extracted =>
  let svg := applySvgTextColor extracted (lit "#FFFFFF") in
  thenR (call (sharp svg)) (fun image =>
  thenR (call (metadata image)) (fun meta =>
  thenR (if widerThan (width meta) maxImageWidthPx
         then call (resize image maxImageWidthPx)
         else pureR image) (fun image' =>
  call (pngToBuffer image')))))))).

(** ** [extractSvgMarkup] *)

Lemma lastOccurrence_Some (pat text : jsstring) (k : nat) :
  lastOccurrence pat text = Some k ->
  k <= length text
  /\ occursAt pat text k = true
  /\ forall j, k < j <= length text -> occursAt pat text j = false.
Proof.
  unfold occursAt. revert k; induction text as [|c text IH]; intros k H.
  - simpl in H. destruct (startsWith pat []) eqn:E; [|discriminate].
    injection H as <-. repeat split; [lia|assumption|simpl; lia].
  - cbn [lastOccurrence] in H.
    destruct (lastOccurrence pat text) as [k'|] eqn:Ek.
    + injection H as <-. destruct (IH k' eq_refl) as (Hk & Ho & Hm).
      repeat split; [simpl; lia|assumption|].
      intros [|j] Hj; [lia|]. simpl. apply Hm. simpl in Hj. lia.
    + destruct (startsWith pat (c :: text)) eqn:E; [|discriminate].
      injection H as <-. repeat split; [simpl; lia|assumption|].
      intros [|j] Hj; [lia|]. simpl.
      clear IH E. revert j Hj. induction text as [|d text IHt]; intros j Hj.
      * simpl in Ek. destruct (startsWith pat []) eqn:E0; [discriminate|].
        now rewrite skipn_nil.
      * cbn [lastOccurrence] in Ek.
        destruct (lastOccurrence pat text) eqn:Ek'; [discriminate|].
        destruct (startsWith pat (d :: text)) eqn:Ed; [discriminate|].
        destruct j as [|j]; [assumption|]. simpl. apply IHt; [reflexivity|].
        simpl in Hj. simpl. lia.
Qed.

Lemma lastOccurrence_None (pat text : jsstring) :
  lastOccurrence pat text = None ->
  forall j, occursAt pat text j = false.
Proof.
  unfold occursAt. induction text as [|c text IH]; intros H j.
  - simpl in H. destruct (startsWith pat []) eqn:E; [discriminate|].
    now rewrite skipn_nil.
  - cbn [lastOccurrence] in H.
    destruct (lastOccurrence pat text) eqn:Ek; [discriminate|].
    destruct (startsWith pat (c :: text)) eqn:E; [discriminate|].
    destruct j as [|j]; [assumption|]. simpl. now apply IH.
Qed.

Lemma occursAt_beyond (pat text : jsstring) (j : nat) :
  pat <> [] -> length text <= j -> occursAt pat text j = false.
Proof.
  intros Hp Hj. unfold occursAt. rewrite skipn_all2 by assumption.
  destruct pat; [contradiction|reflexivity].
Qed.

Lemma indexOf_zero_Some (text pat : jsstring) (i : nat) :
  indexOf text pat 0 = Some i ->
  occursAt pat text i = true /\ forall j, j < i -> occursAt pat text j = false.
Proof.
  intros H. destruct (indexOf_Some _ _ _ _ H) as (_ & Ho & Hm).
  split; [assumption|]. intros j Hj. apply Hm. simpl. lia.
Qed.

Lemma indexOf_zero_None (text pat : jsstring) :
  indexOf text pat 0 = None -> forall j, occursAt pat text j = false.
Proof.
  intros H j. apply (indexOf_None _ _ _ H). simpl. lia.
Qed.

(** The close tag cannot begin inside the four characters of the open tag. *)
Lemma close_after_open (markup : jsstring) (start stop : nat) :
  occursAt (lit "<svg") markup start = true ->
  occursAt (lit "</svg>") markup stop = true ->
  start <= stop -> start + 4 <= stop.
Proof.
  unfold occursAt. intros Ho Hc Hle.
  destruct (startsWith_inv _ _ Ho) as (r & Hr).
  destruct (Nat.le_gt_cases (start + 4) stop) as [|Hlt]; [assumption|].
  exfalso.
  replace (skipn stop markup) with (skipn (stop - start) (skipn start markup)) in Hc
    by (rewrite skipn_skipn; f_equal; lia).
  rewrite Hr in Hc.
  assert (Hd : stop - start = 0 \/ stop - start = 1 \/ stop - start = 2
               \/ stop - start = 3) by lia.
  destruct Hd as [E|[E|[E|E]]]; rewrite E in Hc; simpl in Hc; discriminate Hc.
Qed.

Lemma extractSvgMarkup_inr (markup svg : jsstring) :
  extractSvgMarkup markup = inr svg ->
  exists start stop,
    (occursAt (lit "<svg") markup start = true
     /\ forall j, j < start -> occursAt (lit "<svg") markup j = false)
    /\ (occursAt (lit "</svg>") markup stop = true
        /\ forall j, stop < j -> occursAt (lit "</svg>") markup j = false)
    /\ start + 4 <= stop
    /\ stop + 6 <= length markup
    /\ svg = slice markup start (stop + 6)
    /\ svg = lit "<svg" ++ slice markup (start + 4) stop ++ lit "</svg>".
Proof.
  unfold extractSvgMarkup, lastIndexOf. intros H.
  destruct (indexOf markup (lit "<svg") 0) as [start|] eqn:Ei; [|discriminate].
  destruct (lastOccurrence (lit "</svg>") markup) as [stop|] eqn:El;
    [|discriminate].
  destruct (stop <? start) eqn:Elt; [discriminate|].
  apply Nat.ltb_ge in Elt. injection H as <-.
  destruct (indexOf_zero_Some _ _ _ Ei) as (Ho & Hfirst).
  destruct (lastOccurrence_Some _ _ _ El) as (Hk & Hc & Hlast).
  pose proof (close_after_open markup start stop Ho Hc Elt) as Hgap.
  pose proof (occursAt_bound _ _ _ Hc Hk) as Hend.
  change (length (lit "</svg>")) with 6 in *.
  exists start, stop. split; [now split|]. split.
  - split; [assumption|]. intros j Hj.
    destruct (Nat.le_gt_cases j (length markup)) as [Hin|Hout].
    + apply Hlast. lia.
    + apply occursAt_beyond; [discriminate|lia].
  - split; [assumption|]. split; [assumption|]. split; [reflexivity|].
    pose proof (occursAt_slice _ _ _ Ho) as Eo.
    pose proof (occursAt_slice _ _ _ Hc) as Ec.
    change (length (lit "<svg")) with 4 in Eo.
    change (length (lit "</svg>")) with 6 in Ec.
    rewrite <- (slice_slice markup start (start + 4) (stop + 6)) by lia.
    rewrite <- (slice_slice markup (start + 4) stop (stop + 6)) by lia.
    now rewrite Eo, Ec.
Qed.

Lemma extractSvgMarkup_inl (markup : jsstring) (error : jserror) :
  extractSvgMarkup markup = inl error ->
  error = JsError (lit "MathJax did not return SVG output")
  /\ ((forall j, occursAt (lit "<svg") markup j = false)
      \/ (forall j, occursAt (lit "</svg>") markup j = false)
      \/ exists start stop,
           occursAt (lit "<svg") markup start = true
           /\ (forall j, j < start -> occursAt (lit "<svg") markup j = false)
           /\ occursAt (lit "</svg>") markup stop = true
           /\ (forall j, stop < j -> occursAt (lit "</svg>") markup j = false)
           /\ stop < start).
Proof.
  unfold extractSvgMarkup, lastIndexOf. intros H.
  destruct (indexOf markup (lit "<svg") 0) as [start|] eqn:Ei.
  - destruct (lastOccurrence (lit "</svg>") markup) as [stop|] eqn:El.
    + destruct (stop <? start) eqn:Elt; [|discriminate].
      apply Nat.ltb_lt in Elt. injection H as <-. split; [reflexivity|].
      right. right. exists start, stop.
      destruct (indexOf_zero_Some _ _ _ Ei) as (Ho & Hfirst).
      destruct (lastOccurrence_Some _ _ _ El) as (Hk & Hc & Hlast).
      repeat split; try assumption. intros j Hj.
      destruct (Nat.le_gt_cases j (length markup)) as [Hin|Hout].
      * apply Hlast. lia.
      * apply occursAt_beyond; [discriminate|lia].
    + injection H as <-. split; [reflexivity|]. right. left.
      now apply lastOccurrence_None.
  - injection H as <-. split; [reflexivity|]. left.
    now apply indexOf_zero_None.
Qed.

(** X16. [extractSvgMarkup] returns the markup from the first [<svg] to the
    end of the last [</svg>], which therefore begins with [<svg] and ends
    with [</svg>]; it throws, with the message that MathJax did not return
    SVG output, exactly when the markup has no [<svg], or no [</svg>], or its
    last [</svg>] begins before its first [<svg]. *)
Theorem extractSvgMarkup_spec (markup : jsstring) :
  match extractSvgMarkup markup with
  | inr svg =>
      exists start stop,
        (occursAt (lit "<svg") markup start = true
         /\ forall j, j < start -> occursAt (lit "<svg") markup j = false)
        /\ (occursAt (lit "</svg>") markup stop = true
            /\ forall j, stop < j -> occursAt (lit "</svg>") markup j = false)
        /\ start + 4 <= stop
        /\ stop + 6 <= length markup
        /\ svg = slice markup start (stop + 6)
        /\ svg = lit "<svg" ++ slice markup (start + 4) stop ++ lit "</svg>"
  | inl error =>
      error = JsError (lit "MathJax did not return SVG output")
      /\ ((forall j, occursAt (lit "<svg") markup j = false)
          \/ (forall j, occursAt (lit "</svg>") markup j = false)
          \/ exists start stop,
               occursAt (lit "<svg") markup start = true
               /\ (forall j, j < start -> occursAt (lit "<svg") markup j = false)
               /\ occursAt (lit "</svg>") markup stop = true
               /\ (forall j, stop < j ->
                     occursAt (lit "</svg>") markup j = false)
               /\ stop < start)
  end.
Proof.
  destruct (extractSvgMarkup markup) as [error|svg] eqn:E.
  - now apply extractSvgMarkup_inl.
  - now apply extractSvgMarkup_inr.
Qed.

Lemma lastOccurrence_at_end (pat front : jsstring) :
  pat <> [] -> lastOccurrence pat (front ++ pat) = Some (length front).
Proof.
  intros Hp.
  assert (Ho : occursAt pat (front ++ pat) (length front) = true).
  { unfold occursAt. rewrite skipn_app, skipn_all, Nat.sub_diag. simpl.
    rewrite <- (app_nil_r pat) at 2. apply startsWith_app. }
  destruct (lastOccurrence pat (front ++ pat)) as [k|] eqn:E.
  - destruct (lastOccurrence_Some _ _ _ E) as (Hk & Hok & Hlast).
    pose proof (occursAt_bound _ _ _ Hok Hk) as Hb.
    rewrite length_app in Hb, Hlast.
    destruct (Nat.lt_trichotomy k (length front)) as [Hlt|[-> |Hgt]];
      [|reflexivity|lia].
    rewrite Hlast in Ho; [discriminate|].
    destruct pat; [contradiction|]. simpl. lia.
  - rewrite (lastOccurrence_None _ _ E) in Ho. discriminate.
Qed.

(** X17. Extracting is idempotent: the markup that [extractSvgMarkup] returns
    is returned unchanged when it is extracted again. *)
Theorem extractSvgMarkup_idempotent (markup svg : jsstring) :
  extractSvgMarkup markup = inr svg ->
  extractSvgMarkup svg = inr svg.
Proof.
  intros H.
  destruct (extractSvgMarkup_inr _ _ H) as (start & stop & _ & _ & _ & _ & _ & Hs).
  set (inner := slice markup (start + 4) stop) in Hs. rewrite Hs.
  unfold extractSvgMarkup, lastIndexOf.
  assert (Ei : indexOf (lit "<svg" ++ inner ++ lit "</svg>") (lit "<svg") 0
               = Some 0) by reflexivity.
  rewrite Ei.
  replace (lit "<svg" ++ inner ++ lit "</svg>")
    with ((lit "<svg" ++ inner) ++ lit "</svg>") by now rewrite app_assoc.
  rewrite lastOccurrence_at_end by discriminate.
  cbn [Nat.ltb Nat.leb]. f_equal. unfold slice. rewrite Nat.sub_0_r.
  cbn [skipn]. apply firstn_all2. rewrite !length_app. simpl. lia.
Qed.

(** ** [applySvgTextColor] *)

Lemma firstOccurrence_char_Some (c : ascii) (s : jsstring) (k : nat) :
  firstOccurrence [c] s = Some k -> In c s.
Proof.
  revert k; induction s as [|x s IH]; intros k H; [discriminate H|].
  cbn [firstOccurrence startsWith] in H.
  destruct (Ascii.eqb c x) eqn:E.
  - apply Ascii.eqb_eq in E. subst x. now left.
  - cbn [andb] in H. destruct (firstOccurrence [c] s) as [k'|]; [|discriminate].
    right. now apply (IH k').
Qed.

Lemma firstOccurrence_char_at (c : ascii) (front back : jsstring) :
  ~ In c front ->
  firstOccurrence [c] (front ++ c :: back) = Some (length front).
Proof.
  induction front as [|x front IH]; intros Hnot.
  - cbn [app firstOccurrence startsWith]. now rewrite Ascii.eqb_refl.
  - cbn [app firstOccurrence startsWith length].
    assert (E : Ascii.eqb c x = false).
    { apply Ascii.eqb_neq. intros ->. apply Hnot. now left. }
    rewrite E. cbn [andb]. rewrite IH; [reflexivity|].
    intros Hin. apply Hnot. now right.
Qed.

Lemma svgTagHere_Some (s attrs : jsstring) :
  svgTagHere s = Some attrs -> startsWith (lit "<svg") s = true /\ In ">"%char s.
Proof.
  unfold svgTagHere. destruct (startsWith (lit "<svg") s) eqn:E; [|discriminate].
  cbn zeta.
  destruct (match skipn 4 s with [] => true | c :: _ => negb (isWordChar c) end);
    [|discriminate].
  destruct (firstOccurrence [">"%char] (skipn 4 s)) as [k|] eqn:Ek; [|discriminate].
  intros _. split; [reflexivity|].
  apply firstOccurrence_char_Some in Ek.
  rewrite <- (firstn_skipn 4 s). apply in_or_app. now right.
Qed.

Lemma findSvgTag_Some (s : jsstring) :
  forall i attrs,
    findSvgTag s = Some (i, attrs) ->
    occursAt (lit "<svg") s i = true /\ In ">"%char s.
Proof.
  unfold occursAt. induction s as [|c s IH]; intros i attrs H.
  - cbn [findSvgTag] in H.
    destruct (svgTagHere []) eqn:E; [|discriminate]. discriminate E.
  - cbn [findSvgTag] in H.
    destruct (svgTagHere (c :: s)) as [a|] eqn:E.
    + injection H as <- <-. now apply svgTagHere_Some in E.
    + destruct (findSvgTag s) as [[i' a']|] eqn:Ef; [|discriminate].
      injection H as <- <-. destruct (IH i' a' eq_refl) as (Ho & Hin).
      split; [assumption|now right].
Qed.

(** X18. Markup without an [<svg] or without a [>] is left as it is. *)
Theorem applySvgTextColor_without_tag (svg color : jsstring) :
  (forall i, occursAt (lit "<svg") svg i = false) \/ ~ In ">"%char svg ->
  applySvgTextColor svg color = svg.
Proof.
  intros H. unfold applySvgTextColor.
  destruct (findSvgTag svg) as [[i attrs]|] eqn:E; [|reflexivity].
  destruct (findSvgTag_Some _ _ _ E) as (Ho & Hin).
  destruct H as [H|H]; [rewrite H in Ho; discriminate|contradiction].
Qed.

Lemma findSvgTag_at_start (attrs after : jsstring) :
  ~ In ">"%char attrs ->
  (forall c rest, attrs = c :: rest -> isWordChar c = false) ->
  findSvgTag (lit "<svg" ++ attrs ++ ">"%char :: after) = Some (0, attrs).
Proof.
  intros Hgt Hb.
  assert (E : svgTagHere (lit "<svg" ++ attrs ++ ">"%char :: after) = Some attrs).
  { unfold svgTagHere. rewrite startsWith_app.
    change (skipn 4 (lit "<svg" ++ attrs ++ ">"%char :: after))
      with (attrs ++ ">"%char :: after).
    cbn zeta.
    assert (Hbound : match attrs ++ ">"%char :: after with
                     | [] => true
                     | c :: _ => negb (isWordChar c)
                     end = true).
    { destruct attrs as [|c rest]; [reflexivity|].
      cbn [app]. now rewrite (Hb c rest eq_refl). }
    rewrite Hbound, firstOccurrence_char_at by assumption.
    now rewrite firstn_app, Nat.sub_diag, firstn_all, app_nil_r. }
  destruct (lit "<svg" ++ attrs ++ ">"%char :: after) eqn:El;
    cbn [findSvgTag]; now rewrite E.
Qed.

Lemma applySvgTextColor_at_start (attrs after color : jsstring) :
  ~ In ">"%char attrs ->
  (forall c rest, attrs = c :: rest -> isWordChar c = false) ->
  applySvgTextColor (lit "<svg" ++ attrs ++ ">"%char :: after) color
  = lit "<svg" ++ colouredAttrs attrs color ++ ">"%char :: after.
Proof.
  intros Hgt Hb. unfold applySvgTextColor.
  rewrite findSvgTag_at_start by assumption.
  assert (Hskip : skipn (0 + length (lit "<svg") + length attrs + 1)
                    (lit "<svg" ++ attrs ++ ">"%char :: after) = after).
  { replace (lit "<svg" ++ attrs ++ ">"%char :: after)
      with ((lit "<svg" ++ attrs ++ [">"%char]) ++ after)
      by (now rewrite <- !app_assoc).
    rewrite skipn_app.
    replace (0 + length (lit "<svg") + length attrs + 1)
      with (length (lit "<svg" ++ attrs ++ [">"%char]))
      by (rewrite !length_app; simpl; lia).
    now rewrite skipn_all, Nat.sub_diag. }
  rewrite Hskip. cbn [firstn]. rewrite app_nil_l, <- !app_assoc. reflexivity.
Qed.

Lemma styleAttrHere_Some (s value : jsstring) :
  styleAttrHere s = Some value -> occursAt styleEquals s 1 = true.
Proof.
  unfold styleAttrHere, occursAt. destruct s as [|c rest]; [discriminate|].
  destruct (isWhitespace c && startsWith styleEquals rest) eqn:E; [|discriminate].
  intros _. now apply andb_true_iff in E as [_ E].
Qed.

Lemma findStyleAttr_Some (s : jsstring) :
  forall i value,
    findStyleAttr s = Some (i, value) -> occursAt styleEquals s (S i) = true.
Proof.
  induction s as [|c s IH]; intros i value H.
  - discriminate H.
  - cbn [findStyleAttr] in H.
    destruct (styleAttrHere (c :: s)) as [v|] eqn:E.
    + injection H as <- <-. now apply styleAttrHere_Some in E.
    + destruct (findStyleAttr s) as [[i' v']|] eqn:Ef; [|discriminate].
      injection H as <- <-. apply (IH i' v' eq_refl).
Qed.

(** X19. An opening tag without a [style] attribute gets one. For markup
    that begins with its [<svg ...>] tag, when [style=] followed by a quote
    does not occur among the attributes, the result is the same markup with
    [ style=], the quoted [color: <color>;], added at the end of the
    attributes; nothing else changes. *)
Theorem applySvgTextColor_adds_style (attrs after color : jsstring) :
  ~ In ">"%char attrs ->
  (forall c rest, attrs = c :: rest -> isWordChar c = false) ->
  (forall i, occursAt styleEquals attrs i = false) ->
  applySvgTextColor (lit "<svg" ++ attrs ++ ">"%char :: after) color
  = lit "<svg" ++ attrs
    ++ lit " style=" ++ [dquote] ++ lit "color: " ++ color ++ lit ";" ++ [dquote]
    ++ ">"%char :: after.
Proof.
  intros Hgt Hb Hnone. rewrite applySvgTextColor_at_start by assumption.
  unfold colouredAttrs.
  destruct (findStyleAttr attrs) as [[i value]|] eqn:E.
  - apply findStyleAttr_Some in E. rewrite Hnone in E. discriminate.
  - now rewrite <- !app_assoc.
Qed.

Lemma startsWith_style_straddle (b rest : jsstring) (ws : ascii) :
  isWhitespace ws = true ->
  startsWith styleEquals (b ++ ws :: rest) = true ->
  startsWith styleEquals b = true.
Proof.
  change styleEquals with ["s"; "t"; "y"; "l"; "e"; "="; dquote]%char.
  intros Hws H.
  do 7 (destruct b as [|? b];
        [exfalso; cbn [startsWith app] in H;
         repeat (apply andb_true_iff in H; destruct H as [? H]);
         match goal with
         | E : Ascii.eqb ?x ws = true |- _ =>
             apply Ascii.eqb_eq in E; subst ws; vm_compute in Hws;
             discriminate Hws
         end|]).
  cbn [startsWith app] in *. exact H.
Qed.

Lemma findStyleAttr_at (a1 value a2 : jsstring) (ws : ascii) :
  isWhitespace ws = true ->
  ~ In dquote value ->
  (forall i, occursAt styleEquals a1 i = false) ->
  findStyleAttr (a1 ++ ws :: styleEquals ++ value ++ dquote :: a2)
  = Some (length a1, value).
Proof.
  intros Hws Hq. induction a1 as [|x a1 IH]; intros Hnone.
  - cbn [app length findStyleAttr].
    assert (E : styleAttrHere (ws :: styleEquals ++ value ++ dquote :: a2)
                = Some value).
    { unfold styleAttrHere. rewrite Hws, startsWith_app. cbn [andb]. cbn zeta.
      change (skipn (length styleEquals) (styleEquals ++ value ++ dquote :: a2))
        with (value ++ dquote :: a2).
      rewrite firstOccurrence_char_at by assumption.
      now rewrite firstn_app, Nat.sub_diag, firstn_all, app_nil_r. }
    now rewrite E.
  - cbn [app length findStyleAttr].
    assert (E : styleAttrHere
                  (x :: a1 ++ ws :: styleEquals ++ value ++ dquote :: a2)
                = None).
    { unfold styleAttrHere.
      destruct (isWhitespace x
                && startsWith styleEquals
                     (a1 ++ ws :: styleEquals ++ value ++ dquote :: a2)) eqn:Eb;
        [|reflexivity].
      apply andb_true_iff in Eb as [_ Eb].
      apply startsWith_style_straddle in Eb; [|assumption].
      specialize (Hnone 1). unfold occursAt in Hnone. cbn [skipn] in Hnone.
      congruence. }
    rewrite E, IH; [reflexivity|].
    intros i. apply (Hnone (S i)).
Qed.

Lemma getSubstitution_plain (matched before after capture template : jsstring) :
  ~ In "$"%char template ->
  getSubstitution matched before after capture template = template.
Proof.
  induction template as [|c rest IH]; intros Hnot; [reflexivity|].
  cbn [getSubstitution].
  assert (E : Ascii.eqb c "$" = false).
  { apply Ascii.eqb_neq. intros ->. apply Hnot. now left. }
  rewrite E, IH; [reflexivity|]. intros Hin. apply Hnot. now right.
Qed.

(** X20. An opening tag with a [style] attribute gets the colour appended to
    it. For markup that begins with its [<svg ...>] tag whose first
    [style] attribute has the value [value], with no [$] in the trimmed value
    or in the colour: the attribute becomes a space, [style=] and, quoted,
    the trimmed value followed by [; color: <color>;] (only [color: <color>;]
    when the trimmed value is empty); the attributes before and after it and
    the rest of the markup stay as they are. *)
Theorem applySvgTextColor_extends_style (a1 value a2 after color : jsstring)
    (ws : ascii) :
  let attrs := a1 ++ ws :: styleEquals ++ value ++ dquote :: a2 in
  ~ In ">"%char attrs ->
  (forall c rest, attrs = c :: rest -> isWordChar c = false) ->
  isWhitespace ws = true ->
  ~ In dquote value ->
  (forall i, occursAt styleEquals a1 i = false) ->
  ~ In "$"%char (trim value) ->
  ~ In "$"%char color ->
  applySvgTextColor (lit "<svg" ++ attrs ++ ">"%char :: after) color
  = lit "<svg" ++ a1
    ++ lit " style=" ++ [dquote]
    ++ (if isEmpty (trim value)
        then lit "color: " ++ color ++ lit ";"
        else trim value ++ lit "; color: " ++ color ++ lit ";")
    ++ [dquote] ++ a2 ++ ">"%char :: after.
Proof.
  intros attrs Hgt Hb Hws Hq Hnone Hv Hc.
  rewrite applySvgTextColor_at_start by assumption.
  unfold colouredAttrs. unfold attrs at 1.
  rewrite findStyleAttr_at by assumption. cbn zeta.
  set (nextStyle := if isEmpty (trim value)
                    then lit "color: " ++ color ++ lit ";"
                    else trim value ++ lit "; color: " ++ color ++ lit ";").
  assert (Hnext : ~ In "$"%char nextStyle).
  { unfold nextStyle. destruct (isEmpty (trim value)); intros Hin.
    - apply in_app_or in Hin as [Hin|Hin].
      + vm_compute in Hin. not_among_in Hin.
      + apply in_app_or in Hin as [Hin|Hin]; [contradiction|].
        vm_compute in Hin. not_among_in Hin.
    - apply in_app_or in Hin as [Hin|Hin]; [contradiction|].
      apply in_app_or in Hin as [Hin|Hin].
      + vm_compute in Hin. not_among_in Hin.
      + apply in_app_or in Hin as [Hin|Hin]; [contradiction|].
        vm_compute in Hin. not_among_in Hin. }
  rewrite getSubstitution_plain.
  2:{ intros Hin. apply in_app_or in Hin as [Hin|Hin].
      - vm_compute in Hin. not_among_in Hin.
      - apply in_app_or in Hin as [Hin|Hin].
        + vm_compute in Hin. not_among_in Hin.
        + apply in_app_or in Hin as [Hin|Hin]; [contradiction|].
          vm_compute in Hin. not_among_in Hin. }
  assert (Hfirst : firstn (length a1) attrs = a1).
  { unfold attrs. now rewrite firstn_app, Nat.sub_diag, firstn_all, app_nil_r. }
  assert (Hrest : skipn (length a1 + 1 + length styleEquals + length value + 1)
                    attrs = a2).
  { unfold attrs.
    replace (a1 ++ ws :: styleEquals ++ value ++ dquote :: a2)
      with ((a1 ++ ws :: styleEquals ++ value ++ [dquote]) ++ a2).
    - rewrite skipn_app.
      replace (length a1 + 1 + length styleEquals + length value + 1)
        with (length (a1 ++ ws :: styleEquals ++ value ++ [dquote]))
        by (rewrite length_app; cbn [length]; rewrite !length_app; simpl; lia).
      now rewrite skipn_all, Nat.sub_diag.
    - rewrite <- app_assoc. cbn [app]. rewrite <- !app_assoc. reflexivity. }
  rewrite Hfirst, Hrest. rewrite <- !app_assoc. reflexivity.
Qed.

(** ** The renderer *)

Lemma extractSvgMarkup_without_svg (markup : jsstring) :
  (forall j, occursAt (lit "<svg") markup j = false)
  \/ (forall j, occursAt (lit "</svg>") markup j = false) ->
  extractSvgMarkup markup
  = inl (JsError (lit "MathJax did not return SVG output")).
Proof.
  intros H. destruct (extractSvgMarkup markup) as [error|svg] eqn:E.
  - now destruct (extractSvgMarkup_inl _ _ E) as (-> & _).
  - destruct (extractSvgMarkup_inr _ _ E)
      as (start & stop & (Ho & _) & (Hc & _) & _).
    destruct H as [H|H]; [rewrite H in Ho|rewrite H in Hc]; discriminate.
Qed.

Lemma call_returns {A B : Type} (operation : Library A) (k : A -> Render B)
    (s : RuntimeState) (a : A) (l : LibraryState) :
  operation (library s) = (inr a, l) ->
  thenR (call operation) k s
  = k a {| mathjaxRuntime := mathjaxRuntime s; library := l |}.
Proof.
  intros H. unfold thenR, call. now rewrite H.
Qed.

Lemma call_throws {A B : Type} (operation : Library A) (k : A -> Render B)
    (s : RuntimeState) (e : LibraryError) (l : LibraryState) :
  operation (library s) = (inl e, l) ->
  thenR (call operation) k s
  = (inl (RejectedByLibrary e),
     {| mathjaxRuntime := mathjaxRuntime s; library := l |}).
Proof.
  intros H. unfold thenR, call. now rewrite H.
Qed.

Lemma getMathjaxRuntime_stored (t : RuntimeState) (runtime : MathjaxRuntime) :
  mathjaxRuntime t = Some runtime -> getMathjaxRuntime t = (inr runtime, t).
Proof.
  intros H. unfold getMathjaxRuntime. now rewrite H.
Qed.

Lemma getMathjaxRuntime_outcome (s : RuntimeState) :
  match getMathjaxRuntime s with
  | (inr runtime, s') => mathjaxRuntime s' = Some runtime
  | (inl _, s') => mathjaxRuntime s = None /\ mathjaxRuntime s' = None
  end.
Proof.
  unfold getMathjaxRuntime.
  destruct (mathjaxRuntime s) as [rt|] eqn:Es; [assumption|].
  destruct (liteAdaptor (library s)) as [[e|a] l1] eqn:E1;
    [erewrite call_throws by exact E1; now split
    |erewrite call_returns by exact E1].
  destruct (RegisterHTMLHandler a l1) as [[e|u] l2] eqn:E2;
    [erewrite call_throws by exact E2; now split
    |erewrite call_returns by exact E2].
  cbn [mathjaxRuntime library].
  destruct (newTeX l2) as [[e|tex] l3] eqn:E3;
    [erewrite call_throws by exact E3; now split
    |erewrite call_returns by exact E3].
  cbn [mathjaxRuntime library].
  destruct (newSVG l3) as [[e|svg] l4] eqn:E4;
    [erewrite call_throws by exact E4; now split
    |erewrite call_returns by exact E4].
  cbn [mathjaxRuntime library].
  destruct (mathjaxDocument tex svg l4) as [[e|doc] l5] eqn:E5;
    [erewrite call_throws by exact E5; now split
    |erewrite call_returns by exact E5].
  reflexivity.
Qed.

(** X21. The MathJax runtime is created once. A call that finds a runtime
    returns it and touches nothing; a call that returns a runtime leaves it
    stored, so the next call returns the same runtime and touches nothing;
    and a call in which a step of the creation throws stores no runtime, so a
    later call starts the creation again. *)
Theorem runtime_is_created_once (s : RuntimeState) :
  (forall runtime, mathjaxRuntime s = Some runtime ->
     getMathjaxRuntime s = (inr runtime, s))
  /\ (forall runtime s',
        getMathjaxRuntime s = (inr runtime, s') ->
        mathjaxRuntime s' = Some runtime
        /\ getMathjaxRuntime s' = (inr runtime, s'))
  /\ (forall error s',
        getMathjaxRuntime s = (inl error, s') ->
        mathjaxRuntime s = None /\ mathjaxRuntime s' = None).
Proof.
  pose proof (getMathjaxRuntime_outcome s) as Hout.
  split; [apply getMathjaxRuntime_stored|]. split.
  - intros runtime s' E. rewrite E in Hout.
    split; [assumption|now apply getMathjaxRuntime_stored].
  - intros error s' E. now rewrite E in Hout.
Qed.

(** X22. Without SVG in the markup there is no image. When the runtime is
    there and MathJax converts the expression to markup that has no [<svg] or
    no [</svg>], the render call is rejected with the error that MathJax did
    not return SVG output, and the image library is not called: the libraries
    are left as [outerHTML] left them. *)
Theorem default_renderer_needs_svg (expression : jsstring) (maxImageWidthPx : Z)
    (s s1 : RuntimeState) (runtime : MathjaxRuntime) (node : MathNode)
    (markup : jsstring) (l2 l3 : LibraryState) :
  getMathjaxRuntime s = (inr runtime, s1) ->
  convert (document runtime) expression (library s1) = (inr node, l2) ->
  outerHTML (adaptor runtime) node l2 = (inr markup, l3) ->
  (forall j, occursAt (lit "<svg") markup j = false)
  \/ (forall j, occursAt (lit "</svg>") markup j = false) ->
  renderFormulaPngDefault expression maxImageWidthPx s
  = (inl (RejectedWith (JsError (lit "MathJax did not return SVG output"))),
     {| mathjaxRuntime := mathjaxRuntime s1; library := l3 |}).
Proof.
  intros Hrt Hconv Hhtml Hno.
  unfold renderFormulaPngDefault, thenR at 1. rewrite Hrt.
  erewrite call_returns by exact Hconv.
  assert (Hh : outerHTML (adaptor runtime) node
                 (library {| mathjaxRuntime := mathjaxRuntime s1; library := l2 |})
               = (inr markup, l3)) by exact Hhtml.
  erewrite call_returns by exact Hh.
  unfold thenR at 1. rewrite (extractSvgMarkup_without_svg markup Hno).
  reflexivity.
Qed.

End DefaultRenderer.

Arguments Build_MathjaxRuntime {Adaptor MathDocument} adaptor document.
Arguments Build_RuntimeState {Adaptor MathDocument LibraryState}
  mathjaxRuntime library.
Arguments RejectedWith {LibraryError} error.
Arguments RejectedByLibrary {LibraryError} error.
Arguments getMathjaxRuntime {Adaptor TexInput SvgOutput MathDocument}
  {LibraryError LibraryState} liteAdaptor RegisterHTMLHandler newTeX newSVG
  mathjaxDocument _.
Arguments renderFormulaPngDefault {Adaptor TexInput SvgOutput MathDocument}
  {MathNode Image Metadata PngBuffer LibraryError LibraryState} liteAdaptor
  RegisterHTMLHandler newTeX newSVG mathjaxDocument convert outerHTML sharp
  metadata width resize pngToBuffer expression maxImageWidthPx _.

(** * The further properties at concrete inputs *)

Ltac not_among :=
  let H := fresh "H" in
  intros H; cbn in H;
  repeat (destruct H as [H|H]; [discriminate H|]); exact H.

Ltac nowhere j :=
  first [reflexivity|destruct j as [|j]; [reflexivity|nowhere j]].

(** X2 at a formula in inline code: every [$$] of the text stands inside the
    code span, and the text is one text token. *)
Lemma plain_text_witness :
  tokenizeMathText inlineCodeIndex (lit "`$$a$$`")
    (resolveDiscordMathImageConfig None)
  = [TextToken (lit "`$$a$$`")].
Proof.
  apply (plain_text_is_one_token inlineCodeIndex (lit "`$$a$$`")
           (resolveDiscordMathImageConfig None)).
  intros d j [<-|[<-|[]]] Hj;
    do 7 (destruct j as [|j]; [reflexivity|]);
    simpl in Hj; lia.
Defined.

(** X4 at [$$a$$ $$b$$]: the second formula token stands at offset 6, the
    first valid opening from offset 5, where the first token ends. *)
Lemma greedy_witness :
  exists d,
    In d (activeDelimitersOf (resolveDiscordMathImageConfig None))
    /\ lit "$$b$$" = open d ++ lit "b" ++ close d
    /\ earliestValid (open d) (lit "$$a$$ $$b$$")
         (codePredicateOf inlineCodeIndex (lit "$$a$$ $$b$$")
            (resolveDiscordMathImageConfig None)) 5 6
    /\ (forall d' j,
          In d' (activeDelimitersOf (resolveDiscordMathImageConfig None)) ->
          5 <= j < 6 ->
          validAt (open d') (lit "$$a$$ $$b$$")
            (codePredicateOf inlineCodeIndex (lit "$$a$$ $$b$$")
               (resolveDiscordMathImageConfig None)) j = false)
    /\ earliestValid (close d) (lit "$$a$$ $$b$$")
         (codePredicateOf inlineCodeIndex (lit "$$a$$ $$b$$")
            (resolveDiscordMathImageConfig None))
         (6 + length (open d)) (6 + length (open d) + length (lit "b")).
Proof.
  exact (tokenization_is_greedy inlineCodeIndex (lit "$$a$$ $$b$$")
           (resolveDiscordMathImageConfig None)
           [FormulaToken (lit "$$a$$") (lit "a"); TextToken (lit " ")] []
           (lit "$$b$$") (lit "b") eq_refl).
Defined.

(** [{ delimiters: [bracket, double-dollar, bracket] }] *)
Definition bracketFirstConfig : DiscordMathImageConfig :=
  {| in_enabled := None;
     in_delimiters := Some ["bracket"; "double-dollar"; "bracket"]%string;
     in_excludeCode := None;
     in_maxExpressionsPerReply := Undefined;
     in_maxCharsPerExpression := Undefined;
     in_maxImageWidthPx := Undefined |}.

(** X5 at the default configuration and one that names the brackets first
    and twice. *)
Lemma delimiter_order_witness :
  tokenizeMathText inlineCodeIndex (lit "\[a\] $$b$$")
    (resolveDiscordMathImageConfig None)
  = tokenizeMathText inlineCodeIndex (lit "\[a\] $$b$$")
      (resolveDiscordMathImageConfig (Some bracketFirstConfig)).
Proof.
  apply (delimiter_order_is_irrelevant inlineCodeIndex (lit "\[a\] $$b$$")
           (resolveDiscordMathImageConfig None)
           (resolveDiscordMathImageConfig (Some bracketFirstConfig))).
  - intros k. cbn. tauto.
  - reflexivity.
Defined.

(** X7 at [{ maxCharsPerExpression: 3 }]. *)
Lemma positive_integer_witness :
  (0 < 3)%Z
  /\ maxCharsPerExpression
       (resolveDiscordMathImageConfig (Some threeCharsConfig)) = 3%Z.
Proof.
  split; [reflexivity|].
  apply (proj1 (proj2 (positive_integer_is_kept threeCharsConfig 3 3
                         eq_refl (Qeq_refl 3)))).
  reflexivity.
Defined.

(** X8 at a formula in inline code, with the default configuration. *)
Lemma plain_reply_witness :
  buildDiscordMathSegments inlineCodeIndex stringOfMessage pngRenderer
      quietLogger
    (lit "`$$a$$`") None {| renderFormulaPng := Some pngRenderer |} emptyWorld
  = (inr {| segments := [TextSegment (lit "`$$a$$`")];
            hasMathImages := false;
            config := resolveDiscordMathImageConfig None |}, emptyWorld).
Proof.
  apply (plain_reply_passes_through inlineCodeIndex jsstring jsstring unit
           stringOfMessage pngRenderer quietLogger (lit "`$$a$$`") None
           {| renderFormulaPng := Some pngRenderer |} emptyWorld).
  right. right.
  intros d j [<-|[<-|[]]] Hj;
    do 7 (destruct j as [|j]; [reflexivity|]);
    simpl in Hj; lia.
Defined.

(** X17 at markup with something around the SVG. *)
Lemma extract_idempotent_witness :
  extractSvgMarkup (lit "<svg>x</svg>") = inr (lit "<svg>x</svg>").
Proof.
  exact (extractSvgMarkup_idempotent (lit "<p><svg>x</svg></p>")
           (lit "<svg>x</svg>") eq_refl).
Defined.

(** X18 at an opening tag that is not closed. *)
Lemma without_tag_witness :
  applySvgTextColor (lit "<svg width=1") (lit "#FFFFFF") = lit "<svg width=1".
Proof.
  apply (applySvgTextColor_without_tag (lit "<svg width=1") (lit "#FFFFFF")).
  right. not_among.
Defined.

(** X19 at [<svg width=1>x</svg>]. *)
Lemma adds_style_witness :
  applySvgTextColor (lit "<svg width=1>x</svg>") (lit "#FFFFFF")
  = lit "<svg width=1 style=" ++ [dquote] ++ lit "color: #FFFFFF;"
    ++ [dquote] ++ lit ">x</svg>".
Proof.
  apply (applySvgTextColor_adds_style (lit " width=1") (lit "x</svg>")
           (lit "#FFFFFF")).
  - not_among.
  - intros c rest [= <- _]. reflexivity.
  - intros i. nowhere i.
Defined.

(** X20 at an opening tag with a [style] attribute between two others. *)
Lemma extends_style_witness :
  applySvgTextColor
    (lit "<svg width=1 style=" ++ [dquote] ++ lit " fill: red " ++ [dquote]
     ++ lit " height=2>x</svg>") (lit "#FFFFFF")
  = lit "<svg width=1 style=" ++ [dquote] ++ lit "fill: red; color: #FFFFFF;"
    ++ [dquote] ++ lit " height=2>x</svg>".
Proof.
  apply (applySvgTextColor_extends_style (lit " width=1") (lit " fill: red ")
           (lit " height=2") (lit "x</svg>") (lit "#FFFFFF") " "%char).
  - not_among.
  - intros c rest [= <- _]. reflexivity.
  - reflexivity.
  - not_among.
  - intros i. nowhere i.
  - not_among.
  - not_among.
Defined.

(** X22 at libraries whose markup has no SVG: the runtime is created and
    stored, the expression is converted, and the call is rejected before the
    image library is called. *)
Lemma default_renderer_witness :
  renderFormulaPngDefault
    (logged "liteAdaptor" tt) (fun _ => logged "RegisterHTMLHandler" tt)
    (logged "TeX" tt) (logged "SVG" tt) (fun _ _ => logged "document" tt)
    (fun _ expression => logged "convert" expression)
    (fun _ node => logged "outerHTML" (paragraphOf node))
    (fun svg => logged "sharp" svg) (fun _ => logged "metadata" tt)
    (fun _ => None) (fun image _ => logged "resize" image)
    (fun image => logged "toBuffer" image)
    (lit "x") 2048 {| mathjaxRuntime := None; library := [] |}
  = (inl (RejectedWith (JsError (lit "MathJax did not return SVG output"))),
     {| mathjaxRuntime := Some {| adaptor := tt; document := tt |};
        library := ["liteAdaptor"; "RegisterHTMLHandler"; "TeX"; "SVG";
                    "document"; "convert"; "outerHTML"]%string |}).
Proof.
  apply (default_renderer_needs_svg unit unit unit unit jsstring jsstring unit
           jsstring jsstring (list string)
           (logged "liteAdaptor" tt) (fun _ => logged "RegisterHTMLHandler" tt)
           (logged "TeX" tt) (logged "SVG" tt)
           (fun _ _ => logged "document" tt)
           (fun _ expression => logged "convert" expression)
           (fun _ node => logged "outerHTML" (paragraphOf node))
           (fun svg => logged "sharp" svg) (fun _ => logged "metadata" tt)
           (fun _ => None) (fun image _ => logged "resize" image)
           (fun image => logged "toBuffer" image)
           (lit "x") 2048%Z {| mathjaxRuntime := None; library := [] |}
           {| mathjaxRuntime := Some {| adaptor := tt; document := tt |};
              library := ["liteAdaptor"; "RegisterHTMLHandler"; "TeX"; "SVG";
                          "document"]%string |}
           {| adaptor := tt; document := tt |} (lit "x")
           (paragraphOf (lit "x"))
           ["liteAdaptor"; "RegisterHTMLHandler"; "TeX"; "SVG"; "document";
            "convert"]%string
           ["liteAdaptor"; "RegisterHTMLHandler"; "TeX"; "SVG"; "document";
            "convert"; "outerHTML"]%string).
  - reflexivity.
  - reflexivity.
  - reflexivity.
  - left. intros j. nowhere j.
Defined.

(** X23 at [$$bad$$ $$b$$] with a renderer that rejects [bad] and returns an
    image for any other expression: the build returns, [$$bad$$] stays as
    text, and [$$b$$], which comes after it, is the one math image. *)
Lemma local_failure_witness :
  handlerReturns stringOfMessage (@quietLogger jsstring)
  /\ exists r w',
       buildDiscordMathSegments inlineCodeIndex stringOfMessage pickyRenderer
         quietLogger (lit "$$bad$$ $$b$$") None
         {| renderFormulaPng := Some pickyRenderer |} emptyWorld
       = (inr r, w')
       /\ mathImages (segments r) = [(lit "$$b$$", lit "b")]
       /\ inTextSegment (segments r) (lit "$$bad$$").
Proof.
  assert (Hret : handlerReturns stringOfMessage (@quietLogger jsstring)).
  { split; [intros error []; now exists error, tt
           |intros message []; now exists tt]. }
  split; [exact Hret|].
  destruct (render_failure_is_local inlineCodeIndex jsstring jsstring unit
              stringOfMessage pickyRenderer quietLogger
              (lit "$$bad$$ $$b$$") None
              {| renderFormulaPng := Some pickyRenderer |} emptyWorld Hret)
    as (r & w' & E & Hrejected & Hlocal).
  exists r, w'. split; [exact E|]. split.
  - rewrite (Hlocal (fun e => if list_eq_dec ascii_dec e (lit "bad")
                              then true else false)); [reflexivity|reflexivity|].
    intros e []. cbv [orElse renderFormulaPng pickyRenderer].
    destruct (list_eq_dec ascii_dec e (lit "bad"));
      [now exists (lit "Error: bad formula"), tt
      |now exists (lit "png:" ++ e), tt].
  - apply (Hrejected (lit "bad")).
    + intros []. now exists (lit "Error: bad formula"), tt.
    + left. reflexivity.
Defined.
